(** * Bingo client (src/App.jsx): card parsing, language detection,
      word marking, best-card selection and the card transmission queue.

    The React component is embedded as a transition system over an explicit
    world: the component's state hooks, the socket, the pending timers and
    the observable effects (messages written to the socket, calls of
    [sendBingoCard], lines written to the console).

    Modelling conventions.
    - A JavaScript string is a [string]: a sequence of code units below 256.
    - A decoded JSON payload is a [JSON] tree; [option JSON] adds
      [undefined] (the result of reading an absent property).
    - A state updater passed to [setBingoCards] runs once, on the latest
      committed store, before the next event is handled.
    - A handler reads the hooks of the render it was created in. A click
      or a form handler runs in the latest render. A callback that runs
      later (a timer, the [onload] of a file reader) still holds the values
      of the render that created it: each pending callback is kept in the
      world together with what it closed over.
    - A state updater that throws while the next render applies it loses
      the component: the step returns [None]. Only the handlers, the state
      updaters and the effects are embedded; the JSX is not evaluated, so a
      step that returns a state says that those ran to completion, not that
      the JSX of the new state can be drawn. *)

From Stdlib Require Import Ascii String.
From stdpp Require Import base option list strings.

Local Open Scope nat_scope.

(** ** Strings as the source uses them *)

Module JsString.

(** [\s] and [String.prototype.trim] agree on what white space is; below
    256 that is TAB, LF, VT, FF, CR, SPACE and NBSP. *)
Definition isWhiteSpace (c : ascii) : bool :=
  let n := nat_of_ascii c in
  ((9 <=? n) && (n <=? 13)) || (n =? 32) || (n =? 160).

Definition isEmpty (s : string) : bool :=
  match s with EmptyString => true | String _ _ => false end.

(** Truthiness of a string value: [""] is falsy. *)
Definition truthy (s : string) : bool := negb (isEmpty s).

Definition snoc (s : string) (c : ascii) : string := s +:+ String c EmptyString.

Fixpoint trimStart (s : string) : string :=
  match s with
  | EmptyString => EmptyString
  | String c r => if isWhiteSpace c then trimStart r else s
  end.

Fixpoint trimEnd (s : string) : string :=
  match s with
  | EmptyString => EmptyString
  | String c r =>
      let r' := trimEnd r in
      if isWhiteSpace c && isEmpty r' then EmptyString else String c r'
  end.

(** [s.trim()] *)
Definition trim (s : string) : string := trimEnd (trimStart s).

(** [s.split(sep)] for a one-character separator: the pieces between
    separators, empty pieces included; never the empty list. *)
Fixpoint splitChar (sep : ascii) (cur : string) (s : string) : list string :=
  match s with
  | EmptyString => [cur]
  | String c r =>
      if Ascii.eqb c sep then cur :: splitChar sep EmptyString r
      else splitChar sep (snoc cur c) r
  end.

Definition LF : ascii := ascii_of_nat 10.

(** [s.split('\n')] *)
Definition splitLines (s : string) : list string := splitChar LF EmptyString s.

(** [s.split(/\s+/)]: the scan of the split algorithm, one code unit at a
    time. [inSep] is set while the scan is inside a run of white space
    that has already closed a piece. A leading or trailing run yields an
    empty first or last piece, as in JavaScript; [""] splits to [[""]]. *)
Fixpoint splitWsFrom (inSep : bool) (cur : string) (s : string) : list string :=
  match s with
  | EmptyString => [cur]
  | String c r =>
      if isWhiteSpace c then
        if inSep then splitWsFrom true cur r
        else cur :: splitWsFrom true EmptyString r
      else splitWsFrom false (snoc cur c) r
  end.

Definition splitWs (s : string) : list string := splitWsFrom false EmptyString s.

(** [hay.includes(needle)] on strings: substring test. *)
Fixpoint includes (hay needle : string) : bool :=
  String.prefix needle hay ||
  match hay with
  | EmptyString => false
  | String _ r => includes r needle
  end.

End JsString.

(** ** Language profiles *)

Record LanguageConfig := mkConfig { rows : nat; cols : nat; total : nat }.

(** [Object.entries] enumerates these string keys in declaration order. *)
Definition LANGUAGE_CONFIGS : list (string * LanguageConfig) :=
  [ ("spanish",    mkConfig 4 6 24);
    ("english",    mkConfig 2 7 14);
    ("portuguese", mkConfig 5 4 20);
    ("dutch",      mkConfig 2 5 10) ].

(** The loop of [detectLanguage] over an arbitrary profile table. *)
Fixpoint detectLanguageIn (configs : list (string * LanguageConfig))
    (wordCount : nat) : string :=
  match configs with
  | [] => "spanish"
  | (lang, config) :: rest =>
      if total config =? wordCount then lang
      else detectLanguageIn rest wordCount
  end.

Definition detectLanguage (wordCount : nat) : string :=
  detectLanguageIn LANGUAGE_CONFIGS wordCount.

(** ** Cards *)

(** [markedWords] is optional because every reader of the field guards it
    ([card.markedWords || []]); the two constructors of cards always set it. *)
Record Card := mkCard {
  id : string;
  words : list string;
  language : string;
  transmitted : bool;
  markedWords : option (list string)
}.

Definition marked (card : Card) : list string := default [] (markedWords card).

Definition strIn (w : string) (l : list string) : bool := existsb (String.eqb w) l.

(** ** Card parser *)

(** One turn of the [for (const line of lines)] loop of [parseTxtFile]. *)
Definition parseLine (cards : list Card) (line : string) : list Card :=
  let parts := JsString.splitWs (JsString.trim line) in
  if length parts <? 2 then cards
  else
    match parts with
    | [] => cards
    | id0 :: words0 =>
        if length words0 =? 0 then cards
        else cards ++ [mkCard id0 words0 (detectLanguage (length words0)) false (Some [])]
    end.

Definition parseTxtFile (content : string) : list Card :=
  let lines :=
    List.filter (fun line => JsString.truthy (JsString.trim line))
                (JsString.splitLines content) in
  if length lines =? 0 then []
  else fold_left parseLine lines [].

(** The card parser as the specification words it: the white-space
    delimited tokens of a line, and one card per line with at least two of
    them. *)
Module ParserSpec.

Fixpoint tokensFrom (cur : string) (s : string) : list string :=
  match s with
  | EmptyString => if JsString.isEmpty cur then [] else [cur]
  | String c r =>
      if JsString.isWhiteSpace c then
        if JsString.isEmpty cur then tokensFrom EmptyString r
        else cur :: tokensFrom EmptyString r
      else tokensFrom (JsString.snoc cur c) r
  end.

Definition tokens (line : string) : list string := tokensFrom EmptyString line.

Definition cardsOfLine (line : string) : list Card :=
  match tokens line with
  | id0 :: w :: ws =>
      [mkCard id0 (w :: ws) (detectLanguage (length (w :: ws))) false (Some [])]
  | _ => []
  end.

Definition parse (content : string) : list Card :=
  concat (map cardsOfLine (JsString.splitLines content)).

End ParserSpec.

(** ** Decoded payloads *)

(** What [JSON.parse] can return. Numbers are carried as integers: no
    handler computes with them. An object is the list of its properties. *)
#[warnings="-register-all"]
Inductive JSON :=
| JNull
| JBool (b : bool)
| JNum (n : Z)
| JStr (s : string)
| JArr (items : list JSON)
| JObj (fields : list (string * JSON)).

Fixpoint lookupField (key : string) (fields : list (string * JSON)) : option JSON :=
  match fields with
  | [] => None
  | (k, v) :: rest => if String.eqb k key then Some v else lookupField key rest
  end.

(** [data.key] for a non-null [data]; [None] is [undefined]. None of the
    keys the handlers read is a property of a string, number, boolean or
    array. *)
Definition getProp (data : JSON) (key : string) : option JSON :=
  match data with
  | JObj fields => lookupField key fields
  | _ => None
  end.

(** ToBoolean. *)
Definition truthy (v : option JSON) : bool :=
  match v with
  | None | Some JNull => false
  | Some (JBool b) => b
  | Some (JNum n) => negb (n =? 0)%Z
  | Some (JStr s) => JsString.truthy s
  | Some (JArr _) | Some (JObj _) => true
  end.

(** [items.includes(s)] for a string [s]: some element is that string. *)
Definition arrayIncludes (items : list JSON) (s : string) : bool :=
  existsb (fun v => match v with JStr t => String.eqb t s | _ => false end) items.

(** [data.card_ids && data.card_ids.includes(card.id)]. A falsy value
    short-circuits; arrays and strings have an [includes] method; on any
    other truthy value the call is a TypeError ([None]). *)
Definition cardIdsInclude (card_ids : option JSON) (cardId : string) : option bool :=
  if negb (truthy card_ids) then Some false
  else
    match card_ids with
    | Some (JArr items) => Some (arrayIncludes items cardId)
    | Some (JStr s) => Some (JsString.includes s cardId)
    | _ => None
    end.

(** [card.language === data.language] *)
Definition languageIs (lang : option JSON) (card : Card) : bool :=
  match lang with
  | Some (JStr s) => String.eqb (language card) s
  | _ => false
  end.

(** ** Word marking: the callback of [prevCards.map] in [word_selected] *)

Definition setMarkedWords (card : Card) (mw : list string) : Card :=
  mkCard (id card) (words card) (language card) (transmitted card) (Some mw).

Definition markCard (data : JSON) (card : Card) : option Card :=
  match cardIdsInclude (getProp data "card_ids") (id card) with
  | None => None
  | Some inIds =>
    Some
    (if inIds then
       match getProp data "word" with
       | Some (JStr word) =>
           if strIn word (words card) then
             let markedWords0 := marked card in
             if negb (strIn word markedWords0)
             then setMarkedWords card (markedWords0 ++ [word])
             else card
           else card
       | _ => card
       end
     else card)
  end.

Definition markCards (data : JSON) (prevCards : list Card) : option (list Card) :=
  mapM (markCard data) prevCards.

(** ** Best-card selection: the body of the deferred callback *)

Record Best := mkBest {
  maxMarked : nat;
  bestIndex : nat;
  maxMarkedForLanguage : nat;
  bestIndexForLanguage : nat
}.

Definition markedCount (card : Card) : nat :=
  match markedWords card with
  | Some mw => length mw
  | None => 0
  end.

(** One call of the [forEach] callback. *)
Definition visitCard (lang : option JSON) (card : Card) (index : nat) (b : Best) : Best :=
  let markedCount0 := markedCount card in
  let b1 :=
    if maxMarked b <? markedCount0
    then mkBest markedCount0 index (maxMarkedForLanguage b) (bestIndexForLanguage b)
    else b in
  if languageIs lang card && (maxMarkedForLanguage b1 <? markedCount0)
  then mkBest (maxMarked b1) (bestIndex b1) markedCount0 index
  else b1.

Fixpoint forEachCard (lang : option JSON) (cards : list Card) (index : nat) (b : Best) : Best :=
  match cards with
  | [] => b
  | card :: rest => forEachCard lang rest (S index) (visitCard lang card index b)
  end.

Definition bestCardIndex (updated : list Card) (lang : option JSON) : nat :=
  let b := forEachCard lang updated 0 (mkBest 0 0 0 0) in
  if 0 <? maxMarkedForLanguage b then bestIndexForLanguage b else bestIndex b.

(** ** The world *)

Inductive ReadyState := CONNECTING | OPEN | CLOSING | CLOSED.

(** The socket held by [socketRef.current], with the [name] its [onopen]
    handler closed over. *)
Record Socket := mkSocket { readyState : ReadyState; owner : string }.

(** What is written to the socket. *)
Inductive Outbound :=
| RegisterMsg (user : string)
| BingoCardMsg (cardId : string) (cardWords : list string) (cardLanguage : string)
| PlayMsg.

(** Pending [setTimeout] callbacks, each with what it closed over. *)
Inductive Timer :=
| SelectBest (updated : list Card) (lang : option JSON)
| TransmitMore (updatedCards : list Card).

(** A [FileReader] whose read is under way, with the text the read will
    deliver and the [bingoCards] its [onload] handler closed over: the
    store of the render in which the file was chosen. *)
Record FileReader := mkFileReader {
  closedOver : list Card;
  result : string
}.

Record RoundResults := mkRoundResults {
  roundWinners : option JSON;
  roundLanguage : option JSON
}.

(** The state hooks the handlers write, the socket, the pending timers,
    the file reads under way, and the traces: [wire] is what reached the
    socket, [sendCalls] the calls of [sendBingoCard] (each with the store
    index its card was read at), [console] the [console.error] lines. The
    modal and form-field hooks are presentation only and left out. *)
Record World := mkWorld {
  socketRef : option Socket;
  bingoCards : list Card;
  selectedCardIndex : nat;
  currentWord : option JSON;
  isTransmitting : bool;
  currentLanguage : option JSON;
  playerCount : option JSON;
  gameStarted : bool;
  showWinnersModal : bool;
  winners : option JSON;
  showRoundModal : bool;
  roundResults : RoundResults;
  timers : list Timer;
  readers : list FileReader;
  wire : list Outbound;
  sendCalls : list (nat * Card);
  console : list string
}.

Definition setSocketRef (v : option Socket) (w : World) : World :=
  mkWorld v (bingoCards w) (selectedCardIndex w) (currentWord w)
    (isTransmitting w) (currentLanguage w) (playerCount w) (gameStarted w)
    (showWinnersModal w) (winners w) (showRoundModal w) (roundResults w)
    (timers w) (readers w) (wire w) (sendCalls w) (console w).

Definition setBingoCards (v : list Card) (w : World) : World :=
  mkWorld (socketRef w) v (selectedCardIndex w) (currentWord w)
    (isTransmitting w) (currentLanguage w) (playerCount w) (gameStarted w)
    (showWinnersModal w) (winners w) (showRoundModal w) (roundResults w)
    (timers w) (readers w) (wire w) (sendCalls w) (console w).

Definition setSelectedCardIndex (v : nat) (w : World) : World :=
  mkWorld (socketRef w) (bingoCards w) v (currentWord w) (isTransmitting w)
    (currentLanguage w) (playerCount w) (gameStarted w) (showWinnersModal w)
    (winners w) (showRoundModal w) (roundResults w) (timers w) (readers w)
    (wire w) (sendCalls w) (console w).

Definition setCurrentWord (v : option JSON) (w : World) : World :=
  mkWorld (socketRef w) (bingoCards w) (selectedCardIndex w) v
    (isTransmitting w) (currentLanguage w) (playerCount w) (gameStarted w)
    (showWinnersModal w) (winners w) (showRoundModal w) (roundResults w)
    (timers w) (readers w) (wire w) (sendCalls w) (console w).

Definition setIsTransmitting (v : bool) (w : World) : World :=
  mkWorld (socketRef w) (bingoCards w) (selectedCardIndex w) (currentWord w) v
    (currentLanguage w) (playerCount w) (gameStarted w) (showWinnersModal w)
    (winners w) (showRoundModal w) (roundResults w) (timers w) (readers w)
    (wire w) (sendCalls w) (console w).

Definition setCurrentLanguage (v : option JSON) (w : World) : World :=
  mkWorld (socketRef w) (bingoCards w) (selectedCardIndex w) (currentWord w)
    (isTransmitting w) v (playerCount w) (gameStarted w) (showWinnersModal w)
    (winners w) (showRoundModal w) (roundResults w) (timers w) (readers w)
    (wire w) (sendCalls w) (console w).

Definition setPlayerCount (v : option JSON) (w : World) : World :=
  mkWorld (socketRef w) (bingoCards w) (selectedCardIndex w) (currentWord w)
    (isTransmitting w) (currentLanguage w) v (gameStarted w)
    (showWinnersModal w) (winners w) (showRoundModal w) (roundResults w)
    (timers w) (readers w) (wire w) (sendCalls w) (console w).

Definition setGameStarted (v : bool) (w : World) : World :=
  mkWorld (socketRef w) (bingoCards w) (selectedCardIndex w) (currentWord w)
    (isTransmitting w) (currentLanguage w) (playerCount w) v
    (showWinnersModal w) (winners w) (showRoundModal w) (roundResults w)
    (timers w) (readers w) (wire w) (sendCalls w) (console w).

Definition setShowWinnersModal (v : bool) (w : World) : World :=
  mkWorld (socketRef w) (bingoCards w) (selectedCardIndex w) (currentWord w)
    (isTransmitting w) (currentLanguage w) (playerCount w) (gameStarted w) v
    (winners w) (showRoundModal w) (roundResults w) (timers w) (readers w)
    (wire w) (sendCalls w) (console w).

Definition setWinners (v : option JSON) (w : World) : World :=
  mkWorld (socketRef w) (bingoCards w) (selectedCardIndex w) (currentWord w)
    (isTransmitting w) (currentLanguage w) (playerCount w) (gameStarted w)
    (showWinnersModal w) v (showRoundModal w) (roundResults w) (timers w)
    (readers w) (wire w) (sendCalls w) (console w).

Definition setShowRoundModal (v : bool) (w : World) : World :=
  mkWorld (socketRef w) (bingoCards w) (selectedCardIndex w) (currentWord w)
    (isTransmitting w) (currentLanguage w) (playerCount w) (gameStarted w)
    (showWinnersModal w) (winners w) v (roundResults w) (timers w) (readers w)
    (wire w) (sendCalls w) (console w).

Definition setRoundResults (v : RoundResults) (w : World) : World :=
  mkWorld (socketRef w) (bingoCards w) (selectedCardIndex w) (currentWord w)
    (isTransmitting w) (currentLanguage w) (playerCount w) (gameStarted w)
    (showWinnersModal w) (winners w) (showRoundModal w) v (timers w)
    (readers w) (wire w) (sendCalls w) (console w).

Definition setTimers (v : list Timer) (w : World) : World :=
  mkWorld (socketRef w) (bingoCards w) (selectedCardIndex w) (currentWord w)
    (isTransmitting w) (currentLanguage w) (playerCount w) (gameStarted w)
    (showWinnersModal w) (winners w) (showRoundModal w) (roundResults w) v
    (readers w) (wire w) (sendCalls w) (console w).

Definition setReaders (v : list FileReader) (w : World) : World :=
  mkWorld (socketRef w) (bingoCards w) (selectedCardIndex w) (currentWord w)
    (isTransmitting w) (currentLanguage w) (playerCount w) (gameStarted w)
    (showWinnersModal w) (winners w) (showRoundModal w) (roundResults w)
    (timers w) v (wire w) (sendCalls w) (console w).

Definition setWire (v : list Outbound) (w : World) : World :=
  mkWorld (socketRef w) (bingoCards w) (selectedCardIndex w) (currentWord w)
    (isTransmitting w) (currentLanguage w) (playerCount w) (gameStarted w)
    (showWinnersModal w) (winners w) (showRoundModal w) (roundResults w)
    (timers w) (readers w) v (sendCalls w) (console w).

Definition setSendCalls (v : list (nat * Card)) (w : World) : World :=
  mkWorld (socketRef w) (bingoCards w) (selectedCardIndex w) (currentWord w)
    (isTransmitting w) (currentLanguage w) (playerCount w) (gameStarted w)
    (showWinnersModal w) (winners w) (showRoundModal w) (roundResults w)
    (timers w) (readers w) (wire w) v (console w).

Definition setConsole (v : list string) (w : World) : World :=
  mkWorld (socketRef w) (bingoCards w) (selectedCardIndex w) (currentWord w)
    (isTransmitting w) (currentLanguage w) (playerCount w) (gameStarted w)
    (showWinnersModal w) (winners w) (showRoundModal w) (roundResults w)
    (timers w) (readers w) (wire w) (sendCalls w) v.
Definition initialWorld : World :=
  mkWorld None [] 0 (Some (JStr "")) false (Some (JStr "")) (Some (JNum 0))
    false false (Some JNull) false
    (mkRoundResults (Some (JArr [])) (Some (JStr ""))) [] [] [] [] [].

Definition socketIsOpen (w : World) : bool :=
  match socketRef w with
  | Some (mkSocket OPEN _) => true
  | _ => false
  end.

(** ** Transmission queue *)

(** [sendBingoCard(card)]. [index] is not an argument of the source
    function: it labels the call in the trace with the store position the
    card was read at. *)
Definition sendBingoCard (index : nat) (card : Card) (w : World) : World :=
  let w1 := setSendCalls (sendCalls w ++ [(index, card)]) w in
  if socketIsOpen w1
  then setWire (wire w1 ++ [BingoCardMsg (id card) (words card) (language card)]) w1
  else w1.

Definition setTransmitted (card : Card) : Card :=
  mkCard (id card) (words card) (language card) true (markedWords card).

Definition untransmitted (card : Card) : Prop := transmitted card = false.

#[global] Instance untransmitted_dec card : Decision (untransmitted card).
Proof. unfold untransmitted. apply _. Defined.

Definition hasUntransmitted (cards : list Card) : bool :=
  existsb (fun card => negb (transmitted card)) cards.

(** [transmitNextCard]: the updater it hands to [setBingoCards], run on the
    committed store. *)
Definition transmitNextCard (w : World) : World :=
  let prevCards := bingoCards w in
  match list_find untransmitted prevCards with
  | None => setIsTransmitting false w
  | Some (untransmittedIndex, card) =>
      let w1 := sendBingoCard untransmittedIndex card w in
      let updatedCards :=
        imap (fun idx c => if idx =? untransmittedIndex then setTransmitted c else c)
             prevCards in
      setBingoCards updatedCards (setTimers (timers w1 ++ [TransmitMore updatedCards]) w1)
  end.

(** The effect on [bingoCards.length]. *)
Definition lengthEffect (w : World) : World :=
  if length (bingoCards w) =? 0 then w
  else if hasUntransmitted (bingoCards w) && negb (isTransmitting w)
       then transmitNextCard (setIsTransmitting true w)
       else w.

(** Effects run after a render whose dependency changed. *)
Definition afterRender (before after : World) : World :=
  if length (bingoCards before) =? length (bingoCards after) then after
  else lengthEffect after.

(** ** Timers *)

Definition runTimer (t : Timer) (w : World) : World :=
  match t with
  | SelectBest updated lang => setSelectedCardIndex (bestCardIndex updated lang) w
  | TransmitMore updatedCards =>
      if hasUntransmitted updatedCards then transmitNextCard w
      else setIsTransmitting false w
  end.

(** ** Protocol dispatcher *)

(** How a call completes: it returns, or it throws to its caller. *)
Inductive Completion (A : Type) :=
| Returns (a : A)
| Throws.
Arguments Returns {A} a.
Arguments Throws {A}.

Definition typeTag (data : JSON) : option JSON := getProp data "type".

(** [data.winners || []] *)
Definition orEmptyArray (v : option JSON) : option JSON :=
  if truthy v then v else Some (JArr []).

(** [handleWebSocketMessage]. Reading [data.type] of [null] throws before
    any hook is written. The [switch] compares [data.type] with each case
    label by strict equality, in order. The inner [option] is the render
    that applies the queued updates: [None] when the [setBingoCards]
    updater throws there. *)
Definition handleWebSocketMessage (data : JSON) (w : World) : Completion (option World) :=
  match data with
  | JNull => Throws
  | _ =>
    match typeTag data with
    | Some (JStr tag) =>
        if String.eqb tag "player_count" then
          Returns (Some (setPlayerCount (getProp data "count") w))
        else if String.eqb tag "game_started" then
          Returns (Some (setGameStarted true w))
        else if String.eqb tag "round_start" then
          Returns (Some (setCurrentLanguage (getProp data "language") w))
        else if String.eqb tag "word_selected" then
          let w1 := setCurrentWord (getProp data "word") w in
          Returns
            (match markCards data (bingoCards w1) with
             | None => None
             | Some updated =>
                 Some (setBingoCards updated
                         (setTimers
                            (timers w1 ++ [SelectBest updated (getProp data "language")])
                            w1))
             end)
        else if String.eqb tag "round_end" then
          Returns (Some (setShowRoundModal true
                    (setRoundResults
                       (mkRoundResults (orEmptyArray (getProp data "winners"))
                                       (getProp data "language"))
                       (setCurrentWord (Some (JStr "")) w))))
        else if String.eqb tag "game_end" then
          Returns (Some (setShowRoundModal false
                    (setShowWinnersModal true
                       (setWinners (getProp data "winners") w))))
        else Returns (Some w)
    | _ => Returns (Some w)
    end
  end.

Definition parseErrorLine : string := "Error parsing websocket message:".

(** [socket.onmessage]. The frame is given by what [JSON.parse] makes of
    it: [None] when it throws. *)
Definition onmessage (parsed : option JSON) (w : World) : option World :=
  match parsed with
  | None => Some (setConsole (console w ++ [parseErrorLine]) w)
  | Some data =>
      match handleWebSocketMessage data w with
      | Throws => Some (setConsole (console w ++ [parseErrorLine]) w)
      | Returns r => r
      end
  end.

(** ** Card entry *)

(** [handleFileUpload(event)] for an event that carries a file whose text
    is [content] (without a file the handler returns at once). It creates
    a reader, installs [onload] and starts the read; no hook is written
    yet. [onload] is created here, so the [bingoCards] it mentions is the
    store of the render this handler runs in. *)
Definition handleFileUpload (content : string) (w : World) : World :=
  setReaders (readers w ++ [mkFileReader (bingoCards w) content]) w.

(** [reader.onload]: the read is complete. The store it writes is built
    from the [bingoCards] it closed over, not from the store of this
    moment: [setBingoCards([...bingoCards, ...newCards])]. *)
Definition onload (reader : FileReader) (w : World) : World :=
  let newCards := parseTxtFile (result reader) in
  if 0 <? length newCards then setBingoCards (closedOver reader ++ newCards) w else w.

Definition handleManualSubmit (manualCardId manualInput : string) (w : World) : World :=
  if negb (JsString.truthy (JsString.trim manualCardId))
     || negb (JsString.truthy (JsString.trim manualInput)) then w
  else
    let words0 :=
      List.filter JsString.truthy (map JsString.trim (JsString.splitLines manualInput)) in
    if length words0 =? 0 then w
    else
      let card := mkCard (JsString.trim manualCardId) words0
                         (detectLanguage (length words0)) false (Some []) in
      setBingoCards (bingoCards w ++ [card]) w.

(** ** Connection *)

Definition registerUser (name : string) (w : World) : World :=
  if negb (JsString.truthy name) then w
  else
    match socketRef w with
    | Some _ => w
    | None => setSocketRef (Some (mkSocket CONNECTING name)) w
    end.

Definition onopen (w : World) : World :=
  match socketRef w with
  | Some (mkSocket CONNECTING name) =>
      setWire (wire w ++ [RegisterMsg name]) (setSocketRef (Some (mkSocket OPEN name)) w)
  | _ => w
  end.

(** The page reload that [onclose] schedules ends the session; the model
    covers one page load. *)
Definition onclose (w : World) : World :=
  match socketRef w with
  | Some (mkSocket _ name) => setSocketRef (Some (mkSocket CLOSED name)) w
  | None => w
  end.

Definition handlePlay (w : World) : World :=
  if socketIsOpen w then setWire (wire w ++ [PlayMsg]) w else w.

(** ** Events *)

Inductive Event :=
| Register (name : string)
| SocketOpens
| SocketCloses
| Message (parsed : option JSON)
| FileChosen (content : string)
| FileLoaded (k : nat)
| ManualSubmit (manualCardId manualInput : string)
| Play
| TimerFires (k : nat).

Definition handle (ev : Event) (w : World) : option World :=
  match ev with
  | Register name => Some (registerUser name w)
  | SocketOpens => Some (onopen w)
  | SocketCloses => Some (onclose w)
  | Message parsed => onmessage parsed w
  | FileChosen content => Some (handleFileUpload content w)
  | FileLoaded k =>
      match readers w !! k with
      | Some reader => Some (setReaders (delete k (readers w)) (onload reader w))
      | None => Some w
      end
  | ManualSubmit manualCardId manualInput =>
      Some (handleManualSubmit manualCardId manualInput w)
  | Play => Some (handlePlay w)
  | TimerFires k =>
      match timers w !! k with
      | Some t => Some (runTimer t (setTimers (delete k (timers w)) w))
      | None => Some w
      end
  end.

(** One event, then the effects of the render it causes. [FileChosen] is
    the change event of the file input, [FileLoaded k] the completion of
    the [k]-th read under way, [TimerFires k] the expiry of the [k]-th
    pending timer. The result is [None] when a state updater throws. *)
Definition step (ev : Event) (w : World) : option World :=
  match handle ev w with
  | Some w' => Some (afterRender w w')
  | None => None
  end.

Fixpoint run (evs : list Event) (w : World) : option World :=
  match evs with
  | [] => Some w
  | ev :: rest =>
      match step ev w with
      | Some w' => run rest w'
      | None => None
      end
  end.

Definition reachable (w : World) : Prop := exists evs, run evs initialWorld = Some w.

(** * Vocabulary of the statements and sample data *)

(** The declared profiles whose total is [n], in declaration order. *)
Definition profilesWithTotal (configs : list (string * LanguageConfig)) (n : nat)
  : list (string * LanguageConfig) :=
  List.filter (fun p => total (snd p) =? n) configs.

Definition twoCardFile : string :=
  "C1 a b c" +:+ String JsString.LF "C2 x y".

Definition singleTokenFile : string :=
  "C1" +:+ String JsString.LF (" lonely  " +:+ String JsString.LF "").

(** A single "first maximum" scan: the running maximum of [markedCount]
    over the cards satisfying [p], and the index where it was first
    reached, starting from [acc]. *)
Fixpoint firstMaxFrom (p : Card -> bool) (cards : list Card) (index : nat)
    (acc : nat * nat) : nat * nat :=
  match cards with
  | [] => acc
  | card :: rest =>
      firstMaxFrom p rest (S index)
        (if p card && (fst acc <? markedCount card)
         then (markedCount card, index) else acc)
  end.

(** [i] is the stored position of the first card, among those satisfying
    [p], with the largest number of marked words. *)
Definition FirstMax (p : Card -> bool) (cards : list Card) (i : nat) : Prop :=
  exists c, cards !! i = Some c /\ p c = true /\
    forall j c', cards !! j = Some c' -> p c' = true ->
      markedCount c' <= markedCount c /\ (j < i -> markedCount c' < markedCount c).

Definition anyCard (_ : Card) : bool := true.

Definition obj (fields : list (string * JSON)) : JSON := JObj fields.

Definition roundStart (lang : string) : JSON :=
  obj [("type", JStr "round_start"); ("language", JStr lang)].

(** A [word_selected] message as the protocol lists it: word and card ids. *)
Definition wordSelected (word : string) (card_ids : list string) : JSON :=
  obj [("type", JStr "word_selected"); ("word", JStr word);
       ("card_ids", JArr (map JStr card_ids))].

(** The same with a [language] property. *)
Definition wordSelectedIn (lang word : string) (card_ids : list string) : JSON :=
  obj [("type", JStr "word_selected"); ("word", JStr word);
       ("card_ids", JArr (map JStr card_ids)); ("language", JStr lang)].

Definition cardA : Card := mkCard "A" ["a1"; "a2"; "a3"] "es" true (Some ["a1"; "a2"]).
Definition cardB : Card := mkCard "B" ["b1"; "b2"; "b3"] "es" true (Some ["b1"; "b2"]).
Definition cardC : Card :=
  mkCard "C" ["c1"; "c2"; "c3"; "c4"; "c5"] "en" true (Some ["c1"; "c2"; "c3"; "c4"; "c5"]).

Definition NL : string := String JsString.LF EmptyString.

(** Three cards: A and B classified "spanish" (the default), C "dutch". *)
Definition threeCardFile : string :=
  "A a1 a2 a3" +:+ NL +:+ "B b1 b2 b3" +:+ NL +:+
  "C c1 c2 c3 c4 c5 c6 c7 c8 c9 c10".

(** A session: the cards are loaded and drained, a Spanish round starts,
    and words are called that mark two words on A, two on B and five on C,
    each call followed by its deferred selection. *)
Definition spanishRoundSession : list Event :=
  [ FileChosen threeCardFile; FileLoaded 0; TimerFires 0; TimerFires 0; TimerFires 0;
    Message (Some (roundStart "spanish")) ] ++
  concat (map (fun wc : string * string =>
                 [Message (Some (wordSelected (fst wc) [snd wc])); TimerFires 0])
              [ ("c1", "C"); ("c2", "C"); ("c3", "C"); ("c4", "C"); ("c5", "C");
                ("b1", "B"); ("b2", "B"); ("a1", "A"); ("a2", "A") ]).

(** A card is named by the message and carries the called word. *)
Definition Matches (ids : list JSON) (word : string) (c : Card) : Prop :=
  JStr (id c) ∈ ids /\ word ∈ words c.

(** What one [word_selected] does to one card, for an array [ids] and a
    string [word]. *)
Definition markOne (ids : list JSON) (word : string) (c : Card) : Card :=
  if arrayIncludes ids (id c) && strIn word (words c) && negb (strIn word (marked c))
  then setMarkedWords c (marked c ++ [word])
  else c.

(** The frame of marking: which fields of a card may differ afterwards. *)
Definition MarkedFrom (ids : list JSON) (word : string) (c c' : Card) : Prop :=
  id c' = id c /\ words c' = words c /\ language c' = language c /\
  transmitted c' = transmitted c /\
  (~ Matches ids word c -> c' = c) /\
  (Matches ids word c -> word ∈ marked c -> c' = c) /\
  (Matches ids word c -> word ∉ marked c ->
   markedWords c' = Some (marked c ++ [word])).

Definition cardD : Card := mkCard "D" ["d1"; "d2"] "spanish" false (Some []).
Definition cardE : Card := mkCard "E" ["d1"; "e2"] "spanish" false None.

Definition worldDE : World := setBingoCards [cardD; cardE] initialWorld.

(** A [word_selected] message without [card_ids]. *)
Definition wordSelectedNoIds (word : string) : JSON :=
  obj [("type", JStr "word_selected"); ("word", JStr word)].

(** The case labels of the dispatcher's [switch]. *)
Definition knownTags : list string :=
  ["player_count"; "game_started"; "round_start"; "word_selected"; "round_end"; "game_end"].

(** The state after a caught error: one more console line, nothing else. *)
Definition logged (w : World) : World := setConsole (console w ++ [parseErrorLine]) w.

Definition gameEnd (names : list string) : JSON :=
  obj [("type", JStr "game_end"); ("winners", JArr (map JStr names))].

Definition roundEnd (lang : string) : JSON :=
  obj [("type", JStr "round_end"); ("language", JStr lang); ("winners", JArr [])].

Definition chatMessage : JSON := obj [("type", JStr "chat"); ("text", JStr "hola")].

(** A word is called and the game ends with no [round_end] in between. *)
Definition abruptEndSession : list Event :=
  [ Message (Some (roundStart "spanish"));
    Message (Some (wordSelected "casa" []));
    Message (Some (gameEnd ["Ana"])) ].

(** Everything but the marks is the same. *)
Definition sameCard (c c' : Card) : Prop :=
  id c' = id c /\ words c' = words c /\ language c' = language c /\
  transmitted c' = transmitted c.

(** Card by card, the same cards up to their marks. *)
Definition SameFlags (cards cards' : list Card) : Prop := Forall2 sameCard cards cards'.

(** The card stored at position [j] has been handed to [sendBingoCard]:
    its [transmitted] flag is set. *)
Definition sentAt (w : World) (j : nat) : Prop :=
  exists c, bingoCards w !! j = Some c /\ transmitted c = true.

(** From [w] to [w1] no transmitted flag is cleared and every new call of
    [sendBingoCard] is for a position that was not yet transmitted. *)
Definition Progress (w w1 : World) : Prop :=
  (forall j, sentAt w j -> sentAt w1 j) /\
  exists ext,
    sendCalls w1 = sendCalls w ++ ext /\
    forall j c, (j, c) ∈ ext -> ~ sentAt w j.

(** Events that add no card: all but the completion of a file read and
    the manual form. *)
Definition addsNoCard (ev : Event) : Prop :=
  match ev with
  | FileLoaded _ | ManualSubmit _ _ => False
  | _ => True
  end.

Definition isSelectBest (t : Timer) : Prop :=
  match t with
  | SelectBest _ _ => True
  | TransmitMore _ => False
  end.

(** A second card is entered during the pacing delay that follows the
    first card's send; then that delay expires. *)
Definition lateCardSession : list Event :=
  [ Register "Ana"; SocketOpens;
    ManualSubmit "A" "uno"; ManualSubmit "B" "dos"; TimerFires 0 ].

(** A card is entered before the socket has opened. *)
Definition earlyCardSession : list Event :=
  [ Register "Ana"; ManualSubmit "A" "uno" ].

Definition twoLineFile : string := "A uno" +:+ NL +:+ "B dos".

(** Cards A and B are loaded from a file while the socket is connecting;
    a second file is chosen during the pacing delay that follows the send
    of A; the delay expires twice, for B and for the end of the drain. *)
Definition droppedSendSession : list Event :=
  [ Register "Ana"; FileChosen twoLineFile; FileLoaded 0;
    FileChosen "C tres"; TimerFires 0; TimerFires 0 ].

(** The socket opens, the read of the second file completes, and the
    pacing timers of the drain it starts fire. *)
Definition lateReadSession : list Event :=
  [ SocketOpens; FileLoaded 0; TimerFires 0; TimerFires 0 ].

(** From [w] to [w1]: no call of [sendBingoCard], no flag changed, and no
    pending continuation of the drain. *)
Definition Quiet (w w1 : World) : Prop :=
  sendCalls w1 = sendCalls w /\
  SameFlags (bingoCards w) (bingoCards w1) /\
  Forall isSelectBest (timers w1).

(** The same card as far as what is sent of it goes. *)
Definition sameContent (c c' : Card) : Prop :=
  id c' = id c /\ words c' = words c /\ language c' = language c.

Definition isTransmitMore (t : Timer) : bool :=
  match t with
  | TransmitMore _ => true
  | SelectBest _ _ => false
  end.

(** The number of pending continuations of the drain. *)
Definition pendingDrains (w : World) : nat :=
  length (List.filter isTransmitMore (timers w)).

(** The shape of the queue as long as the store is only appended to,
    marked and flagged: the positions handed to [sendBingoCard] are 0, 1,
    2, ... in that order, they are exactly the positions whose card is
    flagged transmitted, the card handed over at a position is the one
    stored there, and at most one continuation of the drain is pending,
    none when no drain is running. *)
Record QueueInv (w : World) : Prop := mkQueueInv {
  qi_order : map fst (sendCalls w) = seq 0 (length (sendCalls w));
  qi_bound : length (sendCalls w) <= length (bingoCards w);
  qi_flags : forall j c, bingoCards w !! j = Some c ->
               (transmitted c = true <-> j < length (sendCalls w));
  qi_cards : forall j call, sendCalls w !! j = Some call ->
               exists c, bingoCards w !! j = Some c /\ sameContent (snd call) c;
  qi_drains : pendingDrains w <= (if isTransmitting w then 1 else 0)
}.

(** ** Vocabulary of the further properties *)

(** Every code unit of [s] satisfies [p]. *)
Fixpoint allChars (p : ascii -> bool) (s : string) : bool :=
  match s with
  | EmptyString => true
  | String c r => p c && allChars p r
  end.

Definition noWhiteSpace (s : string) : Prop :=
  allChars (fun c => negb (JsString.isWhiteSpace c)) s = true.

Definition onlyWhiteSpace (s : string) : Prop :=
  allChars JsString.isWhiteSpace s = true.

(** A token of a card file: not empty, no white space inside. *)
Definition isToken (s : string) : Prop := s <> EmptyString /\ noWhiteSpace s.

(** A card as the file parser makes it. *)
Definition FileCard (c : Card) : Prop :=
  isToken (id c) /\ words c <> [] /\ Forall isToken (words c) /\
  language c = detectLanguage (length (words c)) /\
  transmitted c = false /\ markedWords c = Some [].

(** A card as the manual form makes it: nothing to trim off the id or off
    a word, and no empty word. *)
Definition ManualCard (c : Card) : Prop :=
  id c <> EmptyString /\ JsString.trim (id c) = id c /\
  words c <> [] /\
  Forall (fun x => x <> EmptyString /\ JsString.trim x = x) (words c) /\
  language c = detectLanguage (length (words c)) /\
  transmitted c = false /\ markedWords c = Some [].

(** A card as either way of entering cards makes it. *)
Definition EnteredCard (c : Card) : Prop := FileCard c \/ ManualCard c.

(** Two states that differ at most in hooks outside the store, the queue,
    the selection, the socket and the reads under way. *)
Definition sameCore (w w' : World) : Prop :=
  socketRef w' = socketRef w /\ bingoCards w' = bingoCards w /\
  selectedCardIndex w' = selectedCardIndex w /\
  isTransmitting w' = isTransmitting w /\ timers w' = timers w /\
  wire w' = wire w /\ sendCalls w' = sendCalls w /\ readers w' = readers w.

(** The elementary state changes the handlers are made of, the write of
    [onload] apart: each of them reads the state it changes. *)
Inductive Prim : World -> World -> Prop :=
| P_hook w w' :
    sameCore w w' -> Prim w w'
| P_register w name :
    name <> EmptyString -> socketRef w = None ->
    Prim w (setSocketRef (Some (mkSocket CONNECTING name)) w)
| P_open w name :
    socketRef w = Some (mkSocket CONNECTING name) ->
    Prim w (setWire (wire w ++ [RegisterMsg name])
              (setSocketRef (Some (mkSocket OPEN name)) w))
| P_close w st name :
    socketRef w = Some (mkSocket st name) ->
    Prim w (setSocketRef (Some (mkSocket CLOSED name)) w)
| P_play w :
    socketIsOpen w = true -> Prim w (setWire (wire w ++ [PlayMsg]) w)
| P_add w newCards :
    newCards <> [] -> Forall EnteredCard newCards ->
    Prim w (setBingoCards (bingoCards w ++ newCards) w)
| P_mark w data updated :
    markCards data (bingoCards w) = Some updated ->
    Prim w (setBingoCards updated
              (setTimers (timers w ++ [SelectBest updated (getProp data "language")]) w))
| P_start w :
    isTransmitting w = false -> Prim w (setIsTransmitting true w)
| P_stop w :
    Prim w (setIsTransmitting false w)
| P_transmit w :
    Prim w (transmitNextCard w)
| P_fireSelect w k updated lang :
    timers w !! k = Some (SelectBest updated lang) ->
    Prim w (setSelectedCardIndex (bestCardIndex updated lang)
              (setTimers (delete k (timers w)) w))
| P_fireMore w k updatedCards :
    timers w !! k = Some (TransmitMore updatedCards) ->
    Prim w (setTimers (delete k (timers w)) w)
| P_choose w content :
    Prim w (setReaders (readers w ++ [mkFileReader (bingoCards w) content]) w)
| P_unread w k :
    Prim w (setReaders (delete k (readers w)) w).

(** Sequences of elementary changes. *)
Inductive Prims : World -> World -> Prop :=
| Prims_refl w : Prims w w
| Prims_step w1 w2 w3 : Prim w1 w2 -> Prims w2 w3 -> Prims w1 w3.

(** Every state change there is: an elementary one, or the write of an
    [onload], which installs the store a reader closed over followed by
    the cards of its file. *)
Inductive Change : World -> World -> Prop :=
| Ch_prim w w' :
    Prim w w' -> Change w w'
| Ch_load w reader newCards :
    reader ∈ readers w -> newCards <> [] -> Forall EnteredCard newCards ->
    Change w (setBingoCards (closedOver reader ++ newCards) w).

Inductive Changes : World -> World -> Prop :=
| Changes_refl w : Changes w w
| Changes_step w1 w2 w3 : Change w1 w2 -> Changes w2 w3 -> Changes w1 w3.

(** The read that [ev] completes, if it completes one, closed over the
    store as it still is: nothing was written to the store between the
    choice of the file and the end of the read. *)
Definition freshAt (ev : Event) (w : World) : Prop :=
  match ev with
  | FileLoaded k =>
      match readers w !! k with
      | Some reader => closedOver reader = bingoCards w
      | None => True
      end
  | _ => True
  end.

(** Along the run of [evs] from [w], every read that completes does so
    on the store it closed over. *)
Fixpoint ReadsFresh (evs : list Event) (w : World) : Prop :=
  match evs with
  | [] => True
  | ev :: rest =>
      freshAt ev w /\
      match step ev w with
      | Some w' => ReadsFresh rest w'
      | None => True
      end
  end.

(** The states of the sessions in which no read completes on a store
    that has changed since its file was chosen. *)
Definition reachableFresh (w : World) : Prop :=
  exists evs, ReadsFresh evs initialWorld /\ run evs initialWorld = Some w.

(** What holds of every card in the store of a session. *)
Definition StoredCard (c : Card) : Prop :=
  id c <> EmptyString /\ words c <> [] /\
  Forall (fun x => x <> EmptyString) (words c) /\
  language c = detectLanguage (length (words c)) /\
  exists mw, markedWords c = Some mw /\ NoDup mw /\ forall x, x ∈ mw -> x ∈ words c.

(** The same of the store and of every store a reader closed over. *)
Definition StoreInv (w : World) : Prop :=
  Forall StoredCard (bingoCards w) /\
  Forall (fun reader => Forall StoredCard (closedOver reader)) (readers w).

(** A later version of a stored card: same id, words and language, a
    transmitted flag that was not cleared, and the former marks followed
    by the newer ones. *)
Definition Grown (c c' : Card) : Prop :=
  id c' = id c /\ words c' = words c /\ language c' = language c /\
  (transmitted c = true -> transmitted c' = true) /\
  marked c `prefix_of` marked c'.

(** A later version of a store: later versions of the same cards at the
    same positions, followed by the cards entered since. *)
Definition Extends (cards cards' : list Card) : Prop :=
  exists kept later, cards' = kept ++ later /\ Forall2 Grown cards kept.

(** The selection, and every selection still pending, is for a position
    of the store (or 0). *)
Definition selectionOk (w : World) : Prop :=
  (selectedCardIndex w = 0 \/ selectedCardIndex w < length (bingoCards w)) /\
  Forall (fun t => match t with
                   | SelectBest updated _ => length updated <= length (bingoCards w)
                   | TransmitMore _ => True
                   end) (timers w).

(** [transmittedCount], the counter the status line shows. *)
Definition transmittedCount (w : World) : nat :=
  length (List.filter (fun card => Bool.eqb (transmitted card) true) (bingoCards w)).

(** The message [sendBingoCard] writes for a card. *)
Definition cardMsg (c : Card) : Outbound :=
  BingoCardMsg (id c) (words c) (language c).

Definition isCardMsg (m : Outbound) : bool :=
  match m with
  | BingoCardMsg _ _ _ => true
  | _ => false
  end.

Definition isRegisterMsg (m : Outbound) : bool :=
  match m with
  | RegisterMsg _ => true
  | _ => false
  end.

(** The socket has not opened yet. *)
Definition notYetOpen (w : World) : Prop :=
  socketRef w = None \/ exists name, socketRef w = Some (mkSocket CONNECTING name).

(** What holds of the socket traffic in every state of a session. *)
Record WireInv (w : World) : Prop := mkWireInv {
  wi_silent : notYetOpen w -> wire w = [];
  wi_open : socketIsOpen w = true -> wire w <> [];
  wi_register :
    wire w = [] \/
    exists st name rest,
      socketRef w = Some (mkSocket st name) /\
      wire w = RegisterMsg name :: rest /\
      Forall (fun m => isRegisterMsg m = false) rest;
  wi_cards :
    List.filter isCardMsg (wire w) `sublist_of`
    map (fun call => cardMsg (snd call)) (sendCalls w)
}.


(** A [word_selected] message with ids given as one string. *)
Definition wordSelectedText (word card_ids : string) : JSON :=
  obj [("type", JStr "word_selected"); ("word", JStr word); ("card_ids", JStr card_ids)].


(** The calls of [sendBingoCard] a drain of [cards] is due to make: the
    untransmitted cards with their positions (counted from [k]), in store
    order. *)
Fixpoint pendingFrom (k : nat) (cards : list Card) : list (nat * Card) :=
  match cards with
  | [] => []
  | card :: rest =>
      if transmitted card then pendingFrom (S k) rest
      else (k, card) :: pendingFrom (S k) rest
  end.

Definition pendingCalls (cards : list Card) : list (nat * Card) := pendingFrom 0 cards.

(** From [w] to [w1]: [later] are the calls of [sendBingoCard] made in
    between, [sent] is what was written to the socket in between, and
    the card messages among [sent] stem, in order, from calls among
    [later]. *)
Definition Traffic (w w1 : World) (later : list (nat * Card)) (sent : list Outbound)
  : Prop :=
  sendCalls w1 = sendCalls w ++ later /\ wire w1 = wire w ++ sent /\
  List.filter isCardMsg sent `sublist_of` map (fun call => cardMsg (snd call)) later.



(** ** Further functions of the source *)




Module JsUrl.

(** [s.startsWith(p)] *)
Definition startsWith (s p : string) : bool := String.prefix p s.

Fixpoint dropChars (n : nat) (s : string) : string :=
  match n, s with
  | S m, String _ r => dropChars m r
  | _, _ => s
  end.

(** [s.replace(pat, rep)] for a string pattern: the first occurrence of
    [pat] is replaced; no occurrence, no change. [rep] is taken literally
    (the replacements used in the source contain no [$]). *)
Fixpoint replaceFirst (pat rep s : string) : string :=
  if String.prefix pat s then rep +:+ dropChars (String.length pat) s
  else
    match s with
    | EmptyString => EmptyString
    | String c r => String c (replaceFirst pat rep r)
    end.

End JsUrl.

(** [import.meta.env.VITE_SERVER_URL || "http://localhost:8000"]; the
    variable is a string or undefined. *)
Definition SERVER_URL (env : option string) : string :=
  match env with
  | Some s => if JsString.truthy s then s else "http://localhost:8000"
  | None => "http://localhost:8000"
  end.

(** [getWebSocketUrl(userId)], with what it reads from the module and the
    page as arguments: the build variable, [window.location.protocol] and
    [window.location.host]. *)
Definition getWebSocketUrl (env : option string) (locationProtocol locationHost : string)
    (userId : string) : string :=
  let wsUrl :=
    if JsUrl.startsWith (SERVER_URL env) "http://" then
      JsUrl.replaceFirst "http://" "ws://" (SERVER_URL env)
    else if JsUrl.startsWith (SERVER_URL env) "https://" then
      JsUrl.replaceFirst "https://" "wss://" (SERVER_URL env)
    else
      let protocol := if String.eqb locationProtocol "https:" then "wss:" else "ws:" in
      protocol +:+ "//" +:+
      (if JsString.truthy (SERVER_URL env) then SERVER_URL env else locationHost) in
  wsUrl +:+ "/ws/" +:+ userId.

(** [LANGUAGE_CONFIGS[lang]] for a key of the table. *)
Fixpoint configOf (configs : list (string * LanguageConfig)) (lang : string)
  : option LanguageConfig :=
  match configs with
  | [] => None
  | (key, config) :: rest => if String.eqb key lang then Some config else configOf rest lang
  end.

(** The totals of the declared profiles. *)
Definition declaredTotals : list nat := map (fun p => total (snd p)) LANGUAGE_CONFIGS.

(** [needle] occurs somewhere inside [hay]. *)
Definition occursIn (needle hay : string) : Prop :=
  exists pre post, hay = pre +:+ needle +:+ post.

(** The card parser of the earlier revision of the component
    (src/unnamed/part_000): the same loop, for cards that have an id, words
    and a language only. *)
Module Earlier.

Record Card := mkCard { id : string; words : list string; language : string }.

Definition parseLine (cards : list Card) (line : string) : list Card :=
  let parts := JsString.splitWs (JsString.trim line) in
  if length parts <? 2 then cards
  else
    match parts with
    | [] => cards
    | id0 :: words0 =>
        if length words0 =? 0 then cards
        else cards ++ [mkCard id0 words0 (detectLanguage (length words0))]
    end.

Definition parseTxtFile (content : string) : list Card :=
  let lines :=
    List.filter (fun line => JsString.truthy (JsString.trim line))
                (JsString.splitLines content) in
  if length lines =? 0 then []
  else fold_left parseLine lines [].

End Earlier.

(** What the earlier revision kept of a card. *)
Definition asEarlier (c : Card) : Earlier.Card :=
  Earlier.mkCard (id c) (words c) (language c).

(** * Properties *)

(** ** Language classifier *)

Lemma detectLanguageIn_first (configs : list (string * LanguageConfig)) (n : nat) :
  detectLanguageIn configs n =
  match profilesWithTotal configs n with
  | [] => "spanish"
  | (lang, _) :: _ => lang
  end.
Proof.
  induction configs as [|[lang config] rest IH]; simpl; [reflexivity|].
  destruct (total config =? n); simpl; [reflexivity | exact IH].
Qed.

(** C4. For every word count [n], at most one declared profile has that
    total; [detectLanguage n] is the key of that profile when there is one
    and ["spanish"] when there is none. Over any profile table the loop
    returns the key of the earliest profile with that total. The result is
    always a declared key. (Being a function, [detectLanguage] is total and
    deterministic.) *)
Theorem detectLanguage_classifies (n : nat) :
  ((profilesWithTotal LANGUAGE_CONFIGS n = [] /\ detectLanguage n = "spanish") \/
   (exists lang config,
      profilesWithTotal LANGUAGE_CONFIGS n = [(lang, config)] /\
      detectLanguage n = lang)) /\
  (forall configs,
      detectLanguageIn configs n =
      match profilesWithTotal configs n with
      | [] => "spanish"
      | (lang, _) :: _ => lang
      end) /\
  In (detectLanguage n) (map fst LANGUAGE_CONFIGS).
Proof.
  split; [|split; [intros; apply detectLanguageIn_first|]].
  - unfold detectLanguage, profilesWithTotal, LANGUAGE_CONFIGS.
    cbn -[Nat.eqb].
    destruct (Nat.eqb_spec 24 n) as [<-|H24]; [right; eauto|].
    destruct (Nat.eqb_spec 14 n) as [<-|H14]; [right; eauto|].
    destruct (Nat.eqb_spec 20 n) as [<-|H20]; [right; eauto|].
    destruct (Nat.eqb_spec 10 n) as [<-|H10]; [right; eauto|].
    left; split; reflexivity.
  - unfold detectLanguage, LANGUAGE_CONFIGS. cbn -[Nat.eqb].
    destruct (24 =? n); [tauto|].
    destruct (14 =? n); [tauto|].
    destruct (20 =? n); [tauto|].
    destruct (10 =? n); tauto.
Qed.

Example detectLanguage_24 : detectLanguage 24 = "spanish".
Proof. reflexivity. Qed.

Example detectLanguage_10 : detectLanguage 10 = "dutch".
Proof. reflexivity. Qed.

Example detectLanguage_tie :
  detectLanguageIn [("first", mkConfig 1 3 3); ("second", mkConfig 3 1 3)] 3 = "first".
Proof. reflexivity. Qed.

(** ** Card parser *)

Module ParserFacts.
Import JsString ParserSpec.

Lemma isEmpty_true (s : string) : isEmpty s = true -> s = EmptyString.
Proof. destruct s; [reflexivity | discriminate]. Qed.

Lemma isEmpty_snoc (cur : string) (c : ascii) : isEmpty (snoc cur c) = false.
Proof. destruct cur; reflexivity. Qed.

Lemma tokensFrom_trimEnd (s : string) :
  forall cur, tokensFrom cur (trimEnd s) = tokensFrom cur s.
Proof.
  induction s as [|c r IH]; intros cur; [reflexivity|].
  simpl. destruct (isWhiteSpace c) eqn:Hc; simpl.
  - destruct (isEmpty (trimEnd r)) eqn:He; simpl.
    + rewrite <- (IH EmptyString), (isEmpty_true _ He). simpl.
      destruct (isEmpty cur); reflexivity.
    + rewrite Hc, IH. reflexivity.
  - rewrite Hc. apply IH.
Qed.

Lemma tokens_trimStart (s : string) : tokens (trimStart s) = tokens s.
Proof.
  unfold tokens. induction s as [|c r IH]; [reflexivity|].
  simpl. destruct (isWhiteSpace c) eqn:Hc; [exact IH|].
  simpl. rewrite Hc. reflexivity.
Qed.

Lemma tokens_trim (s : string) : tokens (trim s) = tokens s.
Proof.
  unfold trim. rewrite <- (tokens_trimStart s). apply tokensFrom_trimEnd.
Qed.

Lemma trimEnd_idem (s : string) : trimEnd (trimEnd s) = trimEnd s.
Proof.
  induction s as [|c r IH]; [reflexivity|].
  simpl. destruct (isWhiteSpace c && isEmpty (trimEnd r)) eqn:H; [reflexivity|].
  simpl. rewrite IH, H. reflexivity.
Qed.

Lemma trimStart_head (s : string) (c : ascii) (r : string) :
  trimStart s = String c r -> isWhiteSpace c = false.
Proof.
  induction s as [|c0 r0 IH]; simpl; [discriminate|].
  destruct (isWhiteSpace c0) eqn:H0; [exact IH|].
  intros [= <- <-]. exact H0.
Qed.

Lemma trim_head (s : string) (c : ascii) (r : string) :
  trim s = String c r -> isWhiteSpace c = false.
Proof.
  unfold trim. destruct (trimStart s) as [|c0 r0] eqn:Hs; simpl; [discriminate|].
  pose proof (trimStart_head _ _ _ Hs) as H0. rewrite H0. simpl.
  intros [= <- _]. exact H0.
Qed.

(** On a string without trailing white space the pieces of the split are
    the tokens, as soon as the piece being read is not an empty one. *)
Lemma splitWsFrom_tokens (t : string) :
  trimEnd t = t ->
  (forall cur, isEmpty cur = false -> splitWsFrom false cur t = tokensFrom cur t) /\
  (isEmpty t = false -> splitWsFrom true EmptyString t = tokensFrom EmptyString t).
Proof.
  induction t as [|c r IH]; intros Ht.
  - split; [|discriminate]. intros cur Hcur. simpl. rewrite Hcur. reflexivity.
  - simpl in Ht. destruct (isWhiteSpace c) eqn:Hc; simpl in Ht.
    + destruct (isEmpty (trimEnd r)) eqn:He; [discriminate|].
      injection Ht as Hr. rewrite Hr in He.
      destruct (IH Hr) as [_ IH2]. specialize (IH2 He).
      split.
      * intros cur Hcur. simpl. rewrite Hc, Hcur, IH2. reflexivity.
      * intros _. simpl. rewrite Hc. exact IH2.
    + injection Ht as Hr. destruct (IH Hr) as [IH1 _].
      split.
      * intros cur Hcur. simpl. rewrite Hc. apply IH1, isEmpty_snoc.
      * intros _. simpl. rewrite Hc. apply IH1, isEmpty_snoc.
Qed.

Lemma splitWs_trim_tokens (line : string) :
  truthy (trim line) = true -> splitWs (trim line) = tokens line.
Proof.
  intros Hne. rewrite <- tokens_trim.
  destruct (trim line) as [|c r] eqn:Ht; [discriminate|].
  pose proof (trim_head _ _ _ Ht) as Hc.
  assert (Hend : trimEnd (String c r) = String c r).
  { rewrite <- Ht. apply trimEnd_idem. }
  simpl in Hend. rewrite Hc in Hend. simpl in Hend. injection Hend as Hr.
  destruct (splitWsFrom_tokens r Hr) as [H1 _].
  unfold splitWs, tokens. simpl. rewrite Hc. apply H1, isEmpty_snoc.
Qed.

Lemma blank_no_tokens (line : string) :
  truthy (trim line) = false -> tokens line = [].
Proof.
  intros H. rewrite <- tokens_trim.
  unfold truthy in H. apply negb_false_iff, isEmpty_true in H.
  rewrite H. reflexivity.
Qed.

Lemma parseLine_cardsOfLine (cards : list Card) (line : string) :
  truthy (trim line) = true -> parseLine cards line = cards ++ cardsOfLine line.
Proof.
  intros H. unfold parseLine, cardsOfLine. rewrite (splitWs_trim_tokens _ H).
  destruct (tokens line) as [|id0 [|w ws]]; simpl; rewrite ?app_nil_r; reflexivity.
Qed.

Lemma fold_parseLine (lines : list string) :
  forall cards,
    fold_left parseLine
      (List.filter (fun line => truthy (trim line)) lines) cards =
    cards ++ concat (map cardsOfLine lines).
Proof.
  induction lines as [|line rest IH]; intros cards; simpl.
  - rewrite app_nil_r. reflexivity.
  - destruct (truthy (trim line)) eqn:H; simpl.
    + rewrite IH, (parseLine_cardsOfLine _ _ H), <- app_assoc. reflexivity.
    + rewrite IH. unfold cardsOfLine at 2. rewrite (blank_no_tokens _ H).
      reflexivity.
Qed.

Lemma parseTxtFile_refines (content : string) :
  parseTxtFile content = parse content.
Proof.
  unfold parseTxtFile, parse.
  pose proof (fold_parseLine (splitLines content) []) as H.
  destruct (List.filter _ (splitLines content)) as [|l ls] eqn:Hf.
  - simpl in *. exact H.
  - simpl length. simpl Nat.eqb. cbv iota. exact H.
Qed.

Lemma few_tokens_no_card (lines : list string) :
  Forall (fun line => length (tokens line) < 2) lines ->
  concat (map cardsOfLine lines) = [].
Proof.
  induction 1 as [|line rest Hl _ IH]; simpl; [reflexivity|].
  rewrite IH, app_nil_r. unfold cardsOfLine.
  destruct (tokens line) as [|id0 [|w ws]]; simpl in *; [reflexivity..|lia].
Qed.

End ParserFacts.

(** C5. [parseTxtFile] yields, line by line and in order, one card for
    each line with at least two white-space delimited tokens (id the first
    token, words the rest, not transmitted, nothing marked) and nothing
    for the other lines, blank ones included; the two-line file gives
    exactly cards C1 and C2; a file whose lines all have fewer than two
    tokens gives no card. *)
Theorem parseTxtFile_cards :
  (forall content, parseTxtFile content = ParserSpec.parse content) /\
  parseTxtFile twoCardFile =
    [ mkCard "C1" ["a"; "b"; "c"] (detectLanguage 3) false (Some []);
      mkCard "C2" ["x"; "y"] (detectLanguage 2) false (Some []) ] /\
  (forall content,
      Forall (fun line => length (ParserSpec.tokens line) < 2)
             (JsString.splitLines content) ->
      parseTxtFile content = []).
Proof.
  split; [exact ParserFacts.parseTxtFile_refines|].
  split; [reflexivity|].
  intros content H. rewrite ParserFacts.parseTxtFile_refines.
  apply ParserFacts.few_tokens_no_card, H.
Qed.

Lemma parseTxtFile_cards_witness :
  Forall (fun line => length (ParserSpec.tokens line) < 2)
         (JsString.splitLines singleTokenFile) /\
  parseTxtFile singleTokenFile = [].
Proof.
  assert (H : Forall (fun line => length (ParserSpec.tokens line) < 2)
                     (JsString.splitLines singleTokenFile)).
  { vm_compute. repeat constructor. }
  split; [exact H|].
  exact (proj2 (proj2 parseTxtFile_cards) singleTokenFile H).
Defined.

(** ** The [word_selected] case of the dispatcher *)

Lemma handle_word_selected (data : JSON) (w : World) :
  typeTag data = Some (JStr "word_selected") ->
  handleWebSocketMessage data w =
  Returns
    (match markCards data (bingoCards w) with
     | None => None
     | Some updated =>
         Some (setBingoCards updated
                 (setTimers (timers w ++ [SelectBest updated (getProp data "language")])
                            (setCurrentWord (getProp data "word") w)))
     end).
Proof.
  intros Htag. unfold handleWebSocketMessage.
  destruct data; try discriminate. rewrite Htag. reflexivity.
Qed.

(** ** Best-card selection *)

Lemma forEachCard_firstMaxFrom (lang : option JSON) (cards : list Card) :
  forall index b,
    forEachCard lang cards index b =
    let g := firstMaxFrom anyCard cards index (maxMarked b, bestIndex b) in
    let l := firstMaxFrom (languageIs lang) cards index
               (maxMarkedForLanguage b, bestIndexForLanguage b) in
    mkBest (fst g) (snd g) (fst l) (snd l).
Proof.
  induction cards as [|card rest IH]; intros index b.
  - destruct b; reflexivity.
  - simpl. rewrite IH. unfold visitCard.
    destruct (maxMarked b <? markedCount card);
      destruct (languageIs lang card); simpl;
      try destruct (maxMarkedForLanguage b <? markedCount card); reflexivity.
Qed.

Lemma firstMaxFrom_spec (p : Card -> bool) (cards : list Card) :
  forall index m b,
    (Forall (fun c => p c = true -> markedCount c <= m) cards /\
     firstMaxFrom p cards index (m, b) = (m, b)) \/
    (exists i c,
        cards !! i = Some c /\ p c = true /\ m < markedCount c /\
        firstMaxFrom p cards index (m, b) = (markedCount c, index + i) /\
        forall j c', cards !! j = Some c' -> p c' = true ->
          markedCount c' <= markedCount c /\ (j < i -> markedCount c' < markedCount c)).
Proof.
  induction cards as [|card rest IH]; intros index m b.
  - left. split; [constructor | reflexivity].
  - simpl. destruct (p card && (m <? markedCount card)) eqn:E.
    + apply andb_true_iff in E as [Hp Hm]. apply Nat.ltb_lt in Hm.
      destruct (IH (S index) (markedCount card) index)
        as [[Hall Hr] | (i & c & Hi & Hpc & Hlt & Hr & Hmax)].
      * right. exists 0, card.
        split; [reflexivity|]. split; [exact Hp|]. split; [exact Hm|].
        split; [rewrite Hr; f_equal; lia|].
        intros [|j] c' Hj Hp'; simpl in Hj.
        -- injection Hj as <-. lia.
        -- split; [|lia]. rewrite Forall_forall in Hall.
           apply Hall; [|exact Hp']. apply list_elem_of_lookup. eauto.
      * right. exists (S i), c.
        split; [exact Hi|]. split; [exact Hpc|]. split; [lia|].
        split; [rewrite Hr; f_equal; lia|].
        intros [|j] c' Hj Hp'; simpl in Hj.
        -- injection Hj as <-. lia.
        -- destruct (Hmax j c' Hj Hp') as [Hle Hstrict].
           split; [exact Hle|]. intros Hlt'. apply Hstrict. lia.
    + assert (Hc : p card = true -> markedCount card <= m).
      { intros Hp. rewrite Hp in E. simpl in E. apply Nat.ltb_ge in E. exact E. }
      destruct (IH (S index) m b)
        as [[Hall Hr] | (i & c & Hi & Hpc & Hlt & Hr & Hmax)].
      * left. split; [constructor; assumption | exact Hr].
      * right. exists (S i), c.
        split; [exact Hi|]. split; [exact Hpc|]. split; [exact Hlt|].
        split; [rewrite Hr; f_equal; lia|].
        intros [|j] c' Hj Hp'; simpl in Hj.
        -- injection Hj as <-. specialize (Hc Hp'). lia.
        -- destruct (Hmax j c' Hj Hp') as [Hle Hstrict].
           split; [exact Hle|]. intros Hlt'. apply Hstrict. lia.
Qed.

Lemma bestCardIndex_cases (updated : list Card) (lang : option JSON) :
  (FirstMax (languageIs lang) updated (bestCardIndex updated lang) /\
   exists c, c ∈ updated /\ languageIs lang c = true /\ 0 < markedCount c) \/
  ((forall c, c ∈ updated -> languageIs lang c = true -> markedCount c = 0) /\
   ((FirstMax anyCard updated (bestCardIndex updated lang) /\
     exists c, c ∈ updated /\ 0 < markedCount c) \/
    ((forall c, c ∈ updated -> markedCount c = 0) /\
     bestCardIndex updated lang = 0))).
Proof.
  unfold bestCardIndex. rewrite forEachCard_firstMaxFrom. cbn [maxMarked bestIndex
    maxMarkedForLanguage bestIndexForLanguage fst snd].
  destruct (firstMaxFrom_spec (languageIs lang) updated 0 0 0)
    as [[Hall Hr] | (i & c & Hi & Hpc & Hlt & Hr & Hmax)]; rewrite Hr; simpl.
  - right. split.
    { intros c Hc Hp. rewrite Forall_forall in Hall.
      specialize (Hall c Hc Hp). lia. }
    destruct (firstMaxFrom_spec anyCard updated 0 0 0)
      as [[Hall' Hr'] | (i & c & Hi & Hpc & Hlt & Hr' & Hmax)]; rewrite Hr'; simpl.
    + right. split; [|reflexivity].
      intros c Hc. rewrite Forall_forall in Hall'.
      specialize (Hall' c Hc eq_refl). lia.
    + left. split.
      * exists c. auto.
      * exists c. split; [|assumption]. apply list_elem_of_lookup. eauto.
  - left. destruct (Nat.ltb_spec 0 (markedCount c)) as [_|]; [|lia]. split.
    + exists c. auto.
    + exists c. repeat split; auto. apply list_elem_of_lookup. eauto.
Qed.

(** C1 (amended). The deferred callback of [word_selected] selects, over
    the store as just updated: the first card with the largest marked
    count among the cards whose language is the [language] property of the
    message, when one of those has a marked word; otherwise the first card
    with the largest marked count overall, which is index 0 when nothing is
    marked. With A (es, 2), B (es, 2), C (en, 5) and a message whose
    language is es it selects A; with a message that carries no language
    the restricted choice is never taken and it selects C. *)
Theorem bestCardIndex_selects (updated : list Card) (lang : option JSON) :
  ((exists c, c ∈ updated /\ languageIs lang c = true /\ 0 < markedCount c) ->
   FirstMax (languageIs lang) updated (bestCardIndex updated lang)) /\
  ((forall c, c ∈ updated -> languageIs lang c = true -> markedCount c = 0) ->
   ((exists c, c ∈ updated /\ 0 < markedCount c) ->
    FirstMax anyCard updated (bestCardIndex updated lang)) /\
   ((forall c, c ∈ updated -> markedCount c = 0) ->
    bestCardIndex updated lang = 0)) /\
  (forall data w w',
      typeTag data = Some (JStr "word_selected") ->
      handleWebSocketMessage data w = Returns (Some w') ->
      timers w' = timers w ++ [SelectBest (bingoCards w') (getProp data "language")] /\
      forall w'',
        selectedCardIndex
          (runTimer (SelectBest (bingoCards w') (getProp data "language")) w'') =
        bestCardIndex (bingoCards w') (getProp data "language")) /\
  bestCardIndex [cardA; cardB; cardC] (Some (JStr "es")) = 0 /\
  bestCardIndex [cardA; cardB; cardC] None = 2.
Proof.
  split; [|split; [|split; [|split; reflexivity]]].
  - intros (c & Hc & Hp & Hpos).
    destruct (bestCardIndex_cases updated lang) as [[H _] | [Hnone _]]; [exact H|].
    specialize (Hnone c Hc Hp). lia.
  - intros Hnone.
    destruct (bestCardIndex_cases updated lang)
      as [[_ (c & Hc & Hp & Hpos)] | [_ Hglobal]].
    { specialize (Hnone c Hc Hp). lia. }
    split.
    + intros (c & Hc & Hpos).
      destruct Hglobal as [[H _] | [Hzero _]]; [exact H|].
      specialize (Hzero c Hc). lia.
    + intros Hzero.
      destruct Hglobal as [[_ (c & Hc & Hpos)] | [_ H]]; [|exact H].
      specialize (Hzero c Hc). lia.
  - intros data w w' Htag Hret. rewrite (handle_word_selected _ _ Htag) in Hret.
    destruct (markCards _ _) as [updated0|]; [|discriminate].
    injection Hret as <-. split; reflexivity.
Qed.

Lemma bestCardIndex_selects_witness :
  FirstMax (languageIs (Some (JStr "es"))) [cardA; cardB; cardC]
           (bestCardIndex [cardA; cardB; cardC] (Some (JStr "es"))) /\
  FirstMax anyCard [cardA; cardB; cardC] (bestCardIndex [cardA; cardB; cardC] None) /\
  bestCardIndex [cardD; cardE] (Some (JStr "spanish")) = 0 /\
  exists w',
    handleWebSocketMessage (wordSelectedIn "spanish" "d1" ["D"]) worldDE =
      Returns (Some w') /\
    timers w' = [SelectBest (bingoCards w') (Some (JStr "spanish"))].
Proof.
  assert (HA : cardA ∈ [cardA; cardB; cardC]) by apply list_elem_of_here.
  assert (Hpos : 0 < markedCount cardA) by (unfold cardA, markedCount; simpl; lia).
  split; [|split; [|split]].
  - apply (proj1 (bestCardIndex_selects [cardA; cardB; cardC] (Some (JStr "es")))).
    exists cardA. split; [exact HA|]. split; [reflexivity | exact Hpos].
  - apply (proj1 (proj2 (bestCardIndex_selects [cardA; cardB; cardC] None))).
    + intros c _ Hc. discriminate Hc.
    + exists cardA. split; [exact HA | exact Hpos].
  - apply (proj1 (proj2 (bestCardIndex_selects [cardD; cardE] (Some (JStr "spanish"))))).
    + intros c Hc _. apply list_elem_of_In in Hc.
      destruct Hc as [<-|[<-|[]]]; reflexivity.
    + intros c Hc. apply list_elem_of_In in Hc.
      destruct Hc as [<-|[<-|[]]]; reflexivity.
  - eexists. split; [vm_compute; reflexivity|].
    refine (proj1 (proj1 (proj2 (proj2 (bestCardIndex_selects [] None)))
                     (wordSelectedIn "spanish" "d1" ["D"]) worldDE _ eq_refl _)).
    vm_compute. reflexivity.
Defined.

(** C1 as stated fails. In a session reached from the initial state the
    round language is "spanish", cards A and B are Spanish with two marked
    words each and C is Dutch with five; the selection made after the last
    [word_selected] is C, at index 2, and not the first best Spanish card. *)
Lemma selection_ignores_round_language :
  exists w,
    run spanishRoundSession initialWorld = Some w /\
    currentLanguage w = Some (JStr "spanish") /\
    map (fun c => (id c, language c, markedCount c)) (bingoCards w) =
      [("A", "spanish", 2); ("B", "spanish", 2); ("C", "dutch", 5)] /\
    timers w = [] /\
    selectedCardIndex w = 2 /\
    ~ FirstMax (languageIs (currentLanguage w)) (bingoCards w) (selectedCardIndex w).
Proof.
  eexists. split; [vm_compute; reflexivity|].
  split; [reflexivity|]. split; [reflexivity|]. split; [reflexivity|].
  split; [reflexivity|].
  intros (c & Hc & Hp & _). vm_compute in Hc. injection Hc as <-. discriminate Hp.
Qed.

(** ** Word marking *)

Lemma strIn_spec (w : string) (l : list string) : strIn w l = true <-> w ∈ l.
Proof.
  unfold strIn. rewrite existsb_exists. split.
  - intros (x & Hx & He). apply String.eqb_eq in He. subst x.
    apply list_elem_of_In, Hx.
  - intros H. exists w. split; [apply list_elem_of_In, H | apply String.eqb_refl].
Qed.

Lemma arrayIncludes_spec (ids : list JSON) (s : string) :
  arrayIncludes ids s = true <-> JStr s ∈ ids.
Proof.
  unfold arrayIncludes. rewrite existsb_exists. split.
  - intros (x & Hx & He). destruct x; try discriminate.
    apply String.eqb_eq in He. subst. apply list_elem_of_In, Hx.
  - intros H. exists (JStr s). split; [apply list_elem_of_In, H | apply String.eqb_refl].
Qed.

Lemma mapM_total {A B : Type} (f : A -> option B) (g : A -> B) (l : list A) :
  (forall x, f x = Some (g x)) -> mapM f l = Some (map g l).
Proof.
  intros H. induction l as [|x l IH]; [reflexivity|].
  simpl. rewrite H. simpl. rewrite IH. reflexivity.
Qed.

Lemma markCard_array (data : JSON) (ids : list JSON) (word : string) (c : Card) :
  getProp data "card_ids" = Some (JArr ids) ->
  getProp data "word" = Some (JStr word) ->
  markCard data c = Some (markOne ids word c).
Proof.
  intros Hids Hword. unfold markCard, markOne, cardIdsInclude.
  rewrite Hids, Hword. simpl.
  destruct (arrayIncludes ids (id c)); [|reflexivity].
  destruct (strIn word (words c)); reflexivity.
Qed.

Lemma markCard_no_ids (data : JSON) (c : Card) :
  truthy (getProp data "card_ids") = false -> markCard data c = Some c.
Proof.
  intros H. unfold markCard, cardIdsInclude. rewrite H. reflexivity.
Qed.

Lemma markCards_array (data : JSON) (ids : list JSON) (word : string) (cards : list Card) :
  getProp data "card_ids" = Some (JArr ids) ->
  getProp data "word" = Some (JStr word) ->
  markCards data cards = Some (map (markOne ids word) cards).
Proof.
  intros Hids Hword. apply mapM_total. intros c.
  apply markCard_array; assumption.
Qed.

Lemma markOne_cases (ids : list JSON) (word : string) (c : Card) :
  (Matches ids word c /\ (word ∉ marked c) /\
   markOne ids word c = setMarkedWords c (marked c ++ [word])) \/
  ((~ Matches ids word c \/ word ∈ marked c) /\ markOne ids word c = c).
Proof.
  unfold markOne, Matches.
  destruct (arrayIncludes ids (id c)) eqn:Hi; simpl.
  - apply arrayIncludes_spec in Hi.
    destruct (strIn word (words c)) eqn:Hw; simpl.
    + apply strIn_spec in Hw.
      destruct (strIn word (marked c)) eqn:Hm; simpl.
      * apply strIn_spec in Hm. right. auto.
      * left. split; [auto|]. split; [|reflexivity].
        intros Hin. apply strIn_spec in Hin. congruence.
    + right. split; [|reflexivity]. left. intros [_ Hin].
      apply strIn_spec in Hin. congruence.
  - right. split; [|reflexivity]. left. intros [Hin _].
    apply arrayIncludes_spec in Hin. congruence.
Qed.

Lemma markOne_frame (ids : list JSON) (word : string) (c : Card) :
  MarkedFrom ids word c (markOne ids word c).
Proof.
  unfold MarkedFrom.
  destruct (markOne_cases ids word c) as [(Hm & Hn & ->) | [Hno ->]].
  - repeat split; try reflexivity; intros; tauto.
  - repeat split; try reflexivity. intros Hm Hn. destruct Hno; tauto.
Qed.

Lemma markOne_idem (ids : list JSON) (word : string) (c : Card) :
  markOne ids word (markOne ids word c) = markOne ids word c.
Proof.
  destruct (markOne_cases ids word c) as [(Hm & Hn & E) | [Hno E]]; rewrite E.
  - destruct (markOne_cases ids word (setMarkedWords c (marked c ++ [word])))
      as [(_ & Hn' & _) | [_ E']]; [|exact E'].
    exfalso. apply Hn'. unfold marked at 1. simpl.
    apply elem_of_app. right. apply list_elem_of_here.
  - destruct (markOne_cases ids word c) as [(Hm & Hn & _) | [_ E']]; [|exact E'].
    destruct Hno; tauto.
Qed.

Lemma strIn_snoc (w : string) (l : list string) : strIn w (l ++ [w]) = true.
Proof. apply strIn_spec, elem_of_app. right. apply list_elem_of_here. Qed.

(** Whatever the payload, a card that came out of [markCard] comes out of
    it unchanged the next time. *)
Lemma markCard_idem (data : JSON) (c c' : Card) :
  markCard data c = Some c' -> markCard data c' = Some c'.
Proof.
  unfold markCard.
  destruct (cardIdsInclude (getProp data "card_ids") (id c)) as [[|]|] eqn:Hin;
    [| |discriminate].
  - destruct (getProp data "word") as [[| | |word| |]|];
      try (intros [= <-]; rewrite Hin; reflexivity).
    destruct (strIn word (words c)) eqn:Hw;
      [destruct (strIn word (marked c)) eqn:Hm|]; simpl; intros [= <-].
    + rewrite Hin, Hw, Hm. reflexivity.
    + cbn [id words setMarkedWords]. rewrite Hin, Hw.
      replace (marked (setMarkedWords c (marked c ++ [word])))
        with (marked c ++ [word]) by reflexivity.
      rewrite strIn_snoc. reflexivity.
    + rewrite Hin, Hw. reflexivity.
  - intros [= <-]. rewrite Hin. reflexivity.
Qed.

Lemma markCards_idem (data : JSON) (cards cards' : list Card) :
  markCards data cards = Some cards' -> markCards data cards' = Some cards'.
Proof.
  unfold markCards. rewrite !mapM_Some. intros H.
  induction H as [|c c' l k Hc _ IH]; constructor; [|exact IH].
  apply (markCard_idem _ _ _ Hc).
Qed.

(** Any [word_selected] message that is handled once is handled a second
    time with the same store as a result. *)
Lemma word_selected_twice (data : JSON) (w w1 : World) :
  typeTag data = Some (JStr "word_selected") ->
  handleWebSocketMessage data w = Returns (Some w1) ->
  exists w2,
    handleWebSocketMessage data w1 = Returns (Some w2) /\
    bingoCards w2 = bingoCards w1.
Proof.
  intros Htag. rewrite !(handle_word_selected _ _ Htag).
  destruct (markCards data (bingoCards w)) as [updated|] eqn:Hm; [|discriminate].
  intros [= <-]. cbn [bingoCards setBingoCards].
  rewrite (markCards_idem _ _ _ Hm). eexists. split; reflexivity.
Qed.

(** C6. A [word_selected] with word [word] and card ids [ids] returns; in
    the store it leaves, every card named by [ids] whose words contain
    [word] has [word] marked, every other card has its [markedWords] as
    before, the number of occurrences of [word] in a card's marks never
    grows beyond one (or what it was), and duplicate-free marks stay so;
    handling the same message again leaves the store as it is. *)
Theorem word_selected_marks_once (data : JSON) (ids : list JSON) (word : string)
    (w : World) :
  typeTag data = Some (JStr "word_selected") ->
  getProp data "card_ids" = Some (JArr ids) ->
  getProp data "word" = Some (JStr word) ->
  exists w1 w2,
    handleWebSocketMessage data w = Returns (Some w1) /\
    handleWebSocketMessage data w1 = Returns (Some w2) /\
    Forall2 (fun c c' =>
               (Matches ids word c -> word ∈ marked c') /\
               (~ Matches ids word c -> markedWords c' = markedWords c) /\
               (forall x, x ∈ marked c' <-> (x ∈ marked c \/ (x = word /\ Matches ids word c))) /\
               (word ∈ marked c -> markedWords c' = markedWords c) /\
               (NoDup (marked c) -> NoDup (marked c')))
            (bingoCards w) (bingoCards w1) /\
    bingoCards w2 = bingoCards w1.
Proof.
  intros Htag Hids Hword.
  pose proof (handle_word_selected data w Htag) as H1.
  rewrite (markCards_array _ _ _ _ Hids Hword) in H1.
  eexists. eexists. split; [exact H1|].
  rewrite (handle_word_selected _ _ Htag). cbn [bingoCards setBingoCards].
  rewrite (markCards_array _ _ _ _ Hids Hword).
  split; [reflexivity|]. cbn [bingoCards setBingoCards]. split.
  - apply Forall2_fmap_r, Forall_Forall2_diag, Forall_forall. intros c _.
    unfold compose.
    destruct (markOne_cases ids word c) as [(Hm & Hn & ->) | [Hno ->]].
    + assert (Hset : marked (setMarkedWords c (marked c ++ [word])) = marked c ++ [word])
        by reflexivity.
      rewrite Hset.
      split; [intros _; apply elem_of_app; right; apply list_elem_of_here|].
      split; [tauto|].
      split; [intros x; rewrite elem_of_app, list_elem_of_singleton; tauto|].
      split; [tauto|].
      intros Hnd. apply NoDup_app. split; [exact Hnd|]. split.
      * intros x Hx Hx'. apply list_elem_of_singleton in Hx'. subst. tauto.
      * apply NoDup_singleton.
    + split; [intros Hm; destruct Hno; tauto|].
      split; [reflexivity|].
      split; [|split; [reflexivity | tauto]].
      intros x. split; [tauto|].
      intros [Hx|[-> Hm]]; [exact Hx|]. destruct Hno; tauto.
  - rewrite <- list_fmap_compose. apply list_fmap_ext. intros _ c _.
    apply markOne_idem.
Qed.

Lemma word_selected_marks_once_witness :
  exists w1 w2,
    handleWebSocketMessage (wordSelected "d1" ["D"]) worldDE = Returns (Some w1) /\
    handleWebSocketMessage (wordSelected "d1" ["D"]) w1 = Returns (Some w2) /\
    map markedWords (bingoCards w1) = [Some ["d1"]; None] /\
    bingoCards w2 = bingoCards w1.
Proof.
  destruct (word_selected_marks_once (wordSelected "d1" ["D"]) [JStr "D"] "d1" worldDE
              eq_refl eq_refl eq_refl) as (w1 & w2 & H1 & H2 & _ & H4).
  exists w1, w2. split; [exact H1|]. split; [exact H2|]. split; [|exact H4].
  vm_compute in H1. injection H1 as <-. reflexivity.
Defined.

(** C9. A [word_selected] with word [word] and card ids [ids] keeps the
    length and the order of the store and, card by card, the fields [id],
    [words], [language] and [transmitted]; a card that is not named by
    [ids] or does not contain [word] is the same card afterwards, and so is
    a card on which [word] is already marked; any other card differs only
    in [markedWords], which is the former list with [word] added at the
    end. *)
Theorem word_selected_frame (data : JSON) (ids : list JSON) (word : string)
    (w : World) :
  typeTag data = Some (JStr "word_selected") ->
  getProp data "card_ids" = Some (JArr ids) ->
  getProp data "word" = Some (JStr word) ->
  exists w',
    handleWebSocketMessage data w = Returns (Some w') /\
    length (bingoCards w') = length (bingoCards w) /\
    Forall2 (MarkedFrom ids word) (bingoCards w) (bingoCards w').
Proof.
  intros Htag Hids Hword.
  eexists. rewrite (handle_word_selected _ _ Htag).
  rewrite (markCards_array _ _ _ _ Hids Hword).
  split; [reflexivity|]. cbn [bingoCards setBingoCards]. split.
  - apply length_fmap.
  - apply Forall2_fmap_r, Forall_Forall2_diag, Forall_forall. intros c _.
    apply markOne_frame.
Qed.

Lemma word_selected_frame_witness :
  exists w',
    handleWebSocketMessage (wordSelected "d1" ["D"; "E"]) worldDE = Returns (Some w') /\
    length (bingoCards w') = 2 /\
    Forall2 (MarkedFrom [JStr "D"; JStr "E"] "d1") [cardD; cardE] (bingoCards w').
Proof.
  exact (word_selected_frame (wordSelected "d1" ["D"; "E"]) [JStr "D"; JStr "E"] "d1"
           worldDE eq_refl eq_refl eq_refl).
Defined.

(** C10. A [word_selected] whose [card_ids] is absent or null is handled
    without a throw or a lost render: [currentWord] becomes the message's
    [word] and the store, so every card's [markedWords], is unchanged. *)
Theorem word_selected_without_ids (data : JSON) (w : World) :
  typeTag data = Some (JStr "word_selected") ->
  getProp data "card_ids" = None \/ getProp data "card_ids" = Some JNull ->
  exists w',
    handleWebSocketMessage data w = Returns (Some w') /\
    onmessage (Some data) w = Some w' /\
    currentWord w' = getProp data "word" /\
    bingoCards w' = bingoCards w /\
    console w' = console w.
Proof.
  intros Htag Hids.
  assert (Hf : truthy (getProp data "card_ids") = false).
  { destruct Hids as [-> | ->]; reflexivity. }
  assert (Hm : markCards data (bingoCards w) = Some (bingoCards w)).
  { unfold markCards. rewrite (mapM_total _ (fun c => c)).
    - rewrite map_id. reflexivity.
    - intros c. apply markCard_no_ids, Hf. }
  eexists. unfold onmessage. rewrite (handle_word_selected _ _ Htag), Hm.
  repeat split; reflexivity.
Qed.

Lemma word_selected_without_ids_witness :
  exists w',
    handleWebSocketMessage (wordSelectedNoIds "d1") worldDE = Returns (Some w') /\
    onmessage (Some (wordSelectedNoIds "d1")) worldDE = Some w' /\
    currentWord w' = Some (JStr "d1") /\
    bingoCards w' = [cardD; cardE] /\
    console w' = [].
Proof.
  exact (word_selected_without_ids (wordSelectedNoIds "d1") worldDE eq_refl
           (or_introl eq_refl)).
Defined.

(** ** Dispatcher *)

Lemma handle_unknown_tag (data : JSON) (w : World) :
  data <> JNull ->
  (forall tag, typeTag data = Some (JStr tag) -> tag ∉ knownTags) ->
  handleWebSocketMessage data w = Returns (Some w).
Proof.
  intros Hnull Htag. unfold handleWebSocketMessage.
  destruct data as [| | | | |fields]; try reflexivity; [congruence|].
  destruct (typeTag (JObj fields)) as [[| | |tag| |]|] eqn:E; try reflexivity.
  specialize (Htag tag eq_refl). unfold knownTags in Htag.
  repeat (match goal with
          | |- context [String.eqb tag ?s] =>
              destruct (String.eqb_spec tag s) as [->|_];
              [exfalso; apply Htag, list_elem_of_In; simpl; tauto|]
          end).
  reflexivity.
Qed.

(** C8. A frame that does not decode is caught: the only effect is one
    console line, and the step goes on. So is the decoded value [null],
    whose [type] cannot be read. A decoded message whose [type] is none of
    the six case labels (or is absent, or is not a string) changes nothing
    at all. In each case the dispatcher returns a state. *)
Theorem dispatcher_robust (w : World) :
  (onmessage None w = Some (logged w) /\
   step (Message None) w = Some (logged w) /\
   onmessage (Some JNull) w = Some (logged w) /\
   bingoCards (logged w) = bingoCards w /\
   currentWord (logged w) = currentWord w /\
   currentLanguage (logged w) = currentLanguage w /\
   gameStarted (logged w) = gameStarted w /\
   roundResults (logged w) = roundResults w /\
   winners (logged w) = winners w /\
   playerCount (logged w) = playerCount w /\
   selectedCardIndex (logged w) = selectedCardIndex w /\
   timers (logged w) = timers w /\
   wire (logged w) = wire w /\
   console (logged w) = console w ++ [parseErrorLine]) /\
  (forall data,
      data <> JNull ->
      (forall tag, typeTag data = Some (JStr tag) -> tag ∉ knownTags) ->
      handleWebSocketMessage data w = Returns (Some w) /\
      onmessage (Some data) w = Some w /\
      step (Message (Some data)) w = Some w).
Proof.
  split.
  - assert (Hstep : step (Message None) w = Some (logged w)).
    { unfold step, handle, onmessage, afterRender. fold (logged w).
      cbn [bingoCards logged setConsole]. rewrite Nat.eqb_refl. reflexivity. }
    repeat split; try reflexivity. exact Hstep.
  - intros data Hnull Htag.
    pose proof (handle_unknown_tag data w Hnull Htag) as H.
    split; [exact H|].
    unfold step, handle, onmessage, afterRender. rewrite H.
    rewrite Nat.eqb_refl. split; reflexivity.
Qed.

Lemma dispatcher_robust_witness :
  handleWebSocketMessage chatMessage worldDE = Returns (Some worldDE) /\
  onmessage (Some chatMessage) worldDE = Some worldDE /\
  step (Message (Some chatMessage)) worldDE = Some worldDE.
Proof.
  apply (proj2 (dispatcher_robust worldDE) chatMessage).
  - discriminate.
  - intros tag [= <-] Hin. apply list_elem_of_In in Hin. simpl in Hin.
    intuition discriminate.
Defined.

(** ** End of game *)

Lemma handle_game_end (data : JSON) (w : World) :
  typeTag data = Some (JStr "game_end") ->
  handleWebSocketMessage data w =
  Returns (Some (setShowRoundModal false
                   (setShowWinnersModal true (setWinners (getProp data "winners") w)))).
Proof.
  intros Htag. unfold handleWebSocketMessage.
  destruct data; try discriminate. rewrite Htag. reflexivity.
Qed.

Lemma handle_round_end (data : JSON) (w : World) :
  typeTag data = Some (JStr "round_end") ->
  handleWebSocketMessage data w =
  Returns (Some (setShowRoundModal true
                   (setRoundResults
                      (mkRoundResults (orEmptyArray (getProp data "winners"))
                                      (getProp data "language"))
                      (setCurrentWord (Some (JStr "")) w)))).
Proof.
  intros Htag. unfold handleWebSocketMessage.
  destruct data; try discriminate. rewrite Htag. reflexivity.
Qed.

(** C3 (amended). From any state, a [game_end] message is handled without
    a throw; afterwards the message's winners are stored, the winners
    display is on and the round-result display is off; [currentWord] and
    the card store are what they were before the message. In particular
    [currentWord] is empty afterwards when it was empty before, as it is
    when the message before was a [round_end]. *)
Theorem game_end_effect (data : JSON) (w : World) :
  typeTag data = Some (JStr "game_end") ->
  exists w',
    handleWebSocketMessage data w = Returns (Some w') /\
    step (Message (Some data)) w = Some w' /\
    winners w' = getProp data "winners" /\
    showWinnersModal w' = true /\
    showRoundModal w' = false /\
    currentWord w' = currentWord w /\
    bingoCards w' = bingoCards w /\
    (currentWord w = Some (JStr "") -> currentWord w' = Some (JStr "")) /\
    (forall ended w0,
        typeTag ended = Some (JStr "round_end") ->
        handleWebSocketMessage ended w0 = Returns (Some w) ->
        currentWord w' = Some (JStr "")).
Proof.
  intros Htag. eexists. split; [apply (handle_game_end _ _ Htag)|].
  split.
  { unfold step, handle, onmessage, afterRender.
    rewrite (handle_game_end _ _ Htag).
    cbn [bingoCards setShowRoundModal setShowWinnersModal setWinners].
    rewrite Nat.eqb_refl. reflexivity. }
  repeat split; try reflexivity.
  - intros H. exact H.
  - intros ended w0 Hend Hret. rewrite (handle_round_end _ _ Hend) in Hret.
    injection Hret as <-. reflexivity.
Qed.

Lemma game_end_effect_witness :
  exists w',
    handleWebSocketMessage (gameEnd ["Ana"; "Luis"]) worldDE = Returns (Some w') /\
    winners w' = Some (JArr [JStr "Ana"; JStr "Luis"]) /\
    showWinnersModal w' = true /\
    showRoundModal w' = false /\
    currentWord w' = Some (JStr "") /\
    bingoCards w' = [cardD; cardE].
Proof.
  destruct (game_end_effect (gameEnd ["Ana"; "Luis"]) worldDE eq_refl)
    as (w' & H1 & _ & H3 & H4 & H5 & H6 & H7 & _).
  exists w'. repeat split; assumption.
Defined.

(** The usual end of a game: the last round ends, then the game. *)
Example game_end_after_round_end :
  exists w,
    run [ Message (Some (wordSelected "casa" []));
          Message (Some (roundEnd "spanish"));
          Message (Some (gameEnd ["Ana"])) ] initialWorld = Some w /\
    currentWord w = Some (JStr "") /\
    showRoundModal w = false /\
    showWinnersModal w = true.
Proof. eexists. split; [vm_compute; reflexivity|]. repeat split; reflexivity. Qed.

(** C3 as stated fails. From the initial state, a word is called and the
    game then ends: the winners are stored and the round display is off,
    but [currentWord] is still the called word, not the empty string. *)
Lemma game_end_leaves_called_word :
  exists w,
    run abruptEndSession initialWorld = Some w /\
    reachable w /\
    winners w = Some (JArr [JStr "Ana"]) /\
    showRoundModal w = false /\
    currentWord w = Some (JStr "casa") /\
    currentWord w <> Some (JStr "").
Proof.
  eexists. split; [vm_compute; reflexivity|].
  split; [exists abruptEndSession; vm_compute; reflexivity|].
  repeat split; try reflexivity. discriminate.
Qed.

(** ** Transmission queue *)

Lemma Progress_same (w w1 : World) :
  bingoCards w1 = bingoCards w -> sendCalls w1 = sendCalls w -> Progress w w1.
Proof.
  intros Hc Hs. split.
  - intros j (c & Hj & Ht). exists c. rewrite Hc. auto.
  - exists []. rewrite Hs, app_nil_r. split; [reflexivity|].
    intros j c Hin. inversion Hin.
Qed.

Lemma Progress_trans (w1 w2 w3 : World) :
  Progress w1 w2 -> Progress w2 w3 -> Progress w1 w3.
Proof.
  intros [H12 (e1 & Hs1 & He1)] [H23 (e2 & Hs2 & He2)]. split.
  - intros j Hj. apply H23, H12, Hj.
  - exists (e1 ++ e2). rewrite Hs2, Hs1, app_assoc. split; [reflexivity|].
    intros j c Hin Hsent. apply elem_of_app in Hin as [Hin|Hin].
    + apply (He1 j c Hin Hsent).
    + apply (He2 j c Hin), H12, Hsent.
Qed.

Lemma sendCalls_sendBingoCard (i : nat) (card : Card) (w : World) :
  sendCalls (sendBingoCard i card w) = sendCalls w ++ [(i, card)].
Proof. unfold sendBingoCard. destruct (socketIsOpen _); reflexivity. Qed.

Lemma bingoCards_sendBingoCard (i : nat) (card : Card) (w : World) :
  bingoCards (sendBingoCard i card w) = bingoCards w.
Proof. unfold sendBingoCard. destruct (socketIsOpen _); reflexivity. Qed.

Lemma timers_sendBingoCard (i : nat) (card : Card) (w : World) :
  timers (sendBingoCard i card w) = timers w.
Proof. unfold sendBingoCard. destruct (socketIsOpen _); reflexivity. Qed.

Lemma wire_sendBingoCard_closed (i : nat) (card : Card) (w : World) :
  socketIsOpen w = false -> wire (sendBingoCard i card w) = wire w.
Proof.
  intros H. unfold sendBingoCard.
  replace (socketIsOpen (setSendCalls (sendCalls w ++ [(i, card)]) w))
    with (socketIsOpen w) by reflexivity.
  rewrite H. reflexivity.
Qed.

Lemma Progress_transmitNextCard (w : World) : Progress w (transmitNextCard w).
Proof.
  unfold transmitNextCard.
  destruct (list_find untransmitted (bingoCards w)) as [[i card]|] eqn:Hf;
    [|apply Progress_same; reflexivity].
  apply list_find_Some in Hf as (Hi & Hun & _). split.
  - intros j (c & Hj & Ht). unfold sentAt. cbn [bingoCards setBingoCards].
    rewrite list_lookup_imap, Hj. simpl.
    eexists. split; [reflexivity|]. destruct (j =? i); [reflexivity | exact Ht].
  - exists [(i, card)]. cbn [sendCalls setBingoCards setTimers].
    rewrite sendCalls_sendBingoCard. split; [reflexivity|].
    intros j c Hin (c0 & Hj & Ht).
    apply list_elem_of_singleton in Hin. injection Hin as -> ->.
    rewrite Hi in Hj. injection Hj as <-. unfold untransmitted in Hun. congruence.
Qed.

Lemma Progress_lengthEffect (w : World) : Progress w (lengthEffect w).
Proof.
  unfold lengthEffect.
  destruct (length (bingoCards w) =? 0); [apply Progress_same; reflexivity|].
  destruct (hasUntransmitted (bingoCards w) && negb (isTransmitting w));
    [|apply Progress_same; reflexivity].
  apply (Progress_trans _ (setIsTransmitting true w));
    [apply Progress_same; reflexivity | apply Progress_transmitNextCard].
Qed.

Lemma Progress_afterRender (w0 w : World) : Progress w (afterRender w0 w).
Proof.
  unfold afterRender. destruct (_ =? _);
    [apply Progress_same; reflexivity | apply Progress_lengthEffect].
Qed.

Lemma Progress_append (w : World) (newCards : list Card) :
  Progress w (setBingoCards (bingoCards w ++ newCards) w).
Proof.
  split.
  - intros j (c & Hj & Ht). exists c. cbn [bingoCards setBingoCards].
    split; [|exact Ht]. rewrite lookup_app_l; [exact Hj|].
    apply lookup_lt_Some in Hj. exact Hj.
  - exists []. cbn [sendCalls setBingoCards]. rewrite app_nil_r.
    split; [reflexivity|]. intros j c Hin. inversion Hin.
Qed.

Lemma markCard_keeps (data : JSON) (c c' : Card) :
  markCard data c = Some c' ->
  id c' = id c /\ words c' = words c /\ language c' = language c /\
  transmitted c' = transmitted c.
Proof.
  unfold markCard. destruct (cardIdsInclude _ _) as [[|]|]; [| |discriminate].
  - destruct (getProp data "word") as [[| | |word| |]|];
      try (intros [= <-]; repeat split; reflexivity).
    destruct (strIn word (words c));
      [destruct (negb (strIn word (marked c)))|];
      intros [= <-]; repeat split; reflexivity.
  - intros [= <-]. repeat split; reflexivity.
Qed.

Lemma markCards_keeps (data : JSON) (cards cards' : list Card) :
  markCards data cards = Some cards' -> SameFlags cards cards'.
Proof.
  unfold markCards. rewrite mapM_Some. intros H.
  eapply Forall2_impl; [exact H|]. intros c c' Hm.
  apply (markCard_keeps _ _ _ Hm).
Qed.

Lemma Progress_marked (w w1 : World) :
  SameFlags (bingoCards w) (bingoCards w1) ->
  sendCalls w1 = sendCalls w -> Progress w w1.
Proof.
  intros HF Hs. split.
  - intros j (c & Hj & Ht).
    destruct (Forall2_lookup_l _ _ _ _ _ HF Hj) as (c' & Hj' & _ & _ & _ & Ht').
    exists c'. split; [exact Hj' | congruence].
  - exists []. rewrite Hs, app_nil_r. split; [reflexivity|].
    intros j c Hin. inversion Hin.
Qed.

Lemma Progress_handleWebSocketMessage (data : JSON) (w w' : World) :
  handleWebSocketMessage data w = Returns (Some w') -> Progress w w'.
Proof.
  unfold handleWebSocketMessage.
  destruct data as [| | | | |fields]; try discriminate;
    try (intros [= <-]; apply Progress_same; reflexivity).
  destruct (typeTag (JObj fields)) as [[| | |tag| |]|];
    try (intros [= <-]; apply Progress_same; reflexivity).
  repeat (match goal with
          | |- context [String.eqb tag ?s] => destruct (String.eqb tag s)
          end;
          try (intros [= <-]; apply Progress_same; reflexivity)).
  cbn [bingoCards setCurrentWord timers].
  destruct (markCards _ _) as [updated|] eqn:Hm; [|discriminate].
  intros [= <-]. apply Progress_marked; [|reflexivity].
  cbn [bingoCards setBingoCards]. apply (markCards_keeps _ _ _ Hm).
Qed.

Lemma Progress_runTimer (t : Timer) (w : World) : Progress w (runTimer t w).
Proof.
  destruct t as [updated lang | updatedCards]; simpl.
  - apply Progress_same; reflexivity.
  - destruct (hasUntransmitted updatedCards);
      [apply Progress_transmitNextCard | apply Progress_same; reflexivity].
Qed.

Lemma Progress_handle (ev : Event) (w w' : World) :
  freshAt ev w -> handle ev w = Some w' -> Progress w w'.
Proof.
  intros Hfresh.
  destruct ev as [name| | |parsed|content|k|cardId input| |k]; simpl in *.
  - intros [= <-]. unfold registerUser.
    destruct (negb _); [apply Progress_same; reflexivity|].
    destruct (socketRef w); apply Progress_same; reflexivity.
  - intros [= <-]. unfold onopen.
    destruct (socketRef w) as [[[] name]|]; apply Progress_same; reflexivity.
  - intros [= <-]. unfold onclose.
    destruct (socketRef w) as [[rs name]|]; apply Progress_same; reflexivity.
  - unfold onmessage. destruct parsed as [data|].
    + destruct (handleWebSocketMessage data w) as [r|] eqn:Hh.
      * intros ->. apply (Progress_handleWebSocketMessage _ _ _ Hh).
      * intros [= <-]. apply Progress_same; reflexivity.
    + intros [= <-]. apply Progress_same; reflexivity.
  - intros [= <-]. apply Progress_same; reflexivity.
  - destruct (readers w !! k) as [reader|]; intros [= <-];
      [|apply Progress_same; reflexivity].
    apply (Progress_trans _ (onload reader w)); [|apply Progress_same; reflexivity].
    unfold onload. rewrite Hfresh.
    destruct (0 <? _); [apply Progress_append | apply Progress_same; reflexivity].
  - intros [= <-]. unfold handleManualSubmit.
    destruct (_ || _); [apply Progress_same; reflexivity|].
    destruct (_ =? 0); [apply Progress_same; reflexivity | apply Progress_append].
  - intros [= <-]. unfold handlePlay.
    destruct (socketIsOpen w); apply Progress_same; reflexivity.
  - destruct (timers w !! k) as [t|]; intros [= <-];
      [|apply Progress_same; reflexivity].
    apply (Progress_trans _ (setTimers (delete k (timers w)) w));
      [apply Progress_same; reflexivity | apply Progress_runTimer].
Qed.

Lemma Progress_step (ev : Event) (w w' : World) :
  freshAt ev w -> step ev w = Some w' -> Progress w w'.
Proof.
  intros Hfresh. unfold step. destruct (handle ev w) as [w1|] eqn:Hh; [|discriminate].
  intros [= <-]. apply (Progress_trans _ w1);
    [apply (Progress_handle _ _ _ Hfresh Hh) | apply Progress_afterRender].
Qed.

Lemma Progress_run (evs : list Event) :
  forall w w', ReadsFresh evs w -> run evs w = Some w' -> Progress w w'.
Proof.
  induction evs as [|ev rest IH]; intros w w'; simpl.
  - intros _ [= <-]. apply Progress_same; reflexivity.
  - intros [Hfresh Hrest]. destruct (step ev w) as [w1|] eqn:Hs; [|discriminate].
    intros Hr. apply (Progress_trans _ w1);
      [apply (Progress_step _ _ _ Hfresh Hs) | apply (IH _ _ Hrest Hr)].
Qed.

(** C7 at a failing input. Cards A and B are loaded while the socket is
    still connecting and a second file is chosen during the pacing delay
    after A. Both sends are attempted with the socket not open: nothing is
    written to the socket or the console and both cards are flagged
    transmitted. Then the socket opens and the read of the second file
    completes: its [onload] installs the store it closed over, in which B
    was not yet flagged, and the queue hands B to [sendBingoCard] a second
    time. This time B is written to the socket. *)
Theorem dropped_card_is_sent_again :
  exists w0 w,
    run droppedSendSession initialWorld = Some w0 /\
    socketIsOpen w0 = false /\
    map (fun call => (fst call, id (snd call))) (sendCalls w0) = [(0, "A"); (1, "B")] /\
    map transmitted (bingoCards w0) = [true; true] /\
    wire w0 = [] /\ console w0 = [] /\
    timers w0 = [] /\ isTransmitting w0 = false /\
    run lateReadSession w0 = Some w /\
    map (fun call => (fst call, id (snd call))) (sendCalls w) =
      [(0, "A"); (1, "B"); (1, "B"); (2, "C")] /\
    wire w = [ RegisterMsg "Ana"; BingoCardMsg "B" ["dos"] "spanish";
               BingoCardMsg "C" ["tres"] "spanish" ] /\
    map transmitted (bingoCards w) = [true; true; true] /\
    console w = [].
Proof.
  eexists. eexists. split; [vm_compute; reflexivity|].
  do 7 (split; [reflexivity|]).
  split; [vm_compute; reflexivity|]. repeat split; reflexivity.
Qed.

(** The step at which the flag of B is cleared: the store that the
    completed read installs is the one of the render in which its file was
    chosen, followed by the new card. *)
Example stale_read_clears_flag :
  exists w0 w1 w2,
    run droppedSendSession initialWorld = Some w0 /\
    step SocketOpens w0 = Some w1 /\
    handle (FileLoaded 0) w1 = Some w2 /\
    map transmitted (bingoCards w1) = [true; true] /\
    map (fun c => (id c, transmitted c)) (bingoCards w2) =
      [("A", true); ("B", false); ("C", false)].
Proof.
  eexists. eexists. eexists. split; [vm_compute; reflexivity|].
  split; [vm_compute; reflexivity|]. split; [vm_compute; reflexivity|].
  split; reflexivity.
Qed.

(** A card entered before the socket has opened is marked transmitted
    although nothing reached the socket. *)
Example early_card_marked_not_sent :
  exists w,
    run earlyCardSession initialWorld = Some w /\
    map transmitted (bingoCards w) = [true] /\
    length (sendCalls w) = 1 /\
    wire w = [].
Proof. eexists. split; [vm_compute; reflexivity|]. repeat split; reflexivity. Qed.

Lemma SameFlags_refl (cards : list Card) : SameFlags cards cards.
Proof.
  apply Forall_Forall2_diag, Forall_forall. intros c _. repeat split; reflexivity.
Qed.

Lemma SameFlags_trans (c1 c2 c3 : list Card) :
  SameFlags c1 c2 -> SameFlags c2 c3 -> SameFlags c1 c3.
Proof.
  unfold SameFlags. intros H12 H23.
  eapply Forall2_trans; [|exact H12|exact H23].
  intros x y z (? & ? & ? & ?) (? & ? & ? & ?). repeat split; congruence.
Qed.

Lemma Quiet_same (w w1 : World) :
  Forall isSelectBest (timers w) ->
  sendCalls w1 = sendCalls w -> bingoCards w1 = bingoCards w -> timers w1 = timers w ->
  Quiet w w1.
Proof.
  intros HT Hs Hc Ht. unfold Quiet. rewrite Hs, Hc, Ht.
  split; [reflexivity|]. split; [apply SameFlags_refl | exact HT].
Qed.

Lemma Quiet_handleWebSocketMessage (data : JSON) (w w' : World) :
  Forall isSelectBest (timers w) ->
  handleWebSocketMessage data w = Returns (Some w') -> Quiet w w'.
Proof.
  intros HT. unfold handleWebSocketMessage.
  destruct data as [| | | | |fields]; try discriminate;
    try (intros [= <-]; apply Quiet_same; auto).
  destruct (typeTag (JObj fields)) as [[| | |tag| |]|];
    try (intros [= <-]; apply Quiet_same; auto).
  repeat (match goal with
          | |- context [String.eqb tag ?s] => destruct (String.eqb tag s)
          end;
          try (intros [= <-]; apply Quiet_same; auto)).
  cbn [bingoCards setCurrentWord timers].
  destruct (markCards _ _) as [updated|] eqn:Hm; [|discriminate].
  intros [= <-]. split; [reflexivity|]. split.
  - cbn [bingoCards setBingoCards]. apply (markCards_keeps _ _ _ Hm).
  - cbn [timers setBingoCards setTimers]. apply Forall_app. split; [exact HT|].
    repeat constructor.
Qed.

Lemma Quiet_handle (ev : Event) (w w' : World) :
  addsNoCard ev -> Forall isSelectBest (timers w) ->
  handle ev w = Some w' -> Quiet w w'.
Proof.
  intros Hev HT.
  destruct ev as [name| | |parsed|content|k|cardId input| |k]; simpl in *;
    try contradiction.
  - intros [= <-]. unfold registerUser.
    destruct (negb _); [apply Quiet_same; auto|].
    destruct (socketRef w); apply Quiet_same; auto.
  - intros [= <-]. unfold onopen.
    destruct (socketRef w) as [[[] name]|]; apply Quiet_same; auto.
  - intros [= <-]. unfold onclose.
    destruct (socketRef w) as [[rs name]|]; apply Quiet_same; auto.
  - unfold onmessage. destruct parsed as [data|].
    + destruct (handleWebSocketMessage data w) as [r|] eqn:Hh.
      * intros ->. apply (Quiet_handleWebSocketMessage _ _ _ HT Hh).
      * intros [= <-]. apply Quiet_same; auto.
    + intros [= <-]. apply Quiet_same; auto.
  - intros [= <-]. apply Quiet_same; auto.
  - intros [= <-]. unfold handlePlay.
    destruct (socketIsOpen w); apply Quiet_same; auto.
  - destruct (timers w !! k) as [t|] eqn:Hk; intros [= <-];
      [|apply Quiet_same; auto].
    pose proof (Forall_lookup_1 _ _ _ _ HT Hk) as Hsel.
    destruct t as [updated lang|]; [|contradiction]. simpl.
    split; [reflexivity|]. split; [apply SameFlags_refl|].
    cbn [timers setSelectedCardIndex setTimers]. apply Forall_delete, HT.
Qed.

Lemma Quiet_step (ev : Event) (w w' : World) :
  addsNoCard ev -> Forall isSelectBest (timers w) ->
  step ev w = Some w' -> Quiet w w'.
Proof.
  intros Hev HT. unfold step.
  destruct (handle ev w) as [w1|] eqn:Hh; [|discriminate].
  intros [= <-]. pose proof (Quiet_handle _ _ _ Hev HT Hh) as HQ.
  unfold afterRender. destruct HQ as (Hs & HF & HT1).
  rewrite (Forall2_length _ _ _ HF), Nat.eqb_refl.
  split; [exact Hs|]. split; assumption.
Qed.

Lemma Quiet_run (evs : list Event) :
  forall w w',
    Forall addsNoCard evs -> Forall isSelectBest (timers w) ->
    run evs w = Some w' -> Quiet w w'.
Proof.
  induction evs as [|ev rest IH]; intros w w' Hevs HT; simpl.
  - intros [= <-]. apply Quiet_same; auto.
  - destruct (step ev w) as [w1|] eqn:Hs; [|discriminate].
    intros Hr. inversion Hevs as [|? ? Hev Hrest]; subst.
    destruct (Quiet_step _ _ _ Hev HT Hs) as (Hs1 & HF1 & HT1).
    destruct (IH _ _ Hrest HT1 Hr) as (Hs2 & HF2 & HT2).
    split; [congruence|]. split; [|exact HT2].
    apply (SameFlags_trans _ _ _ HF1 HF2).
Qed.

(** C2 at a failing input. Card A is entered and sent; card B is entered
    during the pacing delay; when the delay expires the drain stops. The
    store then holds A and B, B untransmitted, and [sendBingoCard] has been
    called for A only; no drain is running and none is pending, and as long
    as no further card is entered no event makes the queue send B. *)
Theorem late_card_is_never_sent :
  exists w,
    run lateCardSession initialWorld = Some w /\
    map id (bingoCards w) = ["A"; "B"] /\
    map transmitted (bingoCards w) = [true; false] /\
    map (fun call => id (snd call)) (sendCalls w) = ["A"] /\
    wire w = [RegisterMsg "Ana"; BingoCardMsg "A" ["uno"] "spanish"] /\
    timers w = [] /\
    isTransmitting w = false /\
    forall evs w',
      Forall addsNoCard evs -> run evs w = Some w' ->
      sendCalls w' = sendCalls w /\
      map id (bingoCards w') = ["A"; "B"] /\
      map transmitted (bingoCards w') = [true; false].
Proof.
  eexists. split; [vm_compute; reflexivity|].
  do 6 (split; [reflexivity|]).
  intros evs w' Hevs Hrun.
  apply (Quiet_run _ _ _ Hevs) in Hrun as (Hs & HF & _); [|constructor].
  split; [exact Hs|].
  cbn [bingoCards] in HF. unfold SameFlags in HF.
  apply Forall2_cons_inv_l in HF as (c1 & r1 & (Hi1 & _ & _ & Ht1) & HF & ->).
  apply Forall2_cons_inv_l in HF as (c2 & r2 & (Hi2 & _ & _ & Ht2) & HF & ->).
  apply Forall2_nil_inv_l in HF as ->.
  simpl in *. rewrite Hi1, Hi2, Ht1, Ht2. split; reflexivity.
Qed.

Lemma late_card_is_never_sent_witness :
  exists w w',
    run lateCardSession initialWorld = Some w /\
    run [Play; Message (Some (wordSelected "dos" ["B"])); TimerFires 0; SocketCloses] w
      = Some w' /\
    sendCalls w' = sendCalls w /\
    map markedWords (bingoCards w') = [Some []; Some ["dos"]] /\
    map transmitted (bingoCards w') = [true; false].
Proof.
  destruct late_card_is_never_sent as (w & Hrun & _ & _ & _ & _ & _ & _ & Hstuck).
  pose (evs := [Play; Message (Some (wordSelected "dos" ["B"])); TimerFires 0;
                SocketCloses]).
  assert (Hq : Forall addsNoCard evs) by (repeat (constructor; [exact I|]); constructor).
  destruct (run evs w) as [w'|] eqn:Hrun';
    [|vm_compute in Hrun; injection Hrun as <-; vm_compute in Hrun'; discriminate].
  destruct (Hstuck evs w' Hq Hrun') as (Hs & _ & Ht).
  exists w, w'. split; [exact Hrun|].
  split; [exact Hrun'|]. split; [exact Hs|]. split; [|exact Ht].
  vm_compute in Hrun. injection Hrun as <-.
  vm_compute in Hrun'. injection Hrun' as <-. reflexivity.
Defined.

(** ** Order of the sends *)

Lemma filter_delete_length {A : Type} (f : A -> bool) (l : list A) :
  forall k t, l !! k = Some t ->
    length (List.filter f l) =
    length (List.filter f (delete k l)) + (if f t then 1 else 0).
Proof.
  induction l as [|x l IH]; intros k t Hk; [discriminate|].
  destruct k as [|k]; simpl in *.
  - injection Hk as ->. destruct (f t); simpl; lia.
  - specialize (IH _ _ Hk). destruct (f x); simpl; lia.
Qed.

Lemma parseLine_untransmitted (cards : list Card) (line : string) :
  Forall untransmitted cards -> Forall untransmitted (parseLine cards line).
Proof.
  intros H. unfold parseLine. destruct (_ <? 2); [exact H|].
  destruct (JsString.splitWs _) as [|id0 words0]; [exact H|].
  destruct (_ =? 0); [exact H|].
  apply Forall_app. split; [exact H|]. repeat constructor.
Qed.

Lemma parseTxtFile_untransmitted (content : string) :
  Forall untransmitted (parseTxtFile content).
Proof.
  unfold parseTxtFile. destruct (_ =? 0); [constructor|].
  generalize (List.filter (fun line => JsString.truthy (JsString.trim line))
                          (JsString.splitLines content)).
  intros lines. assert (H : Forall untransmitted (@nil Card)) by constructor.
  revert H. generalize (@nil Card).
  induction lines as [|line rest IH]; intros cards H; simpl; [exact H|].
  apply IH, parseLine_untransmitted, H.
Qed.

Lemma QueueInv_same (w w1 : World) :
  bingoCards w1 = bingoCards w -> sendCalls w1 = sendCalls w ->
  timers w1 = timers w -> isTransmitting w1 = isTransmitting w ->
  QueueInv w -> QueueInv w1.
Proof.
  intros Hc Hs Ht Hi [H1 H2 H3 H4 H5]. unfold pendingDrains in H5.
  constructor; unfold pendingDrains; rewrite ?Hc, ?Hs, ?Ht, ?Hi; assumption.
Qed.

Lemma QueueInv_stop (w : World) :
  pendingDrains w = 0 -> QueueInv w -> QueueInv (setIsTransmitting false w).
Proof.
  intros H0 [H1 H2 H3 H4 _]. constructor; try assumption.
  change (pendingDrains (setIsTransmitting false w)) with (pendingDrains w). lia.
Qed.

Lemma isTransmitting_sendBingoCard (i : nat) (card : Card) (w : World) :
  isTransmitting (sendBingoCard i card w) = isTransmitting w.
Proof. unfold sendBingoCard. destruct (socketIsOpen _); reflexivity. Qed.

Lemma QueueInv_transmitNextCard (w : World) :
  pendingDrains w = 0 -> isTransmitting w = true ->
  QueueInv w -> QueueInv (transmitNextCard w).
Proof.
  intros H0 Hrun Inv. unfold transmitNextCard.
  destruct (list_find untransmitted (bingoCards w)) as [[i card]|] eqn:Hf;
    [|apply QueueInv_stop; assumption].
  destruct Inv as [H1 H2 H3 H4 _].
  apply list_find_Some in Hf as (Hi & Hun & Hbefore). unfold untransmitted in *.
  pose proof (lookup_lt_Some _ _ _ Hi) as Hlen.
  assert (Hn : i = length (sendCalls w)).
  { destruct (Nat.lt_trichotomy i (length (sendCalls w))) as [Hlt|[Heq|Hgt]];
      [|exact Heq|].
    - apply (H3 _ _ Hi) in Hlt. congruence.
    - destruct (lookup_lt_is_Some_2 (bingoCards w) (length (sendCalls w)))
        as [c Hc]; [lia|].
      exfalso. apply (Hbefore _ _ Hc Hgt).
      destruct (transmitted c) eqn:E; [|reflexivity].
      apply (H3 _ _ Hc) in E. lia. }
  subst i.
  constructor;
    unfold pendingDrains;
    cbn [sendCalls bingoCards timers isTransmitting setBingoCards setTimers];
    rewrite ?sendCalls_sendBingoCard, ?timers_sendBingoCard,
      ?isTransmitting_sendBingoCard, ?length_app, ?length_imap; simpl length.
  - rewrite map_app, H1. simpl. rewrite Nat.add_1_r, seq_S. reflexivity.
  - lia.
  - intros j c. rewrite list_lookup_imap. intros Hj.
    destruct (bingoCards w !! j) as [c0|] eqn:Hj0; [|discriminate].
    simpl in Hj. injection Hj as <-.
    destruct (Nat.eqb_spec j (length (sendCalls w))) as [->|Hne]; simpl.
    + split; [lia | reflexivity].
    + rewrite (H3 _ _ Hj0). lia.
  - intros j call Hj. rewrite list_lookup_imap.
    destruct (Nat.lt_ge_cases j (length (sendCalls w))) as [Hlt|Hge].
    + rewrite lookup_app_l in Hj by exact Hlt.
      destruct (H4 _ _ Hj) as (c & Hc & Hsame). rewrite Hc. simpl.
      eexists. split; [reflexivity|].
      destruct (j =? _); exact Hsame.
    + rewrite lookup_app_r in Hj by exact Hge.
      destruct (j - length (sendCalls w)) as [|d] eqn:Hd; [|discriminate].
      simpl in Hj. injection Hj as <-.
      assert (j = length (sendCalls w)) as -> by lia.
      rewrite Hi. simpl. rewrite Nat.eqb_refl.
      eexists. split; [reflexivity|]. repeat split; reflexivity.
  - rewrite List.filter_app, length_app. unfold pendingDrains in H0.
    rewrite H0, Hrun. simpl. lia.
Qed.

Lemma QueueInv_lengthEffect (w : World) : QueueInv w -> QueueInv (lengthEffect w).
Proof.
  intros Inv. unfold lengthEffect.
  destruct (length (bingoCards w) =? 0); [exact Inv|].
  destruct (hasUntransmitted (bingoCards w)); simpl; [|exact Inv].
  destruct (isTransmitting w) eqn:Hrun; simpl; [exact Inv|].
  pose proof (qi_drains _ Inv) as Hd. rewrite Hrun in Hd.
  apply QueueInv_transmitNextCard.
  - change (pendingDrains (setIsTransmitting true w)) with (pendingDrains w). lia.
  - reflexivity.
  - destruct Inv as [H1 H2 H3 H4 H5]. constructor; try assumption.
    change (pendingDrains (setIsTransmitting true w)) with (pendingDrains w). lia.
Qed.

Lemma QueueInv_afterRender (w0 w : World) : QueueInv w -> QueueInv (afterRender w0 w).
Proof.
  intros Inv. unfold afterRender.
  destruct (_ =? _); [exact Inv | apply QueueInv_lengthEffect, Inv].
Qed.

Lemma QueueInv_append (w : World) (newCards : list Card) :
  Forall untransmitted newCards ->
  QueueInv w -> QueueInv (setBingoCards (bingoCards w ++ newCards) w).
Proof.
  intros Hnew [H1 H2 H3 H4 H5].
  constructor; cbn [sendCalls bingoCards setBingoCards]; try assumption.
  - rewrite length_app. lia.
  - intros j c Hj. destruct (Nat.lt_ge_cases j (length (bingoCards w))) as [Hlt|Hge].
    + rewrite lookup_app_l in Hj by exact Hlt. apply (H3 _ _ Hj).
    + rewrite lookup_app_r in Hj by exact Hge.
      pose proof (Forall_lookup_1 _ _ _ _ Hnew Hj) as Hun.
      unfold untransmitted in Hun. rewrite Hun. split; [discriminate | lia].
  - intros j call Hj. destruct (H4 _ _ Hj) as (c & Hc & Hsame).
    exists c. split; [|exact Hsame]. rewrite lookup_app_l; [exact Hc|].
    apply lookup_lt_Some in Hc. exact Hc.
Qed.

Lemma QueueInv_marked (w w1 : World) :
  SameFlags (bingoCards w) (bingoCards w1) ->
  sendCalls w1 = sendCalls w -> pendingDrains w1 = pendingDrains w ->
  isTransmitting w1 = isTransmitting w ->
  QueueInv w -> QueueInv w1.
Proof.
  intros HF Hs Hd Hi [H1 H2 H3 H4 H5].
  constructor; rewrite ?Hs, ?Hd, ?Hi; try assumption.
  - rewrite <- (Forall2_length _ _ _ HF). exact H2.
  - intros j c' Hj.
    destruct (Forall2_lookup_r _ _ _ _ _ HF Hj) as (c & Hc & _ & _ & _ & Ht).
    rewrite Ht. apply (H3 _ _ Hc).
  - intros j call Hj. destruct (H4 _ _ Hj) as (c & Hc & Hi1 & Hw1 & Hl1).
    destruct (Forall2_lookup_l _ _ _ _ _ HF Hc) as (c' & Hc' & Hi2 & Hw2 & Hl2 & _).
    exists c'. split; [exact Hc'|]. repeat split; congruence.
Qed.

Lemma QueueInv_handleWebSocketMessage (data : JSON) (w w' : World) :
  handleWebSocketMessage data w = Returns (Some w') -> QueueInv w -> QueueInv w'.
Proof.
  unfold handleWebSocketMessage.
  destruct data as [| | | | |fields]; try discriminate;
    try (intros [= <-]; apply QueueInv_same; reflexivity).
  destruct (typeTag (JObj fields)) as [[| | |tag| |]|];
    try (intros [= <-]; apply QueueInv_same; reflexivity).
  repeat (match goal with
          | |- context [String.eqb tag ?s] => destruct (String.eqb tag s)
          end;
          try (intros [= <-]; apply QueueInv_same; reflexivity)).
  cbn [bingoCards setCurrentWord timers].
  destruct (markCards _ _) as [updated|] eqn:Hm; [|discriminate].
  intros [= <-]. apply QueueInv_marked; try reflexivity.
  - cbn [bingoCards setBingoCards]. apply (markCards_keeps _ _ _ Hm).
  - unfold pendingDrains. cbn [timers setBingoCards setTimers setCurrentWord].
    rewrite List.filter_app, length_app. simpl. lia.
Qed.

Lemma QueueInv_fire (k : nat) (t : Timer) (w : World) :
  timers w !! k = Some t ->
  QueueInv w -> QueueInv (runTimer t (setTimers (delete k (timers w)) w)).
Proof.
  intros Hk Inv.
  pose proof (filter_delete_length isTransmitMore _ _ _ Hk) as Hcount.
  pose proof (qi_drains _ Inv) as Hd. unfold pendingDrains in Hd.
  assert (Inv' : forall b, b = isTransmitting w ->
            pendingDrains (setTimers (delete k (timers w)) w) <= (if b then 1 else 0) ->
            QueueInv (setTimers (delete k (timers w)) w)).
  { intros b -> Hle. destruct Inv as [H1 H2 H3 H4 H5]. constructor; assumption. }
  destruct t as [updated lang | updatedCards]; simpl in *.
  - eapply (QueueInv_same (setTimers (delete k (timers w)) w)); try reflexivity.
    apply (Inv' _ eq_refl). unfold pendingDrains. cbn [timers setTimers]. lia.
  - assert (Hrun : isTransmitting w = true).
    { destruct (isTransmitting w); [reflexivity | lia]. }
    assert (H0 : pendingDrains (setTimers (delete k (timers w)) w) = 0).
    { unfold pendingDrains. cbn [timers setTimers]. rewrite Hrun in Hd. lia. }
    assert (Inv0 : QueueInv (setTimers (delete k (timers w)) w)).
    { apply (Inv' _ eq_refl). rewrite H0. lia. }
    destruct (hasUntransmitted updatedCards).
    + apply QueueInv_transmitNextCard; assumption.
    + apply QueueInv_stop; assumption.
Qed.

Lemma QueueInv_handle (ev : Event) (w w' : World) :
  freshAt ev w -> handle ev w = Some w' -> QueueInv w -> QueueInv w'.
Proof.
  intros Hfresh.
  destruct ev as [name| | |parsed|content|k|cardId input| |k]; simpl in *.
  - intros [= <-]. unfold registerUser.
    destruct (negb _); [auto|].
    destruct (socketRef w); [auto | apply QueueInv_same; reflexivity].
  - intros [= <-]. unfold onopen.
    destruct (socketRef w) as [[[] name]|]; auto. apply QueueInv_same; reflexivity.
  - intros [= <-]. unfold onclose.
    destruct (socketRef w) as [[rs name]|]; auto. apply QueueInv_same; reflexivity.
  - unfold onmessage. destruct parsed as [data|].
    + destruct (handleWebSocketMessage data w) as [r|] eqn:Hh.
      * intros ->. apply (QueueInv_handleWebSocketMessage _ _ _ Hh).
      * intros [= <-]. apply QueueInv_same; reflexivity.
    + intros [= <-]. apply QueueInv_same; reflexivity.
  - intros [= <-]. apply QueueInv_same; reflexivity.
  - destruct (readers w !! k) as [reader|]; intros [= <-]; [|auto].
    intros Inv. apply (QueueInv_same (onload reader w)); try reflexivity.
    unfold onload. rewrite Hfresh.
    destruct (0 <? _); [|exact Inv].
    apply QueueInv_append; [apply parseTxtFile_untransmitted | exact Inv].
  - intros [= <-]. unfold handleManualSubmit.
    destruct (_ || _); [auto|].
    destruct (_ =? 0); [auto|]. apply QueueInv_append. repeat constructor.
  - intros [= <-]. unfold handlePlay.
    destruct (socketIsOpen w); [apply QueueInv_same; reflexivity | auto].
  - destruct (timers w !! k) as [t|] eqn:Hk; intros [= <-]; [|auto].
    apply QueueInv_fire, Hk.
Qed.

Lemma QueueInv_run (evs : list Event) :
  forall w w', ReadsFresh evs w -> run evs w = Some w' -> QueueInv w -> QueueInv w'.
Proof.
  induction evs as [|ev rest IH]; intros w w'; simpl.
  - intros _ [= <-]. auto.
  - intros [Hfresh Hrest]. unfold step in *.
    destruct (handle ev w) as [w1|] eqn:Hh; [|discriminate].
    intros Hr Inv. apply (IH _ _ Hrest Hr), QueueInv_afterRender.
    apply (QueueInv_handle _ _ _ Hfresh Hh Inv).
Qed.

Lemma QueueInv_initial : QueueInv initialWorld.
Proof.
  constructor; simpl; try reflexivity; try lia;
    intros j c Hj; destruct j; discriminate.
Qed.

(** In every state of a session in which no read completes on a store
    that has changed since its file was chosen, the calls of
    [sendBingoCard] so far are for positions 0, 1, 2, ... of the store,
    once each and in that order, each with the card stored there; exactly
    those positions are flagged transmitted; at most one continuation of
    the drain is pending. *)
Lemma sends_follow_store_order (w : World) : reachableFresh w -> QueueInv w.
Proof.
  intros (evs & Hfresh & Hrun).
  apply (QueueInv_run _ _ _ Hfresh Hrun), QueueInv_initial.
Qed.

(** ** Tokenisation on small inputs *)

Example splitWs_keeps_empty_ends :
  JsString.splitWs " a  b " = [""; "a"; "b"; ""].
Proof. reflexivity. Qed.

Example trim_then_split :
  JsString.splitWs (JsString.trim (String (ascii_of_nat 9) " C1   a b  ")) =
  ["C1"; "a"; "b"].
Proof. reflexivity. Qed.

Example tokens_of_padded_line :
  ParserSpec.tokens (String (ascii_of_nat 9) " C1   a b  ") = ["C1"; "a"; "b"].
Proof. reflexivity. Qed.

Example tokens_of_blank_line : ParserSpec.tokens "   " = [].
Proof. reflexivity. Qed.

Example splitLines_keeps_empty_lines :
  JsString.splitLines ("a" +:+ NL +:+ NL +:+ "b" +:+ NL) = ["a"; ""; "b"; ""].
Proof. reflexivity. Qed.

Example includes_is_substring :
  JsString.includes "C1,C2" "C2" = true /\ JsString.includes "C1,C2" "C3" = false.
Proof. split; reflexivity. Qed.

(** * Further properties of the code *)

(** ** What the card parser and the manual form produce *)

Module StringFacts.
Import JsString ParserSpec.

Lemma allChars_snoc (p : ascii -> bool) (s : string) (c : ascii) :
  allChars p (snoc s c) = allChars p s && p c.
Proof.
  induction s as [|c0 r IH]; simpl.
  - rewrite andb_true_r. reflexivity.
  - unfold snoc in IH. rewrite IH, andb_assoc. reflexivity.
Qed.

Lemma tokensFrom_tokens (s : string) :
  forall cur, noWhiteSpace cur -> Forall isToken (tokensFrom cur s).
Proof.
  induction s as [|c r IH]; intros cur Hcur; simpl.
  - destruct (isEmpty cur) eqn:He; constructor; [|constructor].
    split; [|exact Hcur]. intros ->. discriminate.
  - destruct (isWhiteSpace c) eqn:Hc.
    + destruct (isEmpty cur) eqn:He; [apply IH; reflexivity|].
      constructor; [|apply IH; reflexivity].
      split; [|exact Hcur]. intros ->. discriminate.
    + apply IH. unfold noWhiteSpace. rewrite allChars_snoc.
      unfold noWhiteSpace in Hcur. rewrite Hcur, Hc. reflexivity.
Qed.

Lemma tokens_tokens (line : string) : Forall isToken (tokens line).
Proof. apply tokensFrom_tokens. reflexivity. Qed.

Lemma trimStart_empty_iff (s : string) :
  trimStart s = EmptyString <-> onlyWhiteSpace s.
Proof.
  unfold onlyWhiteSpace. induction s as [|c r IH]; simpl; [tauto|].
  destruct (isWhiteSpace c); simpl; [exact IH|].
  split; discriminate.
Qed.

Lemma trim_empty_iff (s : string) : trim s = EmptyString <-> onlyWhiteSpace s.
Proof.
  rewrite <- trimStart_empty_iff. unfold trim.
  destruct (trimStart s) as [|c r] eqn:Hs; [simpl; tauto|].
  simpl. rewrite (ParserFacts.trimStart_head _ _ _ Hs). simpl.
  split; discriminate.
Qed.

Lemma trim_idem (s : string) : trim (trim s) = trim s.
Proof.
  destruct (trim s) as [|c r] eqn:Ht; [reflexivity|].
  pose proof (ParserFacts.trim_head _ _ _ Ht) as Hc.
  unfold trim at 1. simpl trimStart. rewrite Hc.
  rewrite <- Ht. unfold trim. apply ParserFacts.trimEnd_idem.
Qed.

Lemma splitChar_blank (s : string) :
  forall cur,
    Forall onlyWhiteSpace (splitChar LF cur s) ->
    onlyWhiteSpace cur /\ onlyWhiteSpace s.
Proof.
  induction s as [|c r IH]; intros cur H; simpl in H.
  - inversion H; subst. split; [assumption | reflexivity].
  - destruct (Ascii.eqb_spec c LF) as [->|Hne].
    + inversion H as [|? ? Hcur Hrest]; subst.
      destruct (IH _ Hrest) as [_ Hr]. split; [exact Hcur|].
      unfold onlyWhiteSpace in *. simpl. exact Hr.
    + destruct (IH _ H) as [Hcur Hr]. unfold onlyWhiteSpace in *.
      rewrite allChars_snoc in Hcur. apply andb_true_iff in Hcur as [Hcur Hc].
      split; [exact Hcur|]. simpl. rewrite Hc, Hr. reflexivity.
Qed.

End StringFacts.

Lemma manual_words_trimmed (manualInput : string) :
  Forall (fun x => x <> EmptyString /\ JsString.trim x = x)
    (List.filter JsString.truthy (map JsString.trim (JsString.splitLines manualInput))).
Proof.
  apply Forall_forall. intros x Hx. apply list_elem_of_In in Hx.
  apply filter_In in Hx as [Hx Ht]. apply in_map_iff in Hx as (l & <- & _).
  split; [|apply StringFacts.trim_idem].
  intros E. rewrite E in Ht. discriminate.
Qed.

Lemma parseTxtFile_FileCards (content : string) : Forall FileCard (parseTxtFile content).
Proof.
  rewrite ParserFacts.parseTxtFile_refines. unfold ParserSpec.parse.
  induction (JsString.splitLines content) as [|line rest IH]; simpl; [constructor|].
  apply Forall_app. split; [|exact IH].
  unfold ParserSpec.cardsOfLine.
  pose proof (StringFacts.tokens_tokens line) as Htok.
  destruct (ParserSpec.tokens line) as [|id0 [|w ws]]; try constructor; [|constructor].
  unfold FileCard. simpl.
  split; [apply (Forall_inv Htok)|]. split; [discriminate|].
  split; [apply (Forall_inv_tail Htok)|]. repeat split; reflexivity.
Qed.

(** X1. Every card [parseTxtFile] returns has a token as id and at least
    one word, all of them tokens (not empty, no white space inside); its
    language is the one detected for its number of words; it is not
    transmitted and has nothing marked. There is at most one card per line
    of the input. *)
Theorem parseTxtFile_well_formed (content : string) :
  Forall FileCard (parseTxtFile content) /\
  length (parseTxtFile content) <= length (JsString.splitLines content).
Proof.
  split; [apply parseTxtFile_FileCards|].
  rewrite ParserFacts.parseTxtFile_refines. unfold ParserSpec.parse.
  induction (JsString.splitLines content) as [|line rest IH]; simpl; [lia|].
  rewrite length_app. unfold ParserSpec.cardsOfLine at 1.
  destruct (ParserSpec.tokens line) as [|id0 [|w ws]]; simpl; lia.
Qed.

(** X2. The manual form changes nothing when the id or the word list is
    blank. Otherwise it appends exactly one card to the store and changes
    nothing else: the card's id is the trimmed id field, its words are the
    trimmed non-blank lines of the input (so at least one, none empty,
    none with white space to trim), its language is the one detected for
    their number, and it is neither transmitted nor marked. *)
Theorem handleManualSubmit_effect (manualCardId manualInput : string) (w : World) :
  (onlyWhiteSpace manualCardId \/ onlyWhiteSpace manualInput ->
   handleManualSubmit manualCardId manualInput w = w) /\
  (~ onlyWhiteSpace manualCardId -> ~ onlyWhiteSpace manualInput ->
   exists card,
     handleManualSubmit manualCardId manualInput w =
       setBingoCards (bingoCards w ++ [card]) w /\
     id card = JsString.trim manualCardId /\
     words card =
       List.filter JsString.truthy
         (map JsString.trim (JsString.splitLines manualInput)) /\
     ManualCard card).
Proof.
  unfold handleManualSubmit. split.
  - intros [H|H]; apply StringFacts.trim_empty_iff in H; rewrite H; simpl;
      [reflexivity | rewrite orb_true_r; reflexivity].
  - intros Hid Hin.
    assert (Hid' : JsString.trim manualCardId <> EmptyString).
    { intros H. apply Hid, StringFacts.trim_empty_iff, H. }
    assert (Hin' : JsString.trim manualInput <> EmptyString).
    { intros H. apply Hin, StringFacts.trim_empty_iff, H. }
    destruct (JsString.trim manualCardId) as [|ci ri] eqn:Ei; [congruence|].
    destruct (JsString.trim manualInput) as [|cn rn] eqn:En; [congruence|].
    simpl negb. simpl orb. cbv iota.
    pose proof (manual_words_trimmed manualInput) as Hwords.
    set (words0 := List.filter JsString.truthy
                     (map JsString.trim (JsString.splitLines manualInput))) in *.
    assert (Hne : words0 <> []).
    { intros E. apply Hin. apply (StringFacts.splitChar_blank manualInput EmptyString).
      apply Forall_forall. intros l Hl. apply StringFacts.trim_empty_iff.
      destruct (JsString.trim l) as [|c r] eqn:El; [reflexivity|]. exfalso.
      assert (Hin0 : In (String c r) words0).
      { apply filter_In. split; [|reflexivity].
        apply in_map_iff. exists l. split; [exact El|].
        apply list_elem_of_In, Hl. }
      rewrite E in Hin0. exact Hin0. }
    destruct words0 as [|x xs] eqn:Ew; [congruence|].
    simpl length. simpl Nat.eqb. cbv iota.
    eexists. split; [reflexivity|]. split; [reflexivity|]. split; [reflexivity|].
    unfold ManualCard. simpl.
    split; [discriminate|]. split; [rewrite <- Ei; apply StringFacts.trim_idem|].
    split; [discriminate|]. split; [exact Hwords|]. repeat split; reflexivity.
Qed.

Lemma handleManualSubmit_effect_witness :
  handleManualSubmit "  " "uno" worldDE = worldDE /\
  exists card,
    handleManualSubmit " F " (" uno " +:+ NL +:+ NL +:+ "dos tres") worldDE =
      setBingoCards [cardD; cardE; card] worldDE /\
    id card = "F" /\ words card = ["uno"; "dos tres"] /\ ManualCard card.
Proof.
  split.
  - apply (proj1 (handleManualSubmit_effect "  " "uno" worldDE)). left. reflexivity.
  - apply (proj2 (handleManualSubmit_effect " F " (" uno " +:+ NL +:+ NL +:+ "dos tres")
                    worldDE)); discriminate.
Defined.

(** ** Handlers as sequences of elementary changes *)

Lemma Prims_one (w w' : World) : Prim w w' -> Prims w w'.
Proof. intros H. eapply Prims_step; [exact H | apply Prims_refl]. Qed.

Lemma Prims_trans (w1 w2 w3 : World) : Prims w1 w2 -> Prims w2 w3 -> Prims w1 w3.
Proof.
  induction 1 as [|a b c Hab _ IH]; [auto|].
  intros H. eapply Prims_step; [exact Hab | apply IH, H].
Qed.

Lemma Prims_hook (w w' : World) : sameCore w w' -> Prims w w'.
Proof. intros H. apply Prims_one, P_hook, H. Qed.

Ltac core := apply Prims_hook; repeat split; reflexivity.

Lemma Prims_handleWebSocketMessage (data : JSON) (w w' : World) :
  handleWebSocketMessage data w = Returns (Some w') -> Prims w w'.
Proof.
  unfold handleWebSocketMessage.
  destruct data as [| | | | |fields]; try discriminate;
    try (intros [= <-]; apply Prims_refl).
  destruct (typeTag (JObj fields)) as [[| | |tag| |]|];
    try (intros [= <-]; apply Prims_refl).
  repeat (match goal with
          | |- context [String.eqb tag ?s] => destruct (String.eqb tag s)
          end;
          try (intros [= <-]; first [apply Prims_refl | core])).
  cbn [bingoCards setCurrentWord timers].
  destruct (markCards _ _) as [updated|] eqn:Hm; [|discriminate].
  intros [= <-].
  apply (Prims_trans _ (setCurrentWord (getProp (JObj fields) "word") w)); [core|].
  apply Prims_one. apply (P_mark (setCurrentWord _ w) (JObj fields) updated). exact Hm.
Qed.

Lemma parseTxtFile_EnteredCards (content : string) :
  Forall EnteredCard (parseTxtFile content).
Proof.
  eapply Forall_impl; [apply parseTxtFile_FileCards|]. intros x Hx. left. exact Hx.
Qed.

(** All handlers but [onload]. *)
Lemma Prims_handle_other (ev : Event) (w w' : World) :
  (forall k, ev <> FileLoaded k) -> handle ev w = Some w' -> Prims w w'.
Proof.
  intros Hev.
  destruct ev as [name| | |parsed|content|k|cardId input| |k]; simpl.
  - intros [= <-]. unfold registerUser.
    destruct name as [|c r]; simpl; [apply Prims_refl|].
    destruct (socketRef w) eqn:Hs; [apply Prims_refl|].
    apply Prims_one, P_register; [discriminate | exact Hs].
  - intros [= <-]. unfold onopen.
    destruct (socketRef w) as [[[] name]|] eqn:Hs; try apply Prims_refl.
    apply Prims_one, P_open, Hs.
  - intros [= <-]. unfold onclose.
    destruct (socketRef w) as [[st name]|] eqn:Hs; [|apply Prims_refl].
    apply Prims_one, (P_close w st name), Hs.
  - unfold onmessage. destruct parsed as [data|].
    + destruct (handleWebSocketMessage data w) as [r|] eqn:Hh.
      * intros ->. apply (Prims_handleWebSocketMessage _ _ _ Hh).
      * intros [= <-]. core.
    + intros [= <-]. core.
  - intros [= <-]. apply Prims_one, P_choose.
  - exfalso. apply (Hev k). reflexivity.
  - intros [= <-]. unfold handleManualSubmit.
    destruct (JsString.trim cardId) as [|ci ri] eqn:Ei; simpl; [apply Prims_refl|].
    destruct (JsString.trim input) as [|cn rn] eqn:En; simpl; [apply Prims_refl|].
    pose proof (manual_words_trimmed input) as Hw.
    destruct (List.filter _ _) as [|x xs] eqn:Ew; simpl; [apply Prims_refl|].
    apply Prims_one, P_add; [discriminate|].
    constructor; [|constructor]. right. unfold ManualCard. simpl.
    split; [discriminate|]. split; [rewrite <- Ei; apply StringFacts.trim_idem|].
    split; [discriminate|]. split; [exact Hw|]. repeat split; reflexivity.
  - intros [= <-]. unfold handlePlay.
    destruct (socketIsOpen w) eqn:Ho; [apply Prims_one, P_play, Ho | apply Prims_refl].
  - destruct (timers w !! k) as [[updated lang|updatedCards]|] eqn:Hk; intros [= <-].
    + apply Prims_one. simpl. apply P_fireSelect, Hk.
    + eapply Prims_step; [apply (P_fireMore _ _ _ Hk)|]. simpl.
      destruct (hasUntransmitted updatedCards); apply Prims_one;
        [apply P_transmit | apply P_stop].
    + apply Prims_refl.
Qed.

(** [onload] on the store it closed over appends to the store. *)
Lemma Prims_handle (ev : Event) (w w' : World) :
  freshAt ev w -> handle ev w = Some w' -> Prims w w'.
Proof.
  intros Hfresh Hh.
  destruct (match ev with FileLoaded k => Some k | _ => None end) as [k|] eqn:Hk.
  - destruct ev; try discriminate. injection Hk as ->. simpl in *.
    destruct (readers w !! k) as [reader|]; injection Hh as <-; [|apply Prims_refl].
    apply (Prims_trans _ (onload reader w)).
    + unfold onload. rewrite Hfresh.
      destruct (parseTxtFile (result reader)) as [|c cs] eqn:Hp; simpl;
        [apply Prims_refl|].
      apply Prims_one, P_add; [discriminate|].
      rewrite <- Hp. apply parseTxtFile_EnteredCards.
    + replace (readers w) with (readers (onload reader w))
        by (unfold onload; destruct (0 <? _); reflexivity).
      apply Prims_one, P_unread.
  - apply (Prims_handle_other ev); [|exact Hh]. intros k ->. discriminate.
Qed.

Lemma Changes_one (w w' : World) : Change w w' -> Changes w w'.
Proof. intros H. eapply Changes_step; [exact H | apply Changes_refl]. Qed.

Lemma Changes_trans (w1 w2 w3 : World) : Changes w1 w2 -> Changes w2 w3 -> Changes w1 w3.
Proof.
  induction 1 as [|a b c Hab _ IH]; [auto|].
  intros H. eapply Changes_step; [exact Hab | apply IH, H].
Qed.

Lemma Prims_Changes (w w' : World) : Prims w w' -> Changes w w'.
Proof.
  induction 1 as [|a b c Hab _ IH]; [apply Changes_refl|].
  eapply Changes_step; [apply Ch_prim, Hab | exact IH].
Qed.

Lemma Changes_handle (ev : Event) (w w' : World) : handle ev w = Some w' -> Changes w w'.
Proof.
  intros Hh.
  destruct (match ev with FileLoaded k => Some k | _ => None end) as [k|] eqn:Hk.
  - destruct ev; try discriminate. injection Hk as ->. simpl in *.
    destruct (readers w !! k) as [reader|] eqn:Hr; injection Hh as <-;
      [|apply Changes_refl].
    apply (Changes_trans _ (onload reader w)).
    + unfold onload.
      destruct (parseTxtFile (result reader)) as [|c cs] eqn:Hp; simpl;
        [apply Changes_refl|].
      apply Changes_one, Ch_load; [|discriminate|].
      * apply list_elem_of_lookup. eauto.
      * rewrite <- Hp. apply parseTxtFile_EnteredCards.
    + replace (readers w) with (readers (onload reader w))
        by (unfold onload; destruct (0 <? _); reflexivity).
      apply Changes_one, Ch_prim, P_unread.
  - apply Prims_Changes, (Prims_handle_other ev); [|exact Hh]. intros k ->. discriminate.
Qed.

Lemma Prims_afterRender (w0 w : World) : Prims w (afterRender w0 w).
Proof.
  unfold afterRender. destruct (_ =? _); [apply Prims_refl|].
  unfold lengthEffect. destruct (_ =? 0); [apply Prims_refl|].
  destruct (hasUntransmitted _); simpl; [|apply Prims_refl].
  destruct (isTransmitting w) eqn:Hi; simpl; [apply Prims_refl|].
  eapply Prims_step; [apply P_start, Hi | apply Prims_one, P_transmit].
Qed.

Lemma Prims_run (evs : list Event) :
  forall w w', ReadsFresh evs w -> run evs w = Some w' -> Prims w w'.
Proof.
  induction evs as [|ev rest IH]; intros w w'; simpl.
  - intros _ [= <-]. apply Prims_refl.
  - intros [Hfresh Hrest]. unfold step in *.
    destruct (handle ev w) as [w1|] eqn:Hh; [|discriminate].
    intros Hr. apply (Prims_trans _ w1); [apply (Prims_handle _ _ _ Hfresh Hh)|].
    apply (Prims_trans _ (afterRender w w1));
      [apply Prims_afterRender | apply (IH _ _ Hrest Hr)].
Qed.

Lemma Changes_run (evs : list Event) :
  forall w w', run evs w = Some w' -> Changes w w'.
Proof.
  induction evs as [|ev rest IH]; intros w w'; simpl.
  - intros [= <-]. apply Changes_refl.
  - unfold step. destruct (handle ev w) as [w1|] eqn:Hh; [|discriminate].
    intros Hr. apply (Changes_trans _ w1); [apply (Changes_handle _ _ _ Hh)|].
    apply (Changes_trans _ (afterRender w w1));
      [apply Prims_Changes, Prims_afterRender | apply (IH _ _ Hr)].
Qed.

(** A property kept by every state change is kept by every run. *)
Lemma run_invariant (I : World -> Prop) :
  (forall w w', Change w w' -> I w -> I w') ->
  forall evs w w', run evs w = Some w' -> I w -> I w'.
Proof.
  intros HI evs w w' Hrun. apply Changes_run in Hrun.
  induction Hrun as [|a b c Hab _ IH]; [auto|].
  intros Ha. apply IH, (HI _ _ Hab Ha).
Qed.

(** A reflexive and transitive relation that holds across every state
    change holds across every run. *)
Lemma run_relation (R : World -> World -> Prop) :
  (forall w, R w w) -> (forall a b c, R a b -> R b c -> R a c) ->
  (forall w w', Change w w' -> R w w') ->
  forall evs w w', run evs w = Some w' -> R w w'.
Proof.
  intros Hrefl Htrans HR evs w w' Hrun. apply Changes_run in Hrun.
  induction Hrun as [|a b c Hab _ IH]; [apply Hrefl|].
  apply (Htrans _ b); [apply HR, Hab | exact IH].
Qed.

(** The same for the elementary changes alone, on the runs in which
    every read completes on the store it closed over. *)
Lemma fresh_run_invariant (I : World -> Prop) :
  (forall w w', Prim w w' -> I w -> I w') ->
  forall evs w w', ReadsFresh evs w -> run evs w = Some w' -> I w -> I w'.
Proof.
  intros HI evs w w' Hfresh Hrun. apply (Prims_run _ _ _ Hfresh) in Hrun.
  clear Hfresh.
  induction Hrun as [|a b c Hab _ IH]; [auto|].
  intros Ha. apply IH, (HI _ _ Hab Ha).
Qed.

Lemma fresh_run_relation (R : World -> World -> Prop) :
  (forall w, R w w) -> (forall a b c, R a b -> R b c -> R a c) ->
  (forall w w', Prim w w' -> R w w') ->
  forall evs w w', ReadsFresh evs w -> run evs w = Some w' -> R w w'.
Proof.
  intros Hrefl Htrans HR evs w w' Hfresh Hrun. apply (Prims_run _ _ _ Hfresh) in Hrun.
  clear Hfresh.
  induction Hrun as [|a b c Hab _ IH]; [apply Hrefl|].
  apply (Htrans _ b); [apply HR, Hab | exact IH].
Qed.

(** ** The store *)

Lemma imap_set_alter {A : Type} (f : A -> A) (l : list A) :
  forall i, imap (fun idx c => if idx =? i then f c else c) l = alter f i l.
Proof.
  induction l as [|x l IH]; intros i; [reflexivity|].
  rewrite imap_cons. destruct i as [|i]; simpl.
  - f_equal. rewrite <- (list_fmap_id l) at 2. rewrite <- imap_const.
    apply imap_ext. intros j y _. reflexivity.
  - f_equal. etransitivity; [|apply (IH i)].
    apply imap_ext. intros j y _. reflexivity.
Qed.

Lemma transmitNextCard_cases (w : World) :
  (list_find untransmitted (bingoCards w) = None /\
   transmitNextCard w = setIsTransmitting false w) \/
  (exists i card,
      list_find untransmitted (bingoCards w) = Some (i, card) /\
      bingoCards w !! i = Some card /\ transmitted card = false /\
      transmitNextCard w =
        setBingoCards (alter setTransmitted i (bingoCards w))
          (setTimers (timers w ++ [TransmitMore (alter setTransmitted i (bingoCards w))])
             (sendBingoCard i card w))).
Proof.
  unfold transmitNextCard.
  destruct (list_find untransmitted (bingoCards w)) as [[i card]|] eqn:Hf;
    [right | left; split; reflexivity].
  exists i, card. pose proof Hf as Hf'. apply list_find_Some in Hf' as (Hi & Hun & _).
  rewrite imap_set_alter, timers_sendBingoCard. repeat split; assumption.
Qed.

Lemma markCard_effect (data : JSON) (c c' : Card) :
  markCard data c = Some c' ->
  c' = c \/
  exists word,
    word ∈ words c /\ (word ∉ marked c) /\
    c' = setMarkedWords c (marked c ++ [word]).
Proof.
  unfold markCard. destruct (cardIdsInclude _ _) as [[|]|]; [| |discriminate].
  - destruct (getProp data "word") as [[| | |word| |]|];
      try (intros [= <-]; left; reflexivity).
    destruct (strIn word (words c)) eqn:Hw; [|intros [= <-]; left; reflexivity].
    destruct (strIn word (marked c)) eqn:Hm; simpl; intros [= <-];
      [left; reflexivity|].
    right. exists word. apply strIn_spec in Hw. split; [exact Hw|].
    split; [|reflexivity]. intros H. apply strIn_spec in H. congruence.
  - intros [= <-]. left. reflexivity.
Qed.

Lemma EnteredCard_StoredCard (c : Card) : EnteredCard c -> StoredCard c.
Proof.
  intros [(Hid & Hw & Hws & Hl & _ & Hm) | (Hid & _ & Hw & Hws & Hl & _ & Hm)].
  - split; [apply Hid|]. split; [exact Hw|]. split.
    + eapply Forall_impl; [exact Hws|]. intros x Hx. apply Hx.
    + split; [exact Hl|]. exists []. split; [exact Hm|].
      split; [constructor|]. intros x Hx. inversion Hx.
  - split; [exact Hid|]. split; [exact Hw|]. split.
    + eapply Forall_impl; [exact Hws|]. intros x Hx. apply Hx.
    + split; [exact Hl|]. exists []. split; [exact Hm|].
      split; [constructor|]. intros x Hx. inversion Hx.
Qed.

Lemma StoredCard_setTransmitted (c : Card) : StoredCard c -> StoredCard (setTransmitted c).
Proof. intros H. exact H. Qed.

Lemma StoredCard_markCard (data : JSON) (c c' : Card) :
  markCard data c = Some c' -> StoredCard c -> StoredCard c'.
Proof.
  intros Hm (Hid & Hw & Hws & Hl & mw & Hmw & Hnd & Hsub).
  destruct (markCard_effect _ _ _ Hm) as [->|(word & Hin & Hnot & ->)].
  - repeat split; try assumption. exists mw. auto.
  - unfold StoredCard. simpl. repeat split; try assumption.
    unfold marked in *. rewrite Hmw in *. simpl in *.
    exists (mw ++ [word]). split; [reflexivity|]. split.
    + apply NoDup_app. split; [exact Hnd|]. split; [|apply NoDup_singleton].
      intros x Hx Hx'. apply list_elem_of_singleton in Hx'. subst. contradiction.
    + intros x Hx. apply elem_of_app in Hx as [Hx|Hx]; [apply Hsub, Hx|].
      apply list_elem_of_singleton in Hx. subst. exact Hin.
Qed.

Lemma stored_cards_kept (w w' : World) :
  Prim w w' -> Forall StoredCard (bingoCards w) -> Forall StoredCard (bingoCards w').
Proof.
  intros HP HI. destruct HP; cbn [bingoCards setSocketRef setWire setBingoCards
    setTimers setIsTransmitting setSelectedCardIndex]; try assumption.
  - destruct H as (_ & -> & _). exact HI.
  - apply Forall_app. split; [exact HI|].
    eapply Forall_impl; [eassumption|]. apply EnteredCard_StoredCard.
  - unfold markCards in H. apply mapM_Some in H.
    induction H as [|c c' l k Hc _ IH]; [constructor|].
    inversion HI; subst. constructor; [|apply IH; assumption].
    apply (StoredCard_markCard _ _ _ Hc). assumption.
  - destruct (transmitNextCard_cases w) as [[_ ->] | (i & card & _ & _ & _ & ->)];
      [exact HI|].
    cbn [bingoCards setBingoCards]. apply Forall_alter; [exact HI|].
    intros x _ Hx. apply StoredCard_setTransmitted, Hx.
Qed.

Lemma readers_sendBingoCard (i : nat) (card : Card) (w : World) :
  readers (sendBingoCard i card w) = readers w.
Proof. unfold sendBingoCard. destruct (socketIsOpen _); reflexivity. Qed.

Lemma readers_transmitNextCard (w : World) : readers (transmitNextCard w) = readers w.
Proof.
  unfold transmitNextCard. destruct (list_find _ _) as [[i card]|]; [|reflexivity].
  cbn [readers setBingoCards setTimers]. apply readers_sendBingoCard.
Qed.

(** What an elementary change does to the reads under way. *)
Lemma readers_kept (w w' : World) :
  Prim w w' ->
  readers w' = readers w \/
  (exists content, readers w' = readers w ++ [mkFileReader (bingoCards w) content]) \/
  (exists k, readers w' = delete k (readers w)).
Proof.
  intros HP. destruct HP; cbn [readers setSocketRef setWire setBingoCards setTimers
    setIsTransmitting setSelectedCardIndex setReaders]; eauto.
  - left. apply H.
  - left. apply readers_transmitNextCard.
Qed.

Lemma StoreInv_kept (w w' : World) : Change w w' -> StoreInv w -> StoreInv w'.
Proof.
  intros HC [Hstore Hreaders]. destruct HC as [w w' HP | w reader newCards Hin _ Hnew].
  - split; [apply (stored_cards_kept _ _ HP Hstore)|].
    destruct (readers_kept _ _ HP) as [-> | [[content ->] | [k ->]]].
    + exact Hreaders.
    + apply Forall_app. split; [exact Hreaders|]. constructor; [exact Hstore | constructor].
    + apply Forall_delete, Hreaders.
  - split; [|exact Hreaders]. cbn [bingoCards setBingoCards]. apply Forall_app. split.
    + rewrite Forall_forall in Hreaders. apply (Hreaders reader Hin).
    + eapply Forall_impl; [exact Hnew|]. apply EnteredCard_StoredCard.
Qed.

Lemma StoreInv_run (evs : list Event) (w : World) :
  run evs initialWorld = Some w -> Forall StoredCard (bingoCards w).
Proof.
  intros Hrun.
  apply (run_invariant StoreInv StoreInv_kept _ _ _ Hrun). split; constructor.
Qed.

Lemma detectLanguage_declared (n : nat) :
  In (detectLanguage n) (map fst LANGUAGE_CONFIGS).
Proof.
  unfold detectLanguage, LANGUAGE_CONFIGS. cbn -[Nat.eqb].
  repeat (match goal with |- context [?a =? n] => destruct (a =? n) end; [tauto|]).
  tauto.
Qed.

(** X3. In every state of a session, every stored card has a non-empty
    id and at least one word, none of them empty; its language is the one
    detected for its number of words, hence a key of the profile table; its
    marked words are defined, without duplicates and among its words, so
    the marked count never exceeds the number of words. *)
Theorem stored_cards_well_formed (w : World) :
  reachable w ->
  forall c, c ∈ bingoCards w ->
    StoredCard c /\
    In (language c) (map fst LANGUAGE_CONFIGS) /\
    markedCount c <= length (words c).
Proof.
  intros [evs Hrun] c Hc.
  pose proof (StoreInv_run _ _ Hrun) as HI.
  rewrite Forall_forall in HI. specialize (HI c Hc).
  split; [exact HI|]. destruct HI as (_ & _ & _ & Hl & mw & Hmw & Hnd & Hsub).
  split; [rewrite Hl; apply detectLanguage_declared|].
  unfold markedCount. rewrite Hmw.
  apply submseteq_length, NoDup_submseteq; assumption.
Qed.

Lemma stored_cards_well_formed_witness :
  exists w c,
    run spanishRoundSession initialWorld = Some w /\
    bingoCards w !! 2 = Some c /\
    StoredCard c /\ markedCount c <= length (words c).
Proof.
  destruct (run spanishRoundSession initialWorld) as [w|] eqn:Hrun;
    [|vm_compute in Hrun; discriminate].
  destruct (bingoCards w !! 2) as [c|] eqn:Hc;
    [|vm_compute in Hrun; injection Hrun as <-; discriminate].
  exists w, c. split; [reflexivity|]. split; [exact Hc|].
  assert (Hin : c ∈ bingoCards w) by (apply list_elem_of_lookup; eauto).
  destruct (stored_cards_well_formed w (ex_intro _ spanishRoundSession Hrun) c Hin)
    as (H1 & _ & H3).
  split; assumption.
Defined.

Lemma Grown_refl (c : Card) : Grown c c.
Proof. repeat split; auto. Qed.

Lemma Extends_refl (cards : list Card) : Extends cards cards.
Proof.
  exists cards, []. rewrite app_nil_r. split; [reflexivity|].
  apply Forall_Forall2_diag, Forall_forall. intros c _. apply Grown_refl.
Qed.

Lemma Extends_trans (c1 c2 c3 : list Card) :
  Extends c1 c2 -> Extends c2 c3 -> Extends c1 c3.
Proof.
  intros (k1 & l1 & -> & H1) (k2 & l2 & -> & H2).
  apply Forall2_app_inv_l in H2 as (k2a & k2b & Ha & Hb & ->).
  exists k2a, (k2b ++ l2). rewrite app_assoc. split; [reflexivity|].
  eapply Forall2_trans; [|exact H1|exact Ha].
  intros x y z (? & ? & ? & ? & ?) (? & ? & ? & ? & ?).
  repeat split; try congruence; [auto|]. etransitivity; eassumption.
Qed.

Lemma Extends_pointwise (cards cards' : list Card) :
  Forall2 Grown cards cards' -> Extends cards cards'.
Proof. intros H. exists cards', []. rewrite app_nil_r. auto. Qed.

Lemma Grown_markCard (data : JSON) (c c' : Card) : markCard data c = Some c' -> Grown c c'.
Proof.
  intros Hm. destruct (markCard_effect _ _ _ Hm) as [->|(word & _ & _ & ->)];
    [apply Grown_refl|].
  repeat split; auto. apply prefix_app_r. reflexivity.
Qed.

Lemma store_extends (w w' : World) : Prim w w' -> Extends (bingoCards w) (bingoCards w').
Proof.
  intros HP. destruct HP; cbn [bingoCards setSocketRef setWire setBingoCards
    setTimers setIsTransmitting setSelectedCardIndex]; try apply Extends_refl.
  - destruct H as (_ & -> & _). apply Extends_refl.
  - exists (bingoCards w), newCards. split; [reflexivity|].
    apply Forall_Forall2_diag, Forall_forall. intros c _. apply Grown_refl.
  - apply Extends_pointwise. unfold markCards in H. apply mapM_Some in H.
    eapply Forall2_impl; [exact H|]. apply Grown_markCard.
  - destruct (transmitNextCard_cases w) as [[_ ->] | (i & card & _ & _ & _ & ->)];
      [apply Extends_refl|].
    cbn [bingoCards setBingoCards]. apply Extends_pointwise.
    apply Forall2_alter_r; [apply Forall_Forall2_diag, Forall_forall;
                           intros c _; apply Grown_refl|].
    intros x y _ _ (? & ? & ? & ? & ?). repeat split; auto.
Qed.

(** X4. Across any sequence of events in which no read completes on a
    store that has changed since its file was chosen, the store only grows
    at its end: a card keeps its position, id, words and language; a
    transmitted flag that is set stays set; the marks of a card are only
    ever extended at the end; no card is removed. (A read that completes
    later installs the store it closed over: see
    [stale_read_clears_flag].) *)
Theorem store_only_grows (evs : list Event) (w w' : World) :
  ReadsFresh evs w ->
  run evs w = Some w' ->
  Extends (bingoCards w) (bingoCards w') /\
  length (bingoCards w) <= length (bingoCards w') /\
  forall j c, bingoCards w !! j = Some c ->
    exists c', bingoCards w' !! j = Some c' /\ Grown c c'.
Proof.
  intros Hfresh Hrun.
  assert (HE : Extends (bingoCards w) (bingoCards w')).
  { apply (fresh_run_relation (fun a b => Extends (bingoCards a) (bingoCards b)))
      with (evs := evs);
      [intros; apply Extends_refl | intros a b c; apply Extends_trans
      | apply store_extends | exact Hfresh | exact Hrun]. }
  split; [exact HE|]. destruct HE as (kept & later & -> & HF).
  split.
  - rewrite length_app, (Forall2_length _ _ _ HF). lia.
  - intros j c Hj. destruct (Forall2_lookup_l _ _ _ _ _ HF Hj) as (c' & Hc' & HG).
    exists c'. split; [|exact HG]. apply lookup_app_l_Some, Hc'.
Qed.

Lemma store_only_grows_witness :
  exists w1 w2 c,
    run earlyCardSession initialWorld = Some w1 /\
    ReadsFresh [FileChosen "B uno"; Play; FileLoaded 0;
                Message (Some (wordSelected "uno" ["A"; "B"]))] w1 /\
    run [FileChosen "B uno"; Play; FileLoaded 0;
         Message (Some (wordSelected "uno" ["A"; "B"]))] w1 = Some w2 /\
    length (bingoCards w1) <= length (bingoCards w2) /\
    bingoCards w2 !! 0 = Some c /\ id c = "A" /\ transmitted c = true.
Proof.
  pose (evs := [FileChosen "B uno"; Play; FileLoaded 0;
                Message (Some (wordSelected "uno" ["A"; "B"]))]).
  destruct (run earlyCardSession initialWorld) as [w1|] eqn:H1;
    [|vm_compute in H1; discriminate].
  assert (Hfresh : ReadsFresh evs w1)
    by (vm_compute in H1; injection H1 as <-; vm_compute; repeat split).
  destruct (run evs w1) as [w2|] eqn:H2;
    [|vm_compute in H1; injection H1 as <-; vm_compute in H2; discriminate].
  destruct (store_only_grows _ _ _ Hfresh H2) as (_ & Hlen & Hpos).
  destruct (bingoCards w1 !! 0) as [c0|] eqn:Hc0;
    [|vm_compute in H1; injection H1 as <-; discriminate].
  destruct (Hpos 0 c0 Hc0) as (c & Hc & Hid & _ & _ & Ht & _).
  exists w1, w2, c. split; [reflexivity|]. split; [exact Hfresh|]. split; [exact H2|].
  split; [exact Hlen|]. split; [exact Hc|].
  vm_compute in H1. injection H1 as <-. vm_compute in Hc0. injection Hc0 as <-.
  split; [exact Hid | apply Ht; reflexivity].
Defined.

(** ** Selection and the transmission counter *)

Lemma bestCardIndex_bound (updated : list Card) (lang : option JSON) :
  bestCardIndex updated lang = 0 \/ bestCardIndex updated lang < length updated.
Proof.
  destruct (bestCardIndex_cases updated lang)
    as [[(c & Hc & _) _] | [_ [[(c & Hc & _) _] | [_ H]]]].
  - right. apply (lookup_lt_Some _ _ _ Hc).
  - right. apply (lookup_lt_Some _ _ _ Hc).
  - left. exact H.
Qed.

Lemma selectionOk_longer (w : World) (n : nat) (ts : list Timer) :
  length (bingoCards w) <= n ->
  Forall (fun t => match t with
                   | SelectBest updated _ => length updated <= length (bingoCards w)
                   | TransmitMore _ => True
                   end) ts ->
  Forall (fun t => match t with
                   | SelectBest updated _ => length updated <= n
                   | TransmitMore _ => True
                   end) ts.
Proof.
  intros Hn H. eapply Forall_impl; [exact H|].
  intros [updated lang|u]; [lia | auto].
Qed.

Lemma selection_kept (w w' : World) : Prim w w' -> selectionOk w -> selectionOk w'.
Proof.
  intros HP [Hsel Htim]. destruct HP; unfold selectionOk;
    cbn [bingoCards timers selectedCardIndex setSocketRef setWire setBingoCards
         setTimers setIsTransmitting setSelectedCardIndex setReaders].
  - destruct H as (_ & -> & -> & _ & -> & _). split; assumption.
  - split; assumption.
  - split; assumption.
  - split; assumption.
  - split; assumption.
  - rewrite length_app. split; [lia|].
    apply (selectionOk_longer w); [lia | exact Htim].
  - pose proof (Forall2_length _ _ _ (proj1 (mapM_Some _ _ _) H)) as Hlen.
    rewrite <- Hlen. split; [exact Hsel|].
    apply Forall_app. split; [exact Htim|]. repeat constructor. lia.
  - split; assumption.
  - split; assumption.
  - destruct (transmitNextCard_cases w) as [[_ ->] | (i & card & _ & _ & _ & ->)];
      [split; assumption|].
    cbn [bingoCards timers selectedCardIndex setBingoCards setTimers].
    rewrite length_alter.
    replace (selectedCardIndex (sendBingoCard i card w)) with (selectedCardIndex w)
      by (unfold sendBingoCard; destruct (socketIsOpen _); reflexivity).
    split; [exact Hsel|]. apply Forall_app. split; [exact Htim|]. repeat constructor.
  - pose proof (Forall_lookup_1 _ _ _ _ Htim H) as Hk. simpl in Hk.
    split; [|apply Forall_delete, Htim].
    destruct (bestCardIndex_bound updated lang) as [->|Hlt]; [left; reflexivity|].
    right. lia.
  - split; [exact Hsel | apply Forall_delete, Htim].
  - split; assumption.
  - split; assumption.
Qed.

(** X5. In every state of a session in which no read completes on a
    store that has changed since its file was chosen, the selected index
    is a position of the store whenever the store is not empty (and 0 when
    it is): the displayed card [bingoCards[selectedCardIndex]] is defined
    once a card is loaded. *)
Theorem selected_card_exists (w : World) :
  reachableFresh w ->
  (bingoCards w = [] /\ selectedCardIndex w = 0) \/
  exists c, bingoCards w !! selectedCardIndex w = Some c.
Proof.
  intros (evs & Hfresh & Hrun).
  assert (HI : selectionOk w).
  { apply (fresh_run_invariant selectionOk selection_kept _ _ _ Hfresh Hrun).
    split; [left; reflexivity | constructor]. }
  destruct HI as [[H0|Hlt] _].
  - destruct (bingoCards w) as [|c cs] eqn:Hc; [left; auto|].
    right. exists c. rewrite H0. reflexivity.
  - right. apply lookup_lt_is_Some_2 in Hlt as [c Hc]. eauto.
Qed.

Lemma selected_card_exists_witness :
  exists w c,
    run spanishRoundSession initialWorld = Some w /\
    bingoCards w !! selectedCardIndex w = Some c.
Proof.
  destruct (run spanishRoundSession initialWorld) as [w|] eqn:Hrun;
    [|vm_compute in Hrun; discriminate].
  assert (Hfresh : ReadsFresh spanishRoundSession initialWorld)
    by (vm_compute; repeat split).
  destruct (selected_card_exists w
              (ex_intro _ spanishRoundSession (conj Hfresh Hrun)))
    as [[Hnil _] | [c Hc]].
  - vm_compute in Hrun. injection Hrun as <-. discriminate Hnil.
  - exists w, c. split; [reflexivity | exact Hc].
Defined.

Lemma count_prefix {A : Type} (f : A -> bool) (l : list A) :
  forall n,
    n <= length l ->
    (forall j c, l !! j = Some c -> (f c = true <-> j < n)) ->
    length (List.filter f l) = n.
Proof.
  induction l as [|x l IH]; intros n Hn H; simpl in *; [lia|].
  destruct n as [|n].
  - destruct (f x) eqn:Hx; [apply (H 0 x eq_refl) in Hx; lia|].
    apply (IH 0); [lia|]. intros j c Hj. specialize (H (S j) c Hj). split; [|lia].
    intros Hc. apply H in Hc. lia.
  - destruct (f x) eqn:Hx.
    + simpl. f_equal. apply IH; [lia|]. intros j c Hj.
      specialize (H (S j) c Hj). rewrite H. lia.
    + assert (Hx' : f x = true) by (apply (H 0 x eq_refl); lia). congruence.
Qed.

(** X6. In every state of a session in which no read completes on a
    store that has changed since its file was chosen, the counter
    [transmittedCount] is the number of calls of [sendBingoCard] made so
    far; it never exceeds the number of cards, and it equals it exactly
    when no stored card is untransmitted. *)
Theorem transmittedCount_counts_sends (w : World) :
  reachableFresh w ->
  transmittedCount w = length (sendCalls w) /\
  transmittedCount w <= length (bingoCards w) /\
  (transmittedCount w = length (bingoCards w) <->
   hasUntransmitted (bingoCards w) = false).
Proof.
  intros Hr. destruct (sends_follow_store_order w Hr) as [_ Hb Hf _ _].
  assert (Hc : transmittedCount w = length (sendCalls w)).
  { unfold transmittedCount. apply count_prefix; [exact Hb|].
    intros j c Hj. rewrite <- (Hf j c Hj). destruct (transmitted c); simpl; tauto. }
  split; [exact Hc|]. split; [lia|]. rewrite Hc. split.
  - intros Hall. unfold hasUntransmitted.
    destruct (existsb _ _) eqn:He; [|reflexivity].
    apply existsb_exists in He as (c & Hin & Hc').
    apply list_elem_of_In, list_elem_of_lookup in Hin as [j Hj].
    apply negb_true_iff in Hc'. pose proof (lookup_lt_Some _ _ _ Hj) as Hlt.
    assert (transmitted c = true) by (apply (Hf j c Hj); lia). congruence.
  - intros Hnone.
    destruct (Nat.lt_ge_cases (length (sendCalls w)) (length (bingoCards w)))
      as [Hlt|Hge]; [|lia].
    apply lookup_lt_is_Some_2 in Hlt as [c Hj]. exfalso.
    assert (Hun : transmitted c = false).
    { destruct (transmitted c) eqn:Ht; [|reflexivity].
      apply (Hf _ _ Hj) in Ht. lia. }
    unfold hasUntransmitted in Hnone.
    assert (He : existsb (fun card => negb (transmitted card)) (bingoCards w) = true).
    { apply existsb_exists. exists c. split; [|rewrite Hun; reflexivity].
      apply list_elem_of_In, list_elem_of_lookup. eauto. }
    congruence.
Qed.

Lemma transmittedCount_counts_sends_witness :
  exists w,
    run (lateCardSession ++ [FileChosen "C tres"; FileLoaded 0]) initialWorld = Some w /\
    transmittedCount w = length (sendCalls w) /\
    transmittedCount w <= length (bingoCards w).
Proof.
  destruct (run (lateCardSession ++ [FileChosen "C tres"; FileLoaded 0]) initialWorld)
    as [w|] eqn:Hrun; [|vm_compute in Hrun; discriminate].
  assert (Hfresh : ReadsFresh (lateCardSession ++ [FileChosen "C tres"; FileLoaded 0])
                     initialWorld) by (vm_compute; repeat split).
  destruct (transmittedCount_counts_sends w (ex_intro _ _ (conj Hfresh Hrun)))
    as (H1 & H2 & _).
  exists w. split; [reflexivity|]. split; assumption.
Defined.

(** ** Socket traffic *)

Lemma socketIsOpen_socketRef (w : World) :
  socketIsOpen w = true <-> exists name, socketRef w = Some (mkSocket OPEN name).
Proof.
  unfold socketIsOpen. destruct (socketRef w) as [[[] name]|]; split;
    try discriminate; try (intros [n [=]]); eauto.
Qed.

Lemma sendBingoCard_cases (i : nat) (card : Card) (w : World) :
  (socketIsOpen w = true /\
   sendBingoCard i card w =
     setWire (wire w ++ [cardMsg card]) (setSendCalls (sendCalls w ++ [(i, card)]) w)) \/
  (socketIsOpen w = false /\
   sendBingoCard i card w = setSendCalls (sendCalls w ++ [(i, card)]) w).
Proof.
  unfold sendBingoCard.
  replace (socketIsOpen (setSendCalls (sendCalls w ++ [(i, card)]) w))
    with (socketIsOpen w) by reflexivity.
  destruct (socketIsOpen w); [left | right]; split; reflexivity.
Qed.

Lemma wire_kept_prim (w w' : World) : Prim w w' -> WireInv w -> WireInv w'.
Proof.
  intros HP [H1 H2 H3 H4]. destruct HP.
  - destruct H as (Hs & _ & _ & _ & _ & Hw & Hc & _).
    constructor; unfold notYetOpen, socketIsOpen in *; rewrite ?Hs, ?Hw, ?Hc; assumption.
  - assert (Hw : wire w = []) by (apply H1; left; assumption).
    constructor; cbn [wire sendCalls setSocketRef]; try assumption; rewrite ?Hw; auto;
      try (intros Ho; discriminate Ho).
  - assert (Hw : wire w = []) by (apply H1; right; eauto).
    constructor; unfold notYetOpen;
      cbn [wire sendCalls socketRef setSocketRef setWire]; rewrite ?Hw; simpl.
    + intros [Hn|[n Hn]]; discriminate Hn.
    + discriminate.
    + right. exists OPEN, name, []. repeat split. constructor.
    + apply sublist_nil_l.
  - constructor; unfold notYetOpen;
      cbn [wire sendCalls socketRef setSocketRef]; try assumption.
    + intros [Hn|[n Hn]]; discriminate Hn.
    + intros Ho. discriminate Ho.
    + destruct H3 as [Hw|(st0 & name0 & rest & Hs & Hw & Hr)]; [left; exact Hw|].
      right. rewrite H in Hs. injection Hs as <- <-.
      exists CLOSED, name, rest. auto.
  - pose proof (H2 H) as Hne.
    destruct H3 as [Hw|(st0 & name0 & rest & Hs & Hw & Hr)]; [contradiction|].
    constructor; unfold notYetOpen;
      cbn [wire sendCalls socketRef setWire].
    + intros Hny. apply H1 in Hny. contradiction.
    + intros _ E. apply app_eq_nil in E as [_ E]. discriminate E.
    + right. exists st0, name0, (rest ++ [PlayMsg]). rewrite Hw. split; [exact Hs|].
      split; [reflexivity|]. apply Forall_app. split; [exact Hr|]. repeat constructor.
    + rewrite List.filter_app. simpl. rewrite app_nil_r. exact H4.
  - constructor; assumption.
  - constructor; assumption.
  - constructor; assumption.
  - constructor; assumption.
  - destruct (transmitNextCard_cases w) as [[_ ->] | (i & card & _ & _ & _ & ->)];
      [constructor; assumption|].
    destruct (sendBingoCard_cases i card w) as [[Ho E] | [Ho E]]; rewrite E.
    + pose proof (H2 Ho) as Hne.
      destruct H3 as [Hw|(st0 & name0 & rest & Hs & Hw & Hr)]; [contradiction|].
      constructor; unfold notYetOpen;
        cbn [wire sendCalls socketRef setWire setBingoCards setTimers setSendCalls].
      * intros Hny. apply H1 in Hny. contradiction.
      * intros _ E'. apply app_eq_nil in E' as [_ E']. discriminate E'.
      * right. exists st0, name0, (rest ++ [cardMsg card]). rewrite Hw.
        split; [exact Hs|]. split; [reflexivity|].
        apply Forall_app. split; [exact Hr|]. repeat constructor.
      * rewrite List.filter_app, map_app. simpl. apply sublist_app; [exact H4|].
        reflexivity.
    + constructor; unfold notYetOpen;
        cbn [wire sendCalls socketRef setWire setBingoCards setTimers setSendCalls];
        try assumption.
      rewrite map_app. apply sublist_inserts_r, H4.
  - constructor; assumption.
  - constructor; assumption.
  - constructor; assumption.
  - constructor; assumption.
Qed.

Lemma wire_kept (w w' : World) : Change w w' -> WireInv w -> WireInv w'.
Proof.
  intros HC Inv. destruct HC as [w w' HP | w reader newCards _ _ _];
    [apply (wire_kept_prim _ _ HP Inv)|].
  destruct Inv as [H1 H2 H3 H4]. constructor; assumption.
Qed.

Lemma WireInv_initial : WireInv initialWorld.
Proof.
  constructor; simpl; auto;
    first [intros H; discriminate H | apply sublist_nil_l].
Qed.

(** X7. In every state of a session: nothing has been written to the
    socket before it opened; the first message written is the registration
    with the name the socket was created for, and it is the only
    registration; the card messages written are, in the order of the
    calls, among the cards handed to [sendBingoCard]: no card reaches the
    socket without a call made for it, and none out of the order of the
    calls. *)
Theorem socket_traffic_shape (w : World) :
  reachable w ->
  (notYetOpen w -> wire w = []) /\
  (wire w = [] \/
   exists st name rest,
     socketRef w = Some (mkSocket st name) /\
     wire w = RegisterMsg name :: rest /\
     Forall (fun m => isRegisterMsg m = false) rest) /\
  List.filter isCardMsg (wire w) `sublist_of`
    map (fun call => cardMsg (snd call)) (sendCalls w).
Proof.
  intros [evs Hrun].
  destruct (run_invariant WireInv wire_kept _ _ _ Hrun WireInv_initial) as [H1 _ H3 H4].
  auto.
Qed.

Lemma socket_traffic_shape_witness :
  exists w,
    run (droppedSendSession ++ lateReadSession) initialWorld = Some w /\
    List.filter isCardMsg (wire w) `sublist_of`
      map (fun call => cardMsg (snd call)) (sendCalls w).
Proof.
  destruct (run (droppedSendSession ++ lateReadSession) initialWorld) as [w|] eqn:Hrun;
    [|vm_compute in Hrun; discriminate].
  exists w. split; [reflexivity|].
  apply (socket_traffic_shape w (ex_intro _ _ Hrun)).
Defined.

Lemma closed_kept (name : string) (sent : list Outbound) (w w' : World) :
  Change w w' ->
  socketRef w = Some (mkSocket CLOSED name) /\ wire w = sent ->
  socketRef w' = Some (mkSocket CLOSED name) /\ wire w' = sent.
Proof.
  intros HC [Hs Hw].
  assert (Hclosed : socketIsOpen w = false) by (unfold socketIsOpen; rewrite Hs; reflexivity).
  destruct HC as [w w' HP | w reader newCards _ _ _]; [|split; assumption].
  destruct HP; cbn [wire socketRef setSocketRef setWire setBingoCards setTimers
                    setIsTransmitting setSelectedCardIndex setReaders];
    try (split; assumption); try congruence.
  - destruct H as (-> & _ & _ & _ & _ & -> & _). split; assumption.
  - rewrite H in Hs. injection Hs as -> ->. split; [reflexivity | exact Hw].
  - destruct (transmitNextCard_cases w) as [[_ ->] | (i & card & _ & _ & _ & ->)];
      [split; assumption|].
    destruct (sendBingoCard_cases i card w) as [[Ho _] | [_ ->]]; [congruence|].
    split; assumption.
Qed.

(** X8. Once the socket has closed it stays closed and nothing is written
    to it any more, whatever events follow: no second connection is made
    and no message is queued for later. *)
Theorem closed_socket_is_final (evs : list Event) (name : string) (w w' : World) :
  socketRef w = Some (mkSocket CLOSED name) ->
  run evs w = Some w' ->
  socketRef w' = Some (mkSocket CLOSED name) /\ wire w' = wire w.
Proof.
  intros Hs Hrun.
  apply (run_invariant
           (fun x => socketRef x = Some (mkSocket CLOSED name) /\ wire x = wire w)
           (closed_kept name (wire w)) _ _ _ Hrun).
  split; [exact Hs | reflexivity].
Qed.

Lemma closed_socket_is_final_witness :
  exists w w',
    run [Register "Ana"; SocketOpens; SocketCloses] initialWorld = Some w /\
    run [Register "Eva"; SocketOpens; ManualSubmit "A" "uno"; Play; TimerFires 0] w
      = Some w' /\
    socketRef w' = Some (mkSocket CLOSED "Ana") /\
    wire w' = [RegisterMsg "Ana"] /\
    length (sendCalls w') = 1.
Proof.
  destruct (run [Register "Ana"; SocketOpens; SocketCloses] initialWorld)
    as [w|] eqn:H1; [|vm_compute in H1; discriminate].
  assert (Hw : w = setWire [RegisterMsg "Ana"]
                     (setSocketRef (Some (mkSocket CLOSED "Ana")) initialWorld)).
  { vm_compute in H1. injection H1 as <-. reflexivity. }
  destruct (run [Register "Eva"; SocketOpens; ManualSubmit "A" "uno"; Play; TimerFires 0] w)
    as [w'|] eqn:H2; [|rewrite Hw in H2; vm_compute in H2; discriminate].
  destruct (closed_socket_is_final _ "Ana" w w' ltac:(rewrite Hw; reflexivity) H2)
    as [Hs Hwire].
  exists w, w'. split; [reflexivity|]. split; [exact H2|]. split; [exact Hs|].
  split; [rewrite Hwire, Hw; reflexivity|].
  rewrite Hw in H2. vm_compute in H2. injection H2 as <-. reflexivity.
Defined.

(** ** Inbound messages and the two ways they can end *)



Lemma handle_cases (data : JSON) (w : World) :
  (handleWebSocketMessage data w = Throws /\ data = JNull) \/
  (exists w', handleWebSocketMessage data w = Returns (Some w') /\ sameCore w w') \/
  (typeTag data = Some (JStr "word_selected") /\
   handleWebSocketMessage data w =
     Returns
       (match markCards data (bingoCards w) with
        | None => None
        | Some updated =>
            Some (setBingoCards updated
                    (setTimers (timers w ++ [SelectBest updated (getProp data "language")])
                               (setCurrentWord (getProp data "word") w)))
        end)).
Proof.
  destruct data as [| | | | |fields];
    try (right; left; eexists; split; [reflexivity | repeat split; reflexivity]);
    [left; split; reflexivity|].
  destruct (typeTag (JObj fields)) as [[| | |tag| |]|] eqn:Htag;
    try (right; left; eexists; unfold handleWebSocketMessage; rewrite Htag;
         split; [reflexivity | repeat split; reflexivity]).
  destruct (String.eqb_spec tag "word_selected") as [->|Hne].
  - right. right. split; [reflexivity|]. apply handle_word_selected, Htag.
  - right. left. unfold handleWebSocketMessage. rewrite Htag.
    apply String.eqb_neq in Hne. rewrite Hne.
    repeat (match goal with
            | |- context [String.eqb tag ?s] => destruct (String.eqb tag s)
            end;
            try (eexists; split; [reflexivity | repeat split; reflexivity])).
Qed.

(** X9. Handling an inbound message never writes to the socket and never
    calls [sendBingoCard]; it leaves the socket, the drain flag, the
    selection, the number of cards and every card's id, words, language
    and transmitted flag as they were; the only timer it can add is one
    deferred selection. *)
Theorem inbound_message_sends_nothing (parsed : option JSON) (w w' : World) :
  step (Message parsed) w = Some w' ->
  wire w' = wire w /\ sendCalls w' = sendCalls w /\
  socketRef w' = socketRef w /\ isTransmitting w' = isTransmitting w /\
  selectedCardIndex w' = selectedCardIndex w /\
  SameFlags (bingoCards w) (bingoCards w') /\
  (timers w' = timers w \/
   exists lang, timers w' = timers w ++ [SelectBest (bingoCards w') lang]).
Proof.
  unfold step, handle, onmessage.
  assert (Hcore : forall w1, sameCore w w1 ->
            Some (afterRender w w1) = Some w' ->
            wire w' = wire w /\ sendCalls w' = sendCalls w /\
            socketRef w' = socketRef w /\ isTransmitting w' = isTransmitting w /\
            selectedCardIndex w' = selectedCardIndex w /\
            SameFlags (bingoCards w) (bingoCards w') /\
            (timers w' = timers w \/
             exists lang, timers w' = timers w ++ [SelectBest (bingoCards w') lang])).
  { intros w1 (Hs & Hc & Hsel & Hi & Ht & Hw & Hcalls & _). unfold afterRender.
    rewrite Hc, Nat.eqb_refl. intros [= <-].
    rewrite Hc. repeat split; auto. apply SameFlags_refl. }
  destruct parsed as [data|]; [|apply Hcore; repeat split; reflexivity].
  destruct (handle_cases data w) as [[-> _] | [(w1 & -> & Hsame) | [_ ->]]].
  - apply Hcore. repeat split; reflexivity.
  - apply Hcore, Hsame.
  - destruct (markCards data (bingoCards w)) as [updated|] eqn:Hm; [|discriminate].
    pose proof (markCards_keeps _ _ _ Hm) as HF.
    unfold afterRender. cbn [bingoCards setBingoCards].
    rewrite (Forall2_length _ _ _ HF), Nat.eqb_refl. intros [= <-].
    cbn. repeat split; auto. right. eauto.
Qed.

Lemma inbound_message_sends_nothing_witness :
  exists w',
    step (Message (Some (wordSelected "d1" ["D"]))) worldDE = Some w' /\
    wire w' = [] /\ sendCalls w' = [] /\ isTransmitting w' = false /\
    map transmitted (bingoCards w') = [false; false].
Proof.
  destruct (step (Message (Some (wordSelected "d1" ["D"]))) worldDE) as [w'|] eqn:Hs;
    [|vm_compute in Hs; discriminate].
  destruct (inbound_message_sends_nothing _ _ _ Hs) as (H1 & H2 & _ & H4 & _).
  exists w'. split; [reflexivity|]. split; [exact H1|]. split; [exact H2|].
  split; [exact H4|]. vm_compute in Hs. injection Hs as <-. reflexivity.
Defined.



(** ** A drain that is left alone *)

Lemma find_pending (cards : list Card) :
  forall k i card,
    list_find untransmitted cards = Some (i, card) ->
    pendingFrom k cards = (k + i, card) :: pendingFrom k (alter setTransmitted i cards).
Proof.
  induction cards as [|c rest IH]; intros k i card Hf; [discriminate|].
  simpl in Hf. unfold untransmitted in Hf at 1.
  destruct (decide (transmitted c = false)) as [Hc|Hc].
  - injection Hf as <- <-. simpl. rewrite Hc. simpl. rewrite Nat.add_0_r. reflexivity.
  - destruct (list_find untransmitted rest) as [[i' card']|] eqn:Hr; [|discriminate].
    simpl in Hf. injection Hf as <- <-.
    destruct (transmitted c) eqn:Ht; [|congruence].
    simpl. rewrite Ht, (IH (S k) i' card' eq_refl).
    replace (S k + i') with (k + S i') by lia. reflexivity.
Qed.

Lemma none_pending (cards : list Card) :
  forall k,
    pendingFrom k cards = [] ->
    list_find untransmitted cards = None /\
    hasUntransmitted cards = false /\
    map setTransmitted cards = cards.
Proof.
  induction cards as [|c rest IH]; intros k H; [repeat split; reflexivity|].
  simpl in H. destruct (transmitted c) eqn:Ht; [|discriminate].
  destruct (IH _ H) as (Hf & Hh & Hm). simpl. unfold untransmitted at 1.
  destruct (decide (transmitted c = false)) as [Hc|_]; [congruence|].
  rewrite Hf. unfold hasUntransmitted in *. simpl. rewrite Ht, Hh, Hm.
  repeat split; try reflexivity. f_equal. destruct c. simpl in Ht. subst. reflexivity.
Qed.

Lemma some_pending (cards : list Card) :
  forall k,
    pendingFrom k cards <> [] ->
    hasUntransmitted cards = true /\
    exists i card, list_find untransmitted cards = Some (i, card).
Proof.
  induction cards as [|c rest IH]; intros k H; [exfalso; apply H; reflexivity|].
  simpl in H. unfold hasUntransmitted. simpl. unfold untransmitted at 1.
  destruct (decide (transmitted c = false)) as [Hc|Hc].
  - rewrite Hc. split; eauto.
  - destruct (transmitted c) eqn:Ht; [|congruence].
    destruct (IH _ H) as (Hh & i & card & Hf).
    split; [exact Hh|]. rewrite Hf. simpl. eauto.
Qed.

Lemma map_setTransmitted_alter (cards : list Card) (i : nat) :
  map setTransmitted (alter setTransmitted i cards) = map setTransmitted cards.
Proof.
  revert i. induction cards as [|c rest IH]; intros [|i]; simpl; try reflexivity.
  f_equal. apply IH.
Qed.

Lemma pendingFrom_map (f : nat * Card -> Outbound) (cards : list Card) (k : nat) :
  forall i card,
    list_find untransmitted cards = Some (i, card) ->
    map f (pendingFrom k cards) =
    f (k + i, card) :: map f (pendingFrom k (alter setTransmitted i cards)).
Proof. intros i card Hf. rewrite (find_pending _ _ _ _ Hf). reflexivity. Qed.

Lemma run_cons (ev : Event) (rest : list Event) (w w1 : World) :
  step ev w = Some w1 -> run (ev :: rest) w = run rest w1.
Proof. intros H. simpl. rewrite H. reflexivity. Qed.

Lemma socketRef_sendBingoCard (i : nat) (card : Card) (w : World) :
  socketRef (sendBingoCard i card w) = socketRef w.
Proof. unfold sendBingoCard. destruct (socketIsOpen _); reflexivity. Qed.

Lemma drain_runs (n : nat) :
  forall w,
    timers w = [TransmitMore (bingoCards w)] ->
    length (pendingCalls (bingoCards w)) = n ->
    exists w',
      run (replicate (S n) (TimerFires 0)) w = Some w' /\
      bingoCards w' = map setTransmitted (bingoCards w) /\
      sendCalls w' = sendCalls w ++ pendingCalls (bingoCards w) /\
      wire w' = wire w ++
                (if socketIsOpen w
                 then map (fun call => cardMsg (snd call)) (pendingCalls (bingoCards w))
                 else []) /\
      timers w' = [] /\ isTransmitting w' = false.
Proof.
  unfold pendingCalls.
  induction n as [|n IH]; intros w Ht Hn.
  - apply length_zero_iff_nil in Hn.
    destruct (none_pending _ _ Hn) as (_ & Hh & Hm).
    eexists. simpl. unfold step. simpl. rewrite Ht. simpl. rewrite Hh.
    unfold afterRender. cbn [bingoCards setIsTransmitting setTimers].
    rewrite Nat.eqb_refl. split; [reflexivity|].
    cbn [bingoCards sendCalls wire timers isTransmitting setIsTransmitting setTimers].
    rewrite Hn, Hm. simpl map.
    destruct (socketIsOpen w); rewrite !app_nil_r; repeat split; reflexivity.
  - assert (Hne : pendingFrom 0 (bingoCards w) <> []).
    { intros E. rewrite E in Hn. discriminate. }
    destruct (some_pending _ _ Hne) as (Hh & i & card & Hf).
    pose proof (find_pending _ 0 _ _ Hf) as Hp. simpl in Hp.
    set (w0 := setTimers [] w).
    destruct (transmitNextCard_cases w0) as [[E _] | (i0 & card0 & Hf0 & _ & _ & E)];
      [unfold w0 in E; cbn [bingoCards setTimers] in E; congruence|].
    unfold w0 in Hf0. cbn [bingoCards setTimers] in Hf0.
    rewrite Hf in Hf0. injection Hf0 as <- <-.
    remember (transmitNextCard w0) as w2 eqn:Hw2.
    assert (Hstep : step (TimerFires 0) w = Some w2).
    { unfold step. simpl. rewrite Ht. simpl. rewrite Hh. fold w0. rewrite <- Hw2.
      unfold afterRender. rewrite E. cbn [bingoCards setBingoCards].
      rewrite length_alter, Nat.eqb_refl. reflexivity. }
    assert (Hc2 : bingoCards w2 = alter setTransmitted i (bingoCards w))
      by (rewrite E; reflexivity).
    assert (Ht2 : timers w2 = [TransmitMore (bingoCards w2)]).
    { rewrite Hc2, E. cbn [timers setBingoCards setTimers]. reflexivity. }
    assert (Hn2 : length (pendingFrom 0 (bingoCards w2)) = n).
    { rewrite Hc2. rewrite Hp in Hn. simpl in Hn. lia. }
    destruct (IH w2 Ht2 Hn2) as (w' & Hrun & Hcards & Hcalls & Hwire & Htim & Hflag).
    exists w'. change (replicate (S (S n)) (TimerFires 0))
      with (TimerFires 0 :: replicate (S n) (TimerFires 0)).
    rewrite (run_cons _ _ _ _ Hstep). split; [exact Hrun|].
    split; [rewrite Hcards, Hc2; apply map_setTransmitted_alter|].
    assert (Hopen : socketIsOpen w2 = socketIsOpen w).
    { rewrite E. unfold socketIsOpen. cbn [socketRef setBingoCards setTimers].
      rewrite socketRef_sendBingoCard. reflexivity. }
    split; [|split; [|split; assumption]].
    + rewrite Hcalls, Hc2, E. cbn [sendCalls setBingoCards setTimers].
      rewrite sendCalls_sendBingoCard, Hp, <- app_assoc. reflexivity.
    + rewrite Hwire, Hopen, Hc2, Hp.
      replace (wire w2) with
        (wire w ++ (if socketIsOpen w then [cardMsg card] else [])).
      * destruct (socketIsOpen w); simpl; rewrite <- app_assoc; reflexivity.
      * rewrite E. cbn [wire setBingoCards setTimers].
        destruct (sendBingoCard_cases i card w0) as [[Ho ->] | [Ho ->]];
          unfold w0 in *; unfold socketIsOpen in *;
          cbn [wire socketRef setWire setSendCalls setTimers] in *; rewrite Ho;
          [reflexivity | apply app_nil_r].
Qed.

Lemma hasUntransmitted_app_new (cards newCards : list Card) :
  newCards <> [] -> Forall untransmitted newCards ->
  pendingFrom 0 (cards ++ newCards) <> [].
Proof.
  intros Hne Hnew. generalize 0.
  induction cards as [|c rest IH]; intros k; simpl.
  - destruct newCards as [|x xs]; [congruence|]. simpl.
    inversion Hnew as [|? ? Hx _]; subst. unfold untransmitted in Hx. rewrite Hx.
    discriminate.
  - destruct (transmitted c); [apply IH | discriminate].
Qed.

(** X11. When a file is chosen while no drain is running or pending, its
    read completes before anything else happens, and the pacing timers
    then fire with no other event in between, every untransmitted card of
    the store (the new ones, and any that an earlier drain left behind) is
    handed to [sendBingoCard] once, in store order; written to the socket
    in that order if it is open; all cards end up flagged transmitted and
    the queue is idle again. *)
Theorem file_drain_delivers_all (content : string) (w : World) :
  timers w = [] -> isTransmitting w = false -> parseTxtFile content <> [] ->
  exists w',
    run (FileChosen content :: FileLoaded (length (readers w)) ::
         replicate (length (pendingCalls (bingoCards w ++ parseTxtFile content)))
                   (TimerFires 0)) w = Some w' /\
    bingoCards w' = map setTransmitted (bingoCards w ++ parseTxtFile content) /\
    sendCalls w' =
      sendCalls w ++ pendingCalls (bingoCards w ++ parseTxtFile content) /\
    wire w' = wire w ++
              (if socketIsOpen w
               then map (fun call => cardMsg (snd call))
                        (pendingCalls (bingoCards w ++ parseTxtFile content))
               else []) /\
    timers w' = [] /\ isTransmitting w' = false.
Proof.
  intros Ht Hflag Hne. unfold pendingCalls.
  remember (parseTxtFile content) as newCards eqn:Hnc.
  set (all := bingoCards w ++ newCards).
  assert (Hnew : Forall untransmitted newCards)
    by (rewrite Hnc; apply parseTxtFile_untransmitted).
  assert (Hpend : pendingFrom 0 all <> []) by (apply hasUntransmitted_app_new; assumption).
  destruct (some_pending _ _ Hpend) as (Hh & i & card & Hf).
  pose proof (find_pending _ 0 _ _ Hf) as Hp. simpl in Hp.
  set (reader := mkFileReader (bingoCards w) content).
  set (wa := setReaders (readers w ++ [reader]) w).
  set (w1 := setIsTransmitting true
               (setReaders (delete (length (readers w)) (readers wa))
                  (setBingoCards all wa))).
  destruct (transmitNextCard_cases w1) as [[E _] | (i0 & card0 & Hf0 & _ & _ & E)];
    [unfold w1 in E; cbn [bingoCards setBingoCards setIsTransmitting setReaders] in E;
     congruence|].
  unfold w1 in Hf0. cbn [bingoCards setBingoCards setIsTransmitting setReaders] in Hf0.
  rewrite Hf in Hf0. injection Hf0 as <- <-.
  remember (transmitNextCard w1) as w2 eqn:Hw2.
  assert (Hchosen : step (FileChosen content) w = Some wa).
  { unfold step. simpl handle. unfold afterRender, handleFileUpload.
    cbn [bingoCards setReaders]. rewrite Nat.eqb_refl. reflexivity. }
  assert (Hstep : step (FileLoaded (length (readers w))) wa = Some w2).
  { assert (Hpos : 0 < length newCards).
    { destruct newCards; [congruence | simpl; lia]. }
    assert (Hk : readers wa !! length (readers w) = Some reader).
    { unfold wa. cbn [readers setReaders]. apply list_lookup_middle. reflexivity. }
    unfold step, handle. rewrite Hk. unfold onload.
    cbn [result closedOver reader]. rewrite <- Hnc.
    rewrite (proj2 (Nat.ltb_lt _ _) Hpos).
    change (bingoCards w ++ newCards) with all.
    unfold afterRender. cbn [bingoCards setBingoCards setReaders wa].
    assert (Hlen : (length (bingoCards w) =? length all) = false).
    { apply Nat.eqb_neq. unfold all. rewrite length_app. lia. }
    rewrite Hlen. unfold lengthEffect.
    cbn [bingoCards setBingoCards setReaders isTransmitting].
    assert (Hl0 : (length all =? 0) = false).
    { apply Nat.eqb_neq. unfold all. rewrite length_app. lia. }
    change (isTransmitting wa) with (isTransmitting w).
    rewrite Hl0, Hh, Hflag. cbn [andb negb]. fold w1. rewrite <- Hw2. reflexivity. }
  assert (Hc2 : bingoCards w2 = alter setTransmitted i all) by (rewrite E; reflexivity).
  assert (Ht2 : timers w2 = [TransmitMore (bingoCards w2)]).
  { rewrite Hc2, E. cbn [timers setBingoCards setTimers]. unfold w1.
    cbn [timers setBingoCards setIsTransmitting setReaders wa]. rewrite Ht. reflexivity. }
  destruct (drain_runs _ w2 Ht2 eq_refl)
    as (w' & Hrun & Hcards & Hcalls & Hwire & Htim & Hfl).
  unfold pendingCalls in *.
  exists w'. rewrite Hp. simpl length. rewrite <- Hc2.
  rewrite (run_cons _ _ _ _ Hchosen), (run_cons _ _ _ _ Hstep). split; [exact Hrun|].
  split; [rewrite Hcards, Hc2; apply map_setTransmitted_alter|].
  assert (Hopen : socketIsOpen w2 = socketIsOpen w).
  { rewrite E. unfold socketIsOpen. cbn [socketRef setBingoCards setTimers].
    rewrite socketRef_sendBingoCard. reflexivity. }
  split; [|split; [|split; assumption]].
  - rewrite Hcalls, E. cbn [sendCalls setBingoCards setTimers].
    rewrite sendCalls_sendBingoCard. unfold w1.
    cbn [sendCalls setBingoCards setIsTransmitting setReaders wa].
    rewrite <- app_assoc. reflexivity.
  - rewrite Hwire, Hopen.
    replace (wire w2) with
      (wire w ++ (if socketIsOpen w then [cardMsg card] else [])).
    + destruct (socketIsOpen w); simpl; rewrite <- app_assoc; reflexivity.
    + rewrite E. cbn [wire setBingoCards setTimers].
      destruct (sendBingoCard_cases i card w1) as [[Ho ->] | [Ho ->]];
        unfold w1, wa in *; unfold socketIsOpen in *;
        cbn [wire socketRef setWire setSendCalls setBingoCards setIsTransmitting
             setReaders] in *;
        rewrite Ho; [reflexivity | apply app_nil_r].
Qed.

Lemma file_drain_delivers_all_witness :
  exists w0 w',
    run lateCardSession initialWorld = Some w0 /\
    run [FileChosen "C tres"; FileLoaded 0; TimerFires 0; TimerFires 0] w0 = Some w' /\
    map (fun call => id (snd call)) (sendCalls w') = ["A"; "B"; "C"] /\
    map transmitted (bingoCards w') = [true; true; true] /\
    timers w' = [] /\ isTransmitting w' = false.
Proof.
  destruct (run lateCardSession initialWorld) as [w0|] eqn:H0;
    [|vm_compute in H0; discriminate].
  assert (Ht : timers w0 = []) by (vm_compute in H0; injection H0 as <-; reflexivity).
  assert (Hf : isTransmitting w0 = false)
    by (vm_compute in H0; injection H0 as <-; reflexivity).
  assert (Hp : parseTxtFile "C tres" <> []) by (vm_compute; discriminate).
  destruct (file_drain_delivers_all "C tres" w0 Ht Hf Hp)
    as (w' & Hrun & Hcards & Hcalls & _ & Ht' & Hf').
  exists w0, w'. split; [reflexivity|].
  vm_compute in H0. injection H0 as <-.
  split; [exact Hrun|]. rewrite Hcalls, Hcards. repeat split; assumption.
Defined.

(** ** The socket address *)

Lemma prefix_app (p rest : string) : String.prefix p (p +:+ rest) = true.
Proof.
  induction p as [|c p IH]; simpl; [destruct rest; reflexivity|].
  destruct (ascii_dec c c); [exact IH | congruence].
Qed.

Lemma dropChars_app (p rest : string) :
  JsUrl.dropChars (String.length p) (p +:+ rest) = rest.
Proof. induction p as [|c p IH]; simpl; [destruct rest; reflexivity | exact IH]. Qed.

Lemma replaceFirst_head (p rep rest : string) :
  JsUrl.replaceFirst p rep (p +:+ rest) = rep +:+ rest.
Proof.
  assert (Hunfold : forall s,
            JsUrl.replaceFirst p rep s =
            if String.prefix p s then rep +:+ JsUrl.dropChars (String.length p) s
            else match s with
                 | EmptyString => EmptyString
                 | String c r => String c (JsUrl.replaceFirst p rep r)
                 end) by (intros [|c r]; reflexivity).
  rewrite Hunfold, prefix_app, dropChars_app. reflexivity.
Qed.

Lemma SERVER_URL_not_empty (env : option string) : JsString.truthy (SERVER_URL env) = true.
Proof.
  unfold SERVER_URL. destruct env as [s|]; [|reflexivity].
  destruct (JsString.truthy s) eqn:E; [exact E | reflexivity].
Qed.

(** X12. The socket address always ends in [/ws/] followed by the user
    id. A server URL that starts with [http://] gives a [ws://] address
    and one that starts with [https://] gives a [wss://] address, the
    rest of the URL unchanged; any other server URL is prefixed with
    [wss://] when the page was loaded over https and with [ws://]
    otherwise. The page's host is never used, because the server URL is
    never empty: with no build variable, or an empty one, the address is
    that of [localhost:8000]. *)
Theorem getWebSocketUrl_scheme (env : option string)
    (locationProtocol locationHost userId : string) :
  (forall rest, SERVER_URL env = "http://" +:+ rest ->
     getWebSocketUrl env locationProtocol locationHost userId =
     "ws://" +:+ rest +:+ "/ws/" +:+ userId) /\
  (forall rest, SERVER_URL env = "https://" +:+ rest ->
     getWebSocketUrl env locationProtocol locationHost userId =
     "wss://" +:+ rest +:+ "/ws/" +:+ userId) /\
  (JsUrl.startsWith (SERVER_URL env) "http://" = false ->
   JsUrl.startsWith (SERVER_URL env) "https://" = false ->
   getWebSocketUrl env locationProtocol locationHost userId =
   (if String.eqb locationProtocol "https:" then "wss://" else "ws://") +:+
   SERVER_URL env +:+ "/ws/" +:+ userId) /\
  (env = None \/ env = Some EmptyString ->
   getWebSocketUrl env locationProtocol locationHost userId =
   "ws://localhost:8000/ws/" +:+ userId).
Proof.
  unfold getWebSocketUrl, JsUrl.startsWith.
  split; [|split; [|split]].
  - intros rest ->. rewrite prefix_app, replaceFirst_head. reflexivity.
  - intros rest ->.
    replace (String.prefix "http://" ("https://" +:+ rest)) with false by reflexivity.
    rewrite prefix_app, replaceFirst_head. reflexivity.
  - intros -> ->. rewrite SERVER_URL_not_empty.
    destruct (String.eqb locationProtocol "https:"); reflexivity.
  - intros [-> | ->]; reflexivity.
Qed.

Lemma getWebSocketUrl_scheme_witness :
  getWebSocketUrl (Some "https://bingo.example") "http:" "page" "u1" =
    "wss://bingo.example/ws/u1" /\
  getWebSocketUrl (Some "bingo.example:8000") "https:" "page" "u1" =
    "wss://bingo.example:8000/ws/u1" /\
  getWebSocketUrl None "https:" "page" "u1" = "ws://localhost:8000/ws/u1".
Proof.
  split; [|split].
  - apply (proj1 (proj2 (getWebSocketUrl_scheme (Some "https://bingo.example")
                           "http:" "page" "u1")) "bingo.example"). reflexivity.
  - apply (proj1 (proj2 (proj2 (getWebSocketUrl_scheme (Some "bingo.example:8000")
                                  "https:" "page" "u1")))); reflexivity.
  - apply (proj2 (proj2 (proj2 (getWebSocketUrl_scheme None "https:" "page" "u1")))).
    left. reflexivity.
Defined.

(** ** The grid of a stored card *)

Lemma detectLanguage_grid (n : nat) :
  exists config,
    configOf LANGUAGE_CONFIGS (detectLanguage n) = Some config /\
    rows config * cols config = total config /\
    (total config = n \/
     (~ In n declaredTotals /\ detectLanguage n = "spanish" /\ total config = 24)).
Proof.
  unfold detectLanguage, declaredTotals, LANGUAGE_CONFIGS. cbn -[Nat.eqb].
  destruct (Nat.eqb_spec 24 n) as [<-|H24]; [eexists; repeat split; auto|].
  destruct (Nat.eqb_spec 14 n) as [<-|H14]; [eexists; repeat split; auto|].
  destruct (Nat.eqb_spec 20 n) as [<-|H20]; [eexists; repeat split; auto|].
  destruct (Nat.eqb_spec 10 n) as [<-|H10]; [eexists; repeat split; auto|].
  eexists. split; [reflexivity|]. split; [reflexivity|]. right.
  split; [|split; reflexivity]. simpl. intuition congruence.
Qed.

(** X13. In every state of a session, the language of every stored card
    is a key of the profile table, so the grid component finds its
    configuration; that grid has rows x cols = total cells; the total is
    the card's number of words whenever that number is a declared total,
    and otherwise the card is drawn on the 24-cell Spanish grid whatever
    its number of words. *)
Theorem stored_card_grid (w : World) :
  reachable w ->
  forall c, c ∈ bingoCards w ->
    exists config,
      configOf LANGUAGE_CONFIGS (language c) = Some config /\
      rows config * cols config = total config /\
      (total config = length (words c) \/
       (~ In (length (words c)) declaredTotals /\
        language c = "spanish" /\ total config = 24)).
Proof.
  intros [evs Hrun] c Hc.
  pose proof (StoreInv_run _ _ Hrun) as HI.
  rewrite Forall_forall in HI. destruct (HI c Hc) as (_ & _ & _ & Hl & _).
  rewrite Hl. apply detectLanguage_grid.
Qed.

Lemma stored_card_grid_witness :
  exists w c config,
    run spanishRoundSession initialWorld = Some w /\
    bingoCards w !! 0 = Some c /\
    configOf LANGUAGE_CONFIGS (language c) = Some config /\
    rows config * cols config = total config.
Proof.
  destruct (run spanishRoundSession initialWorld) as [w|] eqn:Hrun;
    [|vm_compute in Hrun; discriminate].
  destruct (bingoCards w !! 0) as [c|] eqn:Hc;
    [|vm_compute in Hrun; injection Hrun as <-; discriminate].
  assert (Hin : c ∈ bingoCards w) by (apply list_elem_of_lookup; eauto).
  destruct (stored_card_grid w (ex_intro _ spanishRoundSession Hrun) c Hin)
    as (config & H1 & H2 & _).
  exists w, c, config. repeat split; assumption.
Defined.

(** ** Card ids given as one string *)

Lemma prefix_spec (p : string) :
  forall s, String.prefix p s = true <-> exists post, s = p +:+ post.
Proof.
  induction p as [|c p IH]; intros s.
  - split; [intros _; exists s; reflexivity | destruct s; reflexivity].
  - destruct s as [|c' s]; simpl; [split; [discriminate | intros [post [=]]]|].
    destruct (ascii_dec c c') as [->|Hne].
    + split.
      * intros H. apply IH in H as [post E]. exists post. rewrite E. reflexivity.
      * intros [post E]. injection E as E. apply IH. exists post. exact E.
    + split; [discriminate | intros [post [= E _]]; congruence].
Qed.

Lemma includes_spec (hay : string) :
  forall needle, JsString.includes hay needle = true <-> occursIn needle hay.
Proof.
  unfold occursIn. induction hay as [|c r IH]; intros needle.
  - change (JsString.includes EmptyString needle)
      with (String.prefix needle EmptyString || false).
    rewrite orb_false_r, prefix_spec. split.
    + intros [post E]. exists EmptyString, post. exact E.
    + intros ([|c pre] & post & E); [exists post; exact E | discriminate E].
  - change (JsString.includes (String c r) needle)
      with (String.prefix needle (String c r) || JsString.includes r needle).
    rewrite orb_true_iff, prefix_spec, IH. split.
    + intros [[post E] | (pre & post & E)].
      * exists EmptyString, post. exact E.
      * exists (String c pre), post. simpl. rewrite E. reflexivity.
    + intros ([|c' pre] & post & E).
      * left. exists post. exact E.
      * right. simpl in E. injection E as _ E. eauto.
Qed.

(** X14. When [card_ids] arrives as a non-empty string instead of an
    array, [includes] is the string method: a card counts as named as soon
    as its id occurs anywhere inside that string. Such a card gets the
    word marked if it contains it; a card whose id does not occur in the
    string is left as it is. *)
Theorem text_card_ids_match_substrings (data : JSON) (ids word : string) (w : World) :
  typeTag data = Some (JStr "word_selected") ->
  getProp data "card_ids" = Some (JStr ids) -> ids <> EmptyString ->
  getProp data "word" = Some (JStr word) ->
  exists w',
    handleWebSocketMessage data w = Returns (Some w') /\
    Forall2 (fun c c' =>
               (occursIn (id c) ids -> word ∈ words c -> word ∈ marked c') /\
               (~ occursIn (id c) ids -> c' = c))
            (bingoCards w) (bingoCards w').
Proof.
  intros Htag Hids Hne Hword.
  assert (Hcard : forall c,
            markCard data c =
            Some (if JsString.includes ids (id c) && strIn word (words c)
                     && negb (strIn word (marked c))
                  then setMarkedWords c (marked c ++ [word]) else c)).
  { intros c. unfold markCard, cardIdsInclude. rewrite Hids, Hword.
    destruct ids as [|a r]; [congruence|]. cbn [truthy JsString.truthy JsString.isEmpty negb].
    destruct (JsString.includes (String a r) (id c)); [|reflexivity].
    destruct (strIn word (words c)); reflexivity. }
  rewrite (handle_word_selected _ _ Htag).
  unfold markCards. rewrite (mapM_total _ _ _ Hcard).
  eexists. split; [reflexivity|]. cbn [bingoCards setBingoCards].
  apply Forall2_fmap_r, Forall_Forall2_diag, Forall_forall. intros c _.
  unfold compose.
  destruct (JsString.includes ids (id c)) eqn:Hi; simpl.
  - apply includes_spec in Hi. split; [|tauto]. intros _ Hw.
    apply strIn_spec in Hw. rewrite Hw. simpl.
    destruct (strIn word (marked c)) eqn:Hm; simpl.
    + apply strIn_spec, Hm.
    + replace (marked (setMarkedWords c (marked c ++ [word])))
        with (marked c ++ [word]) by reflexivity.
      apply elem_of_app. right. apply list_elem_of_here.
  - split; [|reflexivity]. intros Ho. apply includes_spec in Ho. congruence.
Qed.

Lemma text_card_ids_match_substrings_witness :
  exists w',
    handleWebSocketMessage (wordSelectedText "d1" "ED") worldDE = Returns (Some w') /\
    map markedWords (bingoCards w') = [Some ["d1"]; Some ["d1"]].
Proof.
  destruct (text_card_ids_match_substrings (wordSelectedText "d1" "ED") "ED" "d1" worldDE
              eq_refl eq_refl ltac:(discriminate) eq_refl) as (w' & Hh & _).
  exists w'. split; [exact Hh|].
  vm_compute in Hh. injection Hh as <-. reflexivity.
Defined.

(** ** The earlier revision of the parser *)

Lemma earlier_parseLine (cards : list Card) (line : string) :
  Earlier.parseLine (map asEarlier cards) line = map asEarlier (parseLine cards line).
Proof.
  unfold Earlier.parseLine, parseLine.
  destruct (_ <? 2); [reflexivity|].
  destruct (JsString.splitWs _) as [|id0 words0]; [reflexivity|].
  destruct (_ =? 0); [reflexivity|]. rewrite map_app. reflexivity.
Qed.

(** X15. On every input the parser of the earlier revision returns the
    cards of the current parser, in the same order, without the two
    fields added since: the same ids, words and languages. *)
Theorem earlier_parser_agrees (content : string) :
  Earlier.parseTxtFile content = map asEarlier (parseTxtFile content) /\
  length (Earlier.parseTxtFile content) = length (parseTxtFile content).
Proof.
  assert (H : Earlier.parseTxtFile content = map asEarlier (parseTxtFile content)).
  { unfold Earlier.parseTxtFile, parseTxtFile.
    destruct (_ =? 0); [reflexivity|].
    generalize (List.filter (fun line => JsString.truthy (JsString.trim line))
                            (JsString.splitLines content)).
    intros lines. change (@nil Earlier.Card) with (map asEarlier []).
    generalize (@nil Card).
    induction lines as [|line rest IH]; intros cards; simpl; [reflexivity|].
    rewrite earlier_parseLine. apply IH. }
  split; [exact H|]. rewrite H. apply length_map.
Qed.

(** ** Order of the sends, restated *)

(** X16. In every state of a session in which no read completes on a
    store that has changed since its file was chosen, the calls of
    [sendBingoCard] made so far are for the store positions 0, 1, 2, ...
    in that order, so no position twice; each call was given the card
    stored at its position (same id, words and language), which is now
    flagged transmitted; and at most one continuation of the drain is
    pending. (With a read that completes later a position can be handed
    over twice: see [stale_read_clears_flag].) *)
Theorem sends_once_in_store_order (w : World) :
  reachableFresh w ->
  map fst (sendCalls w) = seq 0 (length (sendCalls w)) /\
  NoDup (map fst (sendCalls w)) /\
  (forall j call, sendCalls w !! j = Some call ->
     fst call = j /\
     exists c, bingoCards w !! j = Some c /\
               sameContent (snd call) c /\ transmitted c = true) /\
  pendingDrains w <= 1.
Proof.
  intros (evs & Hfresh & Hrun).
  destruct (QueueInv_run _ _ _ Hfresh Hrun QueueInv_initial) as [H1 H2 H3 H4 H5].
  split; [exact H1|]. split; [rewrite H1; apply NoDup_seq|]. split.
  - intros j call Hj. split.
    + assert (Hm : map fst (sendCalls w) !! j = Some (fst call))
        by (rewrite list_lookup_fmap, Hj; reflexivity).
      rewrite H1 in Hm. apply lookup_seq in Hm as [Hm _]. simpl in Hm. congruence.
    + destruct (H4 _ _ Hj) as (c & Hc & Hsame). exists c.
      split; [exact Hc|]. split; [exact Hsame|].
      apply (H3 _ _ Hc), (lookup_lt_Some _ _ _ Hj).
  - destruct (isTransmitting w); lia.
Qed.

Lemma sends_once_in_store_order_witness :
  exists w,
    run (spanishRoundSession ++ [FileChosen "D uno"; Play; FileLoaded 0]) initialWorld
      = Some w /\
    map fst (sendCalls w) = seq 0 (length (sendCalls w)) /\
    pendingDrains w <= 1.
Proof.
  destruct (run (spanishRoundSession ++ [FileChosen "D uno"; Play; FileLoaded 0])
              initialWorld) as [w|] eqn:Hrun; [|vm_compute in Hrun; discriminate].
  assert (Hfresh : ReadsFresh (spanishRoundSession ++
                                 [FileChosen "D uno"; Play; FileLoaded 0]) initialWorld)
    by (vm_compute; repeat split).
  destruct (sends_once_in_store_order w (ex_intro _ _ (conj Hfresh Hrun)))
    as (H1 & _ & _ & H4).
  exists w. split; [reflexivity|]. split; assumption.
Defined.

(** ** A send that found the socket not open *)

Lemma Traffic_same (w w1 : World) :
  sendCalls w1 = sendCalls w -> wire w1 = wire w -> Traffic w w1 [] [].
Proof.
  intros Hs Hw. unfold Traffic. rewrite Hs, Hw, !app_nil_r.
  split; [reflexivity|]. split; [reflexivity | apply sublist_nil_l].
Qed.

Lemma Traffic_transmitNextCard (w : World) :
  exists later sent, Traffic w (transmitNextCard w) later sent.
Proof.
  destruct (transmitNextCard_cases w) as [[_ ->] | (i & card & _ & _ & _ & ->)];
    [exists [], []; apply Traffic_same; reflexivity|].
  unfold Traffic. cbn [sendCalls wire setBingoCards setTimers].
  destruct (sendBingoCard_cases i card w) as [[_ ->] | [_ ->]];
    cbn [sendCalls wire setWire setSendCalls].
  - exists [(i, card)], [cardMsg card]. repeat split. reflexivity.
  - exists [(i, card)], []. rewrite app_nil_r. repeat split. apply sublist_nil_l.
Qed.

Lemma Traffic_change (w w' : World) :
  Change w w' -> exists later sent, Traffic w w' later sent.
Proof.
  intros HC. destruct HC as [w w' HP | w reader newCards _ _ _];
    [|exists [], []; apply Traffic_same; reflexivity].
  destruct HP;
    try (exists [], []; apply Traffic_same; reflexivity).
  - exists [], []. apply Traffic_same; apply H.
  - exists [], [RegisterMsg name]. unfold Traffic.
    cbn [sendCalls wire setWire setSocketRef]. rewrite app_nil_r.
    repeat split. apply sublist_nil_l.
  - exists [], [PlayMsg]. unfold Traffic. cbn [sendCalls wire setWire].
    rewrite app_nil_r. repeat split. apply sublist_nil_l.
  - apply Traffic_transmitNextCard.
Qed.

Lemma Traffic_trans (a b c : World) :
  (exists later sent, Traffic a b later sent) ->
  (exists later sent, Traffic b c later sent) ->
  exists later sent, Traffic a c later sent.
Proof.
  intros (l1 & s1 & Hs1 & Hw1 & Hsub1) (l2 & s2 & Hs2 & Hw2 & Hsub2).
  exists (l1 ++ l2), (s1 ++ s2). unfold Traffic.
  rewrite Hs2, Hs1, Hw2, Hw1, !app_assoc. split; [reflexivity|].
  split; [reflexivity|].
  rewrite List.filter_app, map_app. apply sublist_app; assumption.
Qed.

Lemma Traffic_run (evs : list Event) (w w' : World) :
  run evs w = Some w' -> exists later sent, Traffic w w' later sent.
Proof.
  apply (run_relation (fun a b => exists later sent, Traffic a b later sent)).
  - intros x. exists [], []. apply Traffic_same; reflexivity.
  - apply Traffic_trans.
  - apply Traffic_change.
Qed.

(** X17. When [transmitNextCard] picks a card while the socket is not
    open, nothing is written to the socket and nothing to the console, the
    call of [sendBingoCard] is the only trace, and the card is stored as
    transmitted. Whatever events follow, every card message written to the
    socket from then on stems from a call of [sendBingoCard] made from
    then on: the message that was dropped is not kept for later. And as
    long as no read completes on a store that has changed since its file
    was chosen, the card stays flagged and none of those later calls is
    for its position. *)
Theorem dropped_send_is_final (w : World) (i : nat) (card : Card) :
  socketIsOpen w = false ->
  list_find untransmitted (bingoCards w) = Some (i, card) ->
  wire (transmitNextCard w) = wire w /\
  console (transmitNextCard w) = console w /\
  sendCalls (transmitNextCard w) = sendCalls w ++ [(i, card)] /\
  bingoCards (transmitNextCard w) !! i = Some (setTransmitted card) /\
  (forall evs w',
      run evs (transmitNextCard w) = Some w' ->
      exists later sent,
        sendCalls w' = sendCalls (transmitNextCard w) ++ later /\
        wire w' = wire w ++ sent /\
        List.filter isCardMsg sent `sublist_of`
          map (fun call => cardMsg (snd call)) later /\
        (ReadsFresh evs (transmitNextCard w) ->
         sentAt w' i /\ forall j c, (j, c) ∈ later -> j <> i)).
Proof.
  intros Hclosed Hf.
  assert (Hi : bingoCards (transmitNextCard w) !! i = Some (setTransmitted card)).
  { unfold transmitNextCard. rewrite Hf. cbn [bingoCards setBingoCards].
    apply list_find_Some in Hf as (Hi & _). rewrite list_lookup_imap, Hi. simpl.
    rewrite Nat.eqb_refl. reflexivity. }
  assert (Hsent : sentAt (transmitNextCard w) i).
  { exists (setTransmitted card). split; [exact Hi | reflexivity]. }
  assert (Hwire : wire (transmitNextCard w) = wire w).
  { unfold transmitNextCard. rewrite Hf. cbn [wire setBingoCards setTimers].
    apply wire_sendBingoCard_closed, Hclosed. }
  split; [exact Hwire|]. split; [|split; [|split; [exact Hi|]]].
  - unfold transmitNextCard. rewrite Hf. cbn [console setBingoCards setTimers].
    unfold sendBingoCard. destruct (socketIsOpen _); reflexivity.
  - unfold transmitNextCard. rewrite Hf. cbn [sendCalls setBingoCards setTimers].
    apply sendCalls_sendBingoCard.
  - intros evs w' Hrun.
    destruct (Traffic_run _ _ _ Hrun) as (later & sent & Hs & Hw & Hsub).
    exists later, sent. split; [exact Hs|]. split; [rewrite Hw, Hwire; reflexivity|].
    split; [exact Hsub|]. intros Hfresh.
    destruct (Progress_run _ _ _ Hfresh Hrun) as [Hmono (later' & Hs' & Hnew)].
    split; [apply Hmono, Hsent|].
    rewrite Hs in Hs'. apply app_inv_head in Hs'. subst later'.
    intros j c Hin ->. apply (Hnew _ _ Hin), Hsent.
Qed.

Lemma dropped_send_is_final_witness :
  exists w',
    run [Register "Ana"; SocketOpens; TimerFires 0; TimerFires 0]
        (transmitNextCard worldDE) = Some w' /\
    sendCalls (transmitNextCard worldDE) = [(0, cardD)] /\
    wire (transmitNextCard worldDE) = [] /\
    sentAt w' 0 /\
    map fst (sendCalls w') = [0; 1] /\
    wire w' = [RegisterMsg "Ana"; cardMsg cardE].
Proof.
  pose (evs := [Register "Ana"; SocketOpens; TimerFires 0; TimerFires 0]).
  destruct (run evs (transmitNextCard worldDE)) as [w'|] eqn:Hrun;
    [|vm_compute in Hrun; discriminate].
  destruct (dropped_send_is_final worldDE 0 cardD eq_refl eq_refl)
    as (H1 & _ & H3 & _ & Hlater).
  destruct (Hlater evs w' Hrun) as (later & sent & _ & _ & _ & Hfinal).
  assert (Hfresh : ReadsFresh evs (transmitNextCard worldDE))
    by (vm_compute; repeat split).
  destruct (Hfinal Hfresh) as [Hsent _].
  exists w'. split; [exact Hrun|]. split; [exact H3|]. split; [exact H1|].
  split; [exact Hsent|].
  vm_compute in Hrun. injection Hrun as <-. split; reflexivity.
Defined.

(** ** Method calls of the JSX on what a message carried *)





